(** * trello-clone: the board store and its storage synchronisation

    A shallow embedding of
      - [types/index.ts]            (Comment, Card, List, Board),
      - [constants/index.ts]        (DEFAULT_BOARD),
      - [utils/helpers.ts]          (generateId, reorderArray,
                                     moveItemBetweenArrays, safeJsonParse),
      - [hooks/useBoard.ts]         (the board operations),
      - [hooks/useLocalStorage.ts]  (the storage synchronisation hook),
    and of what they use of the language ([Array.prototype.splice],
    [JSON.stringify], [JSON.parse]) and of React (state, refs, effects
    and their dependencies), followed by the properties of the
    specification that concern them. *)

From Stdlib Require Import ZArith NArith Ascii String.
From stdpp Require Import base tactics option list gmap.

Local Open Scope Z_scope.

(* ===================================================================== *)
(** ** JavaScript values used by the code *)
(* ===================================================================== *)

(** A JavaScript string is a sequence of UTF-16 code units. *)
Abbreviation code_unit := N.
Abbreviation jsstring := (list N).

(** String literals of the source, as code units. *)
Fixpoint js (s : string) : jsstring :=
  match s with
  | EmptyString => []
  | String c r => N_of_ascii c :: js r
  end.

(** [a === b] on strings. *)
Definition str_eqb (a b : jsstring) : bool := bool_decide (a = b).

(** A slot of a JavaScript array at run time: a value, or [undefined]
    ([None]).  The TypeScript type [T[]] promises that every slot holds a
    value; [splice] can break that promise, so the arrays the operations
    build are lists of slots. *)
Abbreviation slot T := (option T).

(** Every slot of the array holds a value: the array inhabits [T[]]. *)
Definition typed {T} (a : list (slot T)) : option (list T) :=
  mapM id a.

(** [Array.prototype.splice], step 3-6 of the language definition: the
    position a relative [start] denotes in an array of [len] elements.
    Indices are modelled as integers. *)
Definition actualStart (len : nat) (start : Z) : nat :=
  if start <? 0 then Z.to_nat (Z.max (Z.of_nat len + start) 0)
  else Z.to_nat (Z.min start (Z.of_nat len)).

(** [a.splice(start, deleteCount, ...items)]: the deleted elements and the
    array afterwards. *)
Definition splice {T} (a : list T) (start deleteCount : Z) (items : list T)
  : list T * list T :=
  let k := actualStart (length a) start in
  let dc := Z.to_nat (Z.min (Z.max deleteCount 0) (Z.of_nat (length a - k))) in
  (take dc (drop k a), take k a ++ items ++ drop (k + dc)%nat a).

(** [const [x] = arr]: the first slot, [undefined] when there is none. *)
Definition first_of {T} (arr : list (slot T)) : slot T :=
  match arr with
  | [] => None
  | x :: _ => x
  end.

(* ===================================================================== *)
(** ** utils/helpers.ts *)
(* ===================================================================== *)

(** [generateId(prefix)]; [uuid] is the value [uuidv4()] returns. *)
Definition generateId (prefix uuid : jsstring) : jsstring :=
  match prefix with
  | [] => uuid
  | _ => prefix ++ js "-" ++ uuid
  end.

Definition reorderArray {T} (arr : list T) (startIndex endIndex : Z)
  : list (slot T) :=
  let result := Some <$> arr in
  let '(deleted, result) := splice result startIndex 1 [] in
  let removed := first_of deleted in
  let '(_, result) := splice result endIndex 0 [removed] in
  result.

Definition moveItemBetweenArrays {T} (source destination : list T)
    (sourceIndex destinationIndex : Z) : list (slot T) * list (slot T) :=
  let sourceClone := Some <$> source in
  let destClone := Some <$> destination in
  let '(deleted, sourceClone) := splice sourceClone sourceIndex 1 [] in
  let removed := first_of deleted in
  let '(_, destClone) := splice destClone destinationIndex 0 [removed] in
  (sourceClone, destClone).

(* ===================================================================== *)
(** ** types/index.ts *)
(* ===================================================================== *)

Record Comment := mkComment {
  comment_id : jsstring;
  comment_text : jsstring;
  comment_createdAt : jsstring;
}.

Record Card := mkCard {
  card_id : jsstring;
  card_title : jsstring;
  card_description : option jsstring;
  card_comments : list Comment;
  card_createdAt : jsstring;
}.

(** [List] and [Board], over the type of what the arrays hold: the
    declared types hold values, the run-time results hold slots. *)
Record ListOf (C : Type) := mkList {
  list_id : jsstring;
  list_title : jsstring;
  list_cards : list C;
}.
Arguments mkList {C}.
Arguments list_id {C}.
Arguments list_title {C}.
Arguments list_cards {C}.

Record BoardOf (L : Type) := mkBoard {
  board_id : jsstring;
  board_title : jsstring;
  board_lists : list L;
  board_createdAt : jsstring;
  board_updatedAt : jsstring;
}.
Arguments mkBoard {L}.
Arguments board_id {L}.
Arguments board_title {L}.
Arguments board_lists {L}.
Arguments board_createdAt {L}.
Arguments board_updatedAt {L}.

(** The declared types. *)
Abbreviation List := (ListOf Card).
Abbreviation Board := (BoardOf (ListOf Card)).

(** What an operation can leave behind: [undefined] slots among the cards
    of a list, or among the lists of the board. *)
Abbreviation RawList := (ListOf (option Card)).
Abbreviation RawBoard := (BoardOf (option (ListOf (option Card)))).

Definition raw_list (l : List) : RawList :=
  mkList (list_id l) (list_title l) (Some <$> list_cards l).

Definition raw_board {L L'} (f : L -> L') (b : BoardOf L) : BoardOf L' :=
  mkBoard (board_id b) (board_title b) (f <$> board_lists b)
          (board_createdAt b) (board_updatedAt b).

(** A declared board seen as a run-time board. *)
Definition raw (b : Board) : RawBoard :=
  raw_board (fun l => Some (raw_list l)) b.

(* ===================================================================== *)
(** ** constants/index.ts *)
(* ===================================================================== *)

(** [DEFAULT_BOARD]; the five [new Date().toISOString()] of the module are
    evaluated once, when the module is loaded. *)
Definition DEFAULT_BOARD (t1 t2 t3 tc tu : jsstring) : Board :=
  mkBoard (js "board-1") (js "Demo Board")
    [ mkList (js "list-1") (js "Todo")
        [ mkCard (js "card-1") (js "Create interview Kanban") None [] t1;
          mkCard (js "card-2") (js "Review Drag & Drop") None [] t2 ];
      mkList (js "list-2") (js "In Progress")
        [ mkCard (js "card-3") (js "Set up Next.js project") None [] t3 ];
      mkList (js "list-3") (js "Done") [] ]
    tc tu.

(* ===================================================================== *)
(** ** hooks/useBoard.ts *)
(* ===================================================================== *)

(** Each operation is the updater it hands to [setBoard], as a function of
    the previous board [prev]; [now] is what [getCurrentTimestamp()]
    returns inside the updater, [uuid] what [uuidv4()] returns. *)

Definition updateBoardTitle (prev : Board) (title now : jsstring) : Board :=
  mkBoard (board_id prev) title (board_lists prev) (board_createdAt prev) now.

(** [resetBoard] hands [setBoard] a value, not an updater. *)
Definition resetBoard (default_board prev : Board) : Board := default_board.

Definition addList (prev : Board) (title uuid now : jsstring) : Board :=
  let newList := mkList (generateId (js "list") uuid) title [] in
  mkBoard (board_id prev) (board_title prev) (board_lists prev ++ [newList])
          (board_createdAt prev) now.

Definition updateListTitle (prev : Board) (listId title now : jsstring)
  : Board :=
  mkBoard (board_id prev) (board_title prev)
    ((fun list : List =>
        if str_eqb (list_id list) listId
        then mkList (list_id list) title (list_cards list)
        else list) <$> board_lists prev)
    (board_createdAt prev) now.

Definition deleteList (prev : Board) (listId now : jsstring) : Board :=
  mkBoard (board_id prev) (board_title prev)
    (filter (fun list : List => list_id list <> listId) (board_lists prev))
    (board_createdAt prev) now.

Definition deleteAllCards (prev : Board) (listId now : jsstring) : Board :=
  mkBoard (board_id prev) (board_title prev)
    ((fun list : List =>
        if str_eqb (list_id list) listId
        then mkList (list_id list) (list_title list) []
        else list) <$> board_lists prev)
    (board_createdAt prev) now.

Definition reorderLists (prev : Board) (startIndex endIndex : Z)
    (now : jsstring) : BoardOf (slot List) :=
  mkBoard (board_id prev) (board_title prev)
    (reorderArray (board_lists prev) startIndex endIndex)
    (board_createdAt prev) now.

(** [created] is the [getCurrentTimestamp()] taken for the card, before
    the updater runs. *)
Definition addCard (prev : Board) (listId title uuid created now : jsstring)
  : Board :=
  let newCard := mkCard (generateId (js "card") uuid) title None [] created in
  mkBoard (board_id prev) (board_title prev)
    ((fun list : List =>
        if str_eqb (list_id list) listId
        then mkList (list_id list) (list_title list)
                    (list_cards list ++ [newCard])
        else list) <$> board_lists prev)
    (board_createdAt prev) now.

Definition updateCardTitle (prev : Board) (listId cardId title now : jsstring)
  : Board :=
  mkBoard (board_id prev) (board_title prev)
    ((fun list : List =>
        if str_eqb (list_id list) listId
        then mkList (list_id list) (list_title list)
               ((fun card : Card =>
                   if str_eqb (card_id card) cardId
                   then mkCard (card_id card) title (card_description card)
                               (card_comments card) (card_createdAt card)
                   else card) <$> list_cards list)
        else list) <$> board_lists prev)
    (board_createdAt prev) now.

Definition deleteCard (prev : Board) (listId cardId now : jsstring) : Board :=
  mkBoard (board_id prev) (board_title prev)
    ((fun list : List =>
        if str_eqb (list_id list) listId
        then mkList (list_id list) (list_title list)
               (filter (fun card : Card => card_id card <> cardId)
                       (list_cards list))
        else list) <$> board_lists prev)
    (board_createdAt prev) now.

Definition reorderCards (prev : Board) (listId : jsstring)
    (startIndex endIndex : Z) (now : jsstring) : BoardOf RawList :=
  mkBoard (board_id prev) (board_title prev)
    ((fun list : List =>
        if str_eqb (list_id list) listId
        then mkList (list_id list) (list_title list)
                    (reorderArray (list_cards list) startIndex endIndex)
        else raw_list list) <$> board_lists prev)
    (board_createdAt prev) now.

(** [prev.lists.find((l) => l.id === listId)] *)
Definition find_list (lists : list List) (listId : jsstring) : option List :=
  List.find (fun l => str_eqb (list_id l) listId) lists.

Definition moveCard (prev : Board) (sourceListId destListId : jsstring)
    (sourceIndex destIndex : Z) (now : jsstring) : BoardOf RawList :=
  match find_list (board_lists prev) sourceListId,
        find_list (board_lists prev) destListId with
  | Some sourceList, Some destList =>
      let same := str_eqb sourceListId destListId in
      let sourceCards := Some <$> list_cards sourceList in
      let destCards :=
        if same then sourceCards else Some <$> list_cards destList in
      let '(deleted, sourceCards) := splice sourceCards sourceIndex 1 [] in
      (* when the ids are equal, [destCards] and [sourceCards] name one
         array: what [splice] does to one is seen through the other *)
      let destCards := if same then sourceCards else destCards in
      let movedCard := first_of deleted in
      let '(sourceCards, destCards) :=
        if same
        then let r := (splice sourceCards destIndex 0 [movedCard]).2 in (r, r)
        else (sourceCards, (splice destCards destIndex 0 [movedCard]).2) in
      mkBoard (board_id prev) (board_title prev)
        ((fun list : List =>
            if str_eqb (list_id list) sourceListId
            then mkList (list_id list) (list_title list) sourceCards
            else if str_eqb (list_id list) destListId
                    && negb (str_eqb sourceListId destListId)
            then mkList (list_id list) (list_title list) destCards
            else raw_list list) <$> board_lists prev)
        (board_createdAt prev) now
  | _, _ => raw_board raw_list prev
  end.

(** [created] is the [getCurrentTimestamp()] taken for the comment. *)
Definition addComment (prev : Board)
    (listId cardId text uuid created now : jsstring) : Board :=
  let newComment := mkComment (generateId (js "comment") uuid) text created in
  mkBoard (board_id prev) (board_title prev)
    ((fun list : List =>
        if str_eqb (list_id list) listId
        then mkList (list_id list) (list_title list)
               ((fun card : Card =>
                   if str_eqb (card_id card) cardId
                   then mkCard (card_id card) (card_title card)
                               (card_description card)
                               (card_comments card ++ [newComment])
                               (card_createdAt card)
                   else card) <$> list_cards list)
        else list) <$> board_lists prev)
    (board_createdAt prev) now.

Definition getList (board : Board) (listId : jsstring) : option List :=
  find_list (board_lists board) listId.

Definition getCard (board : Board) (listId cardId : jsstring) : option Card :=
  match find_list (board_lists board) listId with
  | Some list => List.find (fun c => str_eqb (card_id c) cardId) (list_cards list)
  | None => None
  end.

(** The operations of the store that change the board, with their
    arguments and the identifiers and timestamps they draw. *)
Inductive Op :=
| UpdateBoardTitle (title : jsstring)
| ResetBoard (t1 t2 t3 tc tu : jsstring)
| AddList (title uuid : jsstring)
| UpdateListTitle (listId title : jsstring)
| DeleteList (listId : jsstring)
| DeleteAllCards (listId : jsstring)
| ReorderLists (startIndex endIndex : Z)
| AddCard (listId title uuid created : jsstring)
| UpdateCardTitle (listId cardId title : jsstring)
| DeleteCard (listId cardId : jsstring)
| ReorderCards (listId : jsstring) (startIndex endIndex : Z)
| MoveCard (sourceListId destListId : jsstring) (sourceIndex destIndex : Z)
| AddComment (listId cardId text uuid created : jsstring).

(** Run-time views of the three result types. *)
Definition of_lists (b : BoardOf (slot List)) : RawBoard :=
  raw_board (fmap raw_list) b.
Definition of_cards (b : BoardOf RawList) : RawBoard :=
  raw_board Some b.

(** The board after [op], called at time [now] on the board [prev]. *)
Definition run (op : Op) (now : jsstring) (prev : Board) : RawBoard :=
  match op with
  | UpdateBoardTitle title => raw (updateBoardTitle prev title now)
  | ResetBoard t1 t2 t3 tc tu => raw (resetBoard (DEFAULT_BOARD t1 t2 t3 tc tu) prev)
  | AddList title uuid => raw (addList prev title uuid now)
  | UpdateListTitle listId title => raw (updateListTitle prev listId title now)
  | DeleteList listId => raw (deleteList prev listId now)
  | DeleteAllCards listId => raw (deleteAllCards prev listId now)
  | ReorderLists s e => of_lists (reorderLists prev s e now)
  | AddCard listId title uuid created =>
      raw (addCard prev listId title uuid created now)
  | UpdateCardTitle listId cardId title =>
      raw (updateCardTitle prev listId cardId title now)
  | DeleteCard listId cardId => raw (deleteCard prev listId cardId now)
  | ReorderCards listId s e => of_cards (reorderCards prev listId s e now)
  | MoveCard s d i j => of_cards (moveCard prev s d i j now)
  | AddComment listId cardId text uuid created =>
      raw (addComment prev listId cardId text uuid created now)
  end.

(** The list ids an operation names. *)
Definition op_list_ids (op : Op) : list jsstring :=
  match op with
  | UpdateListTitle listId _ | DeleteList listId | DeleteAllCards listId
  | AddCard listId _ _ _ | UpdateCardTitle listId _ _ | DeleteCard listId _
  | ReorderCards listId _ _ | AddComment listId _ _ _ _ => [listId]
  | MoveCard sourceListId destListId _ _ => [sourceListId; destListId]
  | UpdateBoardTitle _ | ResetBoard _ _ _ _ _ | AddList _ _
  | ReorderLists _ _ => []
  end.

(** [op] names a list id that no list of [b] has. *)
Definition names_absent_list (b : Board) (op : Op) : Prop :=
  Exists (fun listId => find_list (board_lists b) listId = None)
         (op_list_ids op).

(** The board with another [updatedAt]. *)
Definition with_updatedAt {L} (b : BoardOf L) (t : jsstring) : BoardOf L :=
  mkBoard (board_id b) (board_title b) (board_lists b) (board_createdAt b) t.

(** The data model's invariant on ids, for the lists of a board. *)
Definition unique_list_ids (b : Board) : Prop :=
  NoDup (list_id <$> board_lists b).

(** Number of card slots on the whole board: the sum of [cards.length]. *)
Definition total_cards {C} (b : BoardOf (ListOf C)) : nat :=
  sum_list_with (fun l => length (list_cards l)) (board_lists b).

(** ISO-8601 timestamps of one format compare as strings: [a <= b],
    code unit by code unit. *)
Fixpoint ts_leb (a b : jsstring) : bool :=
  match a, b with
  | [], _ => true
  | _ :: _, [] => false
  | x :: a', y :: b' => if (x <? y)%N then true
                        else if (x =? y)%N then ts_leb a' b' else false
  end.

(** Does [op], on [b], reach the [updatedAt: getCurrentTimestamp()] of its
    updater?  [resetBoard] has none, and [moveCard] returns [prev] before
    it when a list is not found. *)
Definition bumps (op : Op) (b : Board) : bool :=
  match op with
  | ResetBoard _ _ _ _ _ => false
  | MoveCard s d _ _ =>
      bool_decide (is_Some (find_list (board_lists b) s))
      && bool_decide (is_Some (find_list (board_lists b) d))
  | _ => true
  end.

(* ===================================================================== *)
(** ** hooks/useLocalStorage.ts *)
(* ===================================================================== *)

(** The hook is a React component's state, a ref, three effects and two
    callbacks.  Its embedding threads the state of one hook instance and
    of its environment through the bodies of the effects and callbacks,
    in a monad with exceptions, so that [try]/[catch] is written out. *)

(** An object of the heap: [Object.is], by which React compares states
    and effect dependencies, compares the addresses. *)
Record ref (T : Type) := mkRef { addr : nat; content : T }.
Arguments mkRef {T}.
Arguments addr {T}.
Arguments content {T}.

(** What an instance does to its environment, in the order it does it:
    the calls of [localStorage] it reaches, and its [console.error]s. *)
Inductive io :=
| GetItem (k : jsstring)
| SetItem (k v : jsstring)
| RemoveItem (k : jsstring)
| ConsoleError.

Global Instance io_eq_dec : EqDecision io.
Proof. solve_decision. Defined.

(** The instance: two [useState], one [useRef], the values the closures
    of the last committed render captured (they are the dependencies the
    write effect is compared by), and whether the listener is added. *)
Record Hook (T : Type) := mkHook {
  storedValue : ref T;
  isHydrated : bool;
  isFirstRender : bool;
  rendered : ref T * bool;
  listening : bool;
}.
Arguments mkHook {T}.
Arguments storedValue {T}.
Arguments isHydrated {T}.
Arguments isFirstRender {T}.
Arguments rendered {T}.
Arguments listening {T}.

(** The environment: the items of [localStorage]; whether [localStorage]
    can be used at all (it throws when storage is disabled) and whether
    [setItem] has room (it throws when the quota is exceeded); the next
    free address of the heap; the trace. *)
Record World := mkWorld {
  localStorage : gmap jsstring jsstring;
  accessible : bool;
  quota_ok : bool;
  next_addr : nat;
  log : list io;
}.

Inductive result (A : Type) :=
| Ok (a : A)
| Throw.
Arguments Ok {A}.
Arguments Throw {A}.

Section useLocalStorage.
Context {T : Type}.

Definition St : Type := Hook T * World.
Definition M (A : Type) : Type := St -> result A * St.

Definition ret {A} (a : A) : M A := fun st => (Ok a, st).

Definition bind {A B} (m : M A) (k : A -> M B) : M B :=
  fun st => match m st with
            | (Ok a, st') => k a st'
            | (Throw, st') => (Throw, st')
            end.

(** [try { body } catch (error) { handler }] *)
Definition try_catch {A} (body handler : M A) : M A :=
  fun st => match body st with
            | (Ok a, st') => (Ok a, st')
            | (Throw, st') => handler st'
            end.

Notation "x <- m ; k" := (bind m (fun x => k))
  (at level 20, m at level 100, k at level 200, only parsing,
   right associativity).
Notation "m ;; k" := (bind m (fun _ => k))
  (at level 100, k at level 200, only parsing, right associativity).

Definition emit (e : io) : M unit :=
  fun '(h, w) =>
    (Ok tt, (h, mkWorld (localStorage w) (accessible w) (quota_ok w)
                        (next_addr w) (log w ++ [e]))).

Definition localStorage_getItem (k : jsstring) : M (option jsstring) :=
  emit (GetItem k) ;;
  fun '(h, w) =>
    if accessible w then (Ok (localStorage w !! k), (h, w))
    else (Throw, (h, w)).

Definition localStorage_setItem (k v : jsstring) : M unit :=
  emit (SetItem k v) ;;
  fun '(h, w) =>
    if accessible w && quota_ok w
    then (Ok tt, (h, mkWorld (<[k := v]> (localStorage w)) (accessible w)
                             (quota_ok w) (next_addr w) (log w)))
    else (Throw, (h, w)).

Definition localStorage_removeItem (k : jsstring) : M unit :=
  emit (RemoveItem k) ;;
  fun '(h, w) =>
    if accessible w
    then (Ok tt, (h, mkWorld (delete k (localStorage w)) (accessible w)
                             (quota_ok w) (next_addr w) (log w)))
    else (Throw, (h, w)).

Definition console_error : M unit := emit ConsoleError.

(** A value becomes a new object of the heap. *)
Definition new_object (v : T) : M (ref T) :=
  fun '(h, w) =>
    (Ok (mkRef (next_addr w) v),
     (h, mkWorld (localStorage w) (accessible w) (quota_ok w)
                 (S (next_addr w)) (log w))).

Definition setStoredValue (r : ref T) : M unit :=
  fun '(h, w) =>
    (Ok tt, (mkHook r (isHydrated h) (isFirstRender h) (rendered h)
                    (listening h), w)).

Definition setIsHydrated (b : bool) : M unit :=
  fun '(h, w) =>
    (Ok tt, (mkHook (storedValue h) b (isFirstRender h) (rendered h)
                    (listening h), w)).

Definition set_isFirstRender (b : bool) : M unit :=
  fun '(h, w) =>
    (Ok tt, (mkHook (storedValue h) (isHydrated h) b (rendered h)
                    (listening h), w)).

Definition set_rendered (s : ref T * bool) : M unit :=
  fun '(h, w) =>
    (Ok tt, (mkHook (storedValue h) (isHydrated h) (isFirstRender h) s
                    (listening h), w)).

Definition set_listening (b : bool) : M unit :=
  fun '(h, w) =>
    (Ok tt, (mkHook (storedValue h) (isHydrated h) (isFirstRender h)
                    (rendered h) b, w)).

Definition get_hook : M (Hook T) := fun '(h, w) => (Ok h, (h, w)).

(** The arguments of the hook.  [serializer] and [deserializer] return
    [None] when they throw; a value [deserializer] returns is a new
    object.  [initialValue] is an object of the caller. *)
Variable key : jsstring.
Variable initialValue : ref T.
Variable serializer : T -> option jsstring.
Variable deserializer : jsstring -> option T.

Definition call_serializer (v : T) : M jsstring :=
  match serializer v with
  | Some s => ret s
  | None => fun st => (Throw, st)
  end.

Definition call_deserializer (s : jsstring) : M (ref T) :=
  match deserializer s with
  | Some v => new_object v
  | None => fun st => (Throw, st)
  end.

(** [if (item)]: neither [null] nor the empty string. *)
Definition truthy (item : option jsstring) : option jsstring :=
  match item with
  | Some (c :: s) => Some (c :: s)
  | _ => None
  end.

(** The first effect: "Sync with localStorage after hydration". *)
Definition hydration_effect : M unit :=
  h <- get_hook ;
  if isFirstRender h then
    set_isFirstRender false ;;
    try_catch
      (item <- localStorage_getItem key ;
       match truthy item with
       | Some item => v <- call_deserializer item ; setStoredValue v
       | None => ret tt
       end)
      console_error ;;
    setIsHydrated true
  else ret tt.

(** The second effect: "Update localStorage when value changes (after
    hydration)".  Its closure holds the [storedValue] and [isHydrated] of
    the render it belongs to. *)
Definition write_effect : M unit :=
  h <- get_hook ;
  let '(storedValue, isHydrated) := rendered h in
  if isHydrated then
    try_catch
      (s <- call_serializer (content storedValue) ;
       localStorage_setItem key s)
      console_error
  else ret tt.

(** The listener of the third effect. *)
Definition handleStorageChange (event_key event_newValue : option jsstring)
  : M unit :=
  match event_key, event_newValue with
  | Some k, Some newValue =>
      if str_eqb k key then
        try_catch (v <- call_deserializer newValue ; setStoredValue v)
                  console_error
      else ret tt
  | _, _ => ret tt
  end.

(** The third effect: "Listen for storage changes from other tabs". *)
Definition listen_effect : M unit := set_listening true.

(** What [setValue] is called with: the object that was passed as
    [initialValue] (as [resetBoard] does), another object, or an updater,
    which returns its argument itself ([None]) or a new object. *)
Inductive setter :=
| SetInitial
| SetNew (v : T)
| Update (f : T -> option T).

Definition setValue (value : setter) : M unit :=
  try_catch
    (h <- get_hook ;
     match value with
     | SetInitial => setStoredValue initialValue
     | SetNew v => r <- new_object v ; setStoredValue r
     | Update f =>
         match f (content (storedValue h)) with
         | Some v => r <- new_object v ; setStoredValue r
         | None => ret tt
         end
     end)
    console_error.

Definition removeValue : M unit :=
  try_catch
    (setStoredValue initialValue ;; localStorage_removeItem key)
    console_error.

(** React after a callback or an effect has set state: when a state
    changed ([Object.is]) the component renders again, and of the three
    effects the one whose dependencies changed runs, which can only be
    the write effect ([key], [serializer] and [deserializer] being the
    same from render to render). *)
Definition rerender : M unit :=
  h <- get_hook ;
  if bool_decide (addr (storedValue h) = addr (rendered h).1)
     && bool_decide (isHydrated h = (rendered h).2)
  then ret tt
  else set_rendered (storedValue h, isHydrated h) ;; write_effect.

(** The first commit: the three effects run, in their order, with the
    closures of the first render; then the states they set take effect. *)
Definition mount : M unit :=
  hydration_effect ;; write_effect ;; listen_effect ;; rerender.

(** What happens to a mounted instance. *)
Inductive event :=
| Activate                       (* the first effect fires again *)
| WriteAgain                     (* the second effect fires again *)
| SetValue (value : setter)
| RemoveValue
| StorageEvent (event_key event_newValue : option jsstring).

Definition step (ev : event) : M unit :=
  match ev with
  | Activate => hydration_effect ;; rerender
  | WriteAgain => write_effect ;; rerender
  | SetValue value => setValue value ;; rerender
  | RemoveValue => removeValue ;; rerender
  | StorageEvent k v =>
      h <- get_hook ;
      if listening h then handleStorageChange k v ;; rerender else ret tt
  end.

Fixpoint steps (evs : list event) : M unit :=
  match evs with
  | [] => ret tt
  | ev :: evs => step ev ;; steps evs
  end.

(** A new instance, after its first render, in an environment. *)
Definition initial_hook : Hook T :=
  mkHook initialValue false true (initialValue, false) false.

Definition initial_world (items : gmap jsstring jsstring)
    (accessible quota_ok : bool) : World :=
  mkWorld items accessible quota_ok (S (addr initialValue)) [].

(** The life of an instance: it mounts, then events reach it. *)
Definition life (evs : list event) : M unit := mount ;; steps evs.

(** The same instance without React's schedule: its effects, renders
    and callbacks one at a time, in any order and any number of times. *)
Inductive action :=
| RunHydration                   (* the first effect *)
| RunWrite                       (* the second effect *)
| RunListen                      (* the third effect *)
| Render                         (* a render: the closures are renewed *)
| CallSetValue (value : setter)
| CallRemoveValue
| Deliver (event_key event_newValue : option jsstring).

Definition act (a : action) : M unit :=
  match a with
  | RunHydration => hydration_effect
  | RunWrite => write_effect
  | RunListen => listen_effect
  | Render => h <- get_hook ; set_rendered (storedValue h, isHydrated h)
  | CallSetValue value => setValue value
  | CallRemoveValue => removeValue
  | Deliver k v =>
      h <- get_hook ;
      if listening h then handleStorageChange k v else ret tt
  end.

Fixpoint acts (l : list action) : M unit :=
  match l with
  | [] => ret tt
  | a :: l => act a ;; acts l
  end.

End useLocalStorage.

(** [safeJsonParse(json, fallback)] of utils/helpers.ts, over what
    [JSON.parse] does: a value, or [None] when it throws. *)
Definition safeJsonParse {T} (JSON_parse : jsstring -> option T)
    (json : jsstring) (fallback : T) : T :=
  match JSON_parse json with
  | Some v => v
  | None => fallback
  end.

(* ===================================================================== *)
(** ** JSON.stringify and JSON.parse *)
(* ===================================================================== *)

(** The hook's default [serializer] and [deserializer] are the language's
    [JSON.stringify] and [JSON.parse].  They are modelled here, after the
    ECMAScript definition, on the values a board is made of.

    A JSON value.  An object is its members in the order they are
    written.  A number is kept as its lexeme: its value as a double is
    not modelled (no field of a board is a number). *)
#[local] Set Warnings "-register-all".
Inductive json :=
| JNull
| JBool (b : bool)
| JNumber (lexeme : jsstring)
| JString (s : jsstring)
| JArray (elements : list json)
| JObject (members : list (jsstring * json)).

(** *** QuoteJSONString *)

Definition is_leading_surrogate (c : N) : bool :=
  ((55296 <=? c) && (c <=? 56319))%N.     (* 0xD800 .. 0xDBFF *)
Definition is_trailing_surrogate (c : N) : bool :=
  ((56320 <=? c) && (c <=? 57343))%N.     (* 0xDC00 .. 0xDFFF *)

(** A hexadecimal digit, in lower case. *)
Definition hex_digit (d : N) : N :=
  (if d <? 10 then 48 + d else 87 + d)%N.

(** UnicodeEscape: [\uXXXX]. *)
Definition unicode_escape (c : N) : jsstring :=
  [92; 117; hex_digit (c / 4096 mod 16); hex_digit (c / 256 mod 16);
   hex_digit (c / 16 mod 16); hex_digit (c mod 16)]%N.

(** One code point that is one code unit: the short escapes of the
    table, [\uXXXX] for the other control characters and for a surrogate
    that stands alone, the code unit itself otherwise. *)
Definition quote_unit (c : N) : jsstring :=
  (if c =? 8 then [92; 98]                    (* \b *)
   else if c =? 9 then [92; 116]              (* \t *)
   else if c =? 10 then [92; 110]             (* \n *)
   else if c =? 12 then [92; 102]             (* \f *)
   else if c =? 13 then [92; 114]             (* \r *)
   else if c =? 34 then [92; 34]              (* \ and the quotation mark *)
   else if c =? 92 then [92; 92]              (* \\ *)
   else if (c <? 32) || is_leading_surrogate c || is_trailing_surrogate c
        then unicode_escape c
   else [c])%N.

(** The code points of the string, in turn: a leading surrogate followed
    by a trailing one is one code point, written as it is. *)
Fixpoint quote_body (s : jsstring) : jsstring :=
  match s with
  | [] => []
  | c :: r =>
      match r with
      | d :: r' =>
          if is_leading_surrogate c && is_trailing_surrogate d
          then c :: d :: quote_body r'
          else quote_unit c ++ quote_body r
      | [] => quote_unit c
      end
  end.

Definition QuoteJSONString (s : jsstring) : jsstring :=
  [34%N] ++ quote_body s ++ [34%N].

(** *** JSON.stringify *)

Fixpoint join_comma (l : list jsstring) : jsstring :=
  match l with
  | [] => []
  | [x] => x
  | x :: r => x ++ [44%N] ++ join_comma r
  end.

Fixpoint JSON_stringify (v : json) : jsstring :=
  match v with
  | JNull => js "null"
  | JBool true => js "true"
  | JBool false => js "false"
  | JNumber lexeme => lexeme
  | JString s => QuoteJSONString s
  | JArray elements =>
      [91%N] ++ join_comma (JSON_stringify <$> elements) ++ [93%N]
  | JObject members =>
      [123%N]
      ++ join_comma
           ((fun m : jsstring * json =>
               QuoteJSONString m.1 ++ [58%N] ++ JSON_stringify m.2)
            <$> members)
      ++ [125%N]
  end.

(** *** JSON.parse *)

Definition is_ws (c : N) : bool :=
  ((c =? 32) || (c =? 9) || (c =? 10) || (c =? 13))%N.

Fixpoint skip_ws (s : jsstring) : jsstring :=
  match s with
  | c :: r => if is_ws c then skip_ws r else s
  | [] => []
  end.

Definition hex_value (c : N) : option N :=
  (if (48 <=? c) && (c <=? 57) then Some (c - 48)
   else if (97 <=? c) && (c <=? 102) then Some (c - 87)
   else if (65 <=? c) && (c <=? 70) then Some (c - 55)
   else None)%N.

Definition hex4 (a b c d : N) : option N :=
  match hex_value a, hex_value b, hex_value c, hex_value d with
  | Some a, Some b, Some c, Some d => Some (a * 4096 + b * 256 + c * 16 + d)%N
  | _, _, _, _ => None
  end.

(** The character a short escape stands for. *)
Definition unescape (e : N) : option N :=
  (if e =? 34 then Some 34            (* \ and a quotation mark *)
   else if e =? 92 then Some 92       (* \\ *)
   else if e =? 47 then Some 47       (* \/ *)
   else if e =? 98 then Some 8        (* \b *)
   else if e =? 102 then Some 12      (* \f *)
   else if e =? 110 then Some 10      (* \n *)
   else if e =? 114 then Some 13      (* \r *)
   else if e =? 116 then Some 9       (* \t *)
   else None)%N.

(** A string, after its opening quote: the string and what follows its
    closing quote. *)
Fixpoint parse_string_body (s : jsstring) : option (jsstring * jsstring) :=
  match s with
  | [] => None
  | c :: r =>
      if (c =? 34)%N then Some ([], r)
      else if (c =? 92)%N then
        match r with
        | [] => None
        | e :: r1 =>
            if (e =? 117)%N then
              match r1 with
              | h1 :: h2 :: h3 :: h4 :: r2 =>
                  match hex4 h1 h2 h3 h4, parse_string_body r2 with
                  | Some u, Some (str, rest) => Some (u :: str, rest)
                  | _, _ => None
                  end
              | _ => None
              end
            else
              match unescape e, parse_string_body r1 with
              | Some u, Some (str, rest) => Some (u :: str, rest)
              | _, _ => None
              end
        end
      else if (c <? 32)%N then None
      else
        match parse_string_body r with
        | Some (str, rest) => Some (c :: str, rest)
        | None => None
        end
  end.

Definition is_digit (c : N) : bool := ((48 <=? c) && (c <=? 57))%N.

Fixpoint take_digits (s : jsstring) : jsstring * jsstring :=
  match s with
  | c :: r => if is_digit c
              then let '(ds, rest) := take_digits r in (c :: ds, rest)
              else ([], s)
  | [] => ([], [])
  end.

(** A number: its lexeme and what follows it. *)
Definition parse_number (s : jsstring) : option (jsstring * jsstring) :=
  let '(sign, s) := match s with
                    | c :: r => if (c =? 45)%N then ([c], r) else ([], s)
                    | [] => ([], s)
                    end in
  match s with
  | [] => None
  | c :: r =>
      if is_digit c then
        let '(int, s) := if (c =? 48)%N then ([c], r)
                         else let '(ds, rest) := take_digits r in
                              (c :: ds, rest) in
        let frac :=
          match s with
          | p :: r =>
              if (p =? 46)%N then
                match take_digits r with
                | ([], _) => None
                | (ds, rest) => Some (p :: ds, rest)
                end
              else Some ([], s)
          | [] => Some ([], s)
          end in
        match frac with
        | None => None
        | Some (frac, s) =>
            let exp :=
              match s with
              | e :: r =>
                  if (e =? 101)%N || (e =? 69)%N then
                    let '(sg, r) :=
                      match r with
                      | g :: r' => if (g =? 43)%N || (g =? 45)%N
                                   then ([g], r') else ([], r)
                      | [] => ([], r)
                      end in
                    match take_digits r with
                    | ([], _) => None
                    | (ds, rest) => Some (e :: sg ++ ds, rest)
                    end
                  else Some ([], s)
              | [] => Some ([], s)
              end in
            match exp with
            | None => None
            | Some (exp, rest) => Some (sign ++ int ++ frac ++ exp, rest)
            end
        end
      else None
  end.

(** A literal name. *)
Fixpoint expect (name s : jsstring) : option jsstring :=
  match name, s with
  | [], _ => Some s
  | n :: name, c :: r => if (n =? c)%N then expect name r else None
  | _ :: _, [] => None
  end.

(** A value, the elements of an array after its first bracket, the
    members of an object after its first brace; each with what follows.
    [fuel] bounds the number of values read. *)
Fixpoint parse_value (fuel : nat) (s : jsstring) : option (json * jsstring) :=
  match fuel with
  | O => None
  | S fuel =>
      match skip_ws s with
      | [] => None
      | c :: r =>
          if (c =? 34)%N then
            match parse_string_body r with
            | Some (str, rest) => Some (JString str, rest)
            | None => None
            end
          else if (c =? 91)%N then
            match skip_ws r with
            | c' :: r' =>
                if (c' =? 93)%N then Some (JArray [], r')
                else match parse_elements fuel r with
                     | Some (vs, rest) => Some (JArray vs, rest)
                     | None => None
                     end
            | [] => None
            end
          else if (c =? 123)%N then
            match skip_ws r with
            | c' :: r' =>
                if (c' =? 125)%N then Some (JObject [], r')
                else match parse_members fuel r with
                     | Some (ms, rest) => Some (JObject ms, rest)
                     | None => None
                     end
            | [] => None
            end
          else if (c =? 116)%N then
            match expect (js "true") (c :: r) with
            | Some rest => Some (JBool true, rest)
            | None => None
            end
          else if (c =? 102)%N then
            match expect (js "false") (c :: r) with
            | Some rest => Some (JBool false, rest)
            | None => None
            end
          else if (c =? 110)%N then
            match expect (js "null") (c :: r) with
            | Some rest => Some (JNull, rest)
            | None => None
            end
          else
            match parse_number (c :: r) with
            | Some (lexeme, rest) => Some (JNumber lexeme, rest)
            | None => None
            end
      end
  end
with parse_elements (fuel : nat) (s : jsstring)
  : option (list json * jsstring) :=
  match fuel with
  | O => None
  | S fuel =>
      match parse_value fuel s with
      | Some (v, r) =>
          match skip_ws r with
          | c :: r' =>
              if (c =? 44)%N then
                match parse_elements fuel r' with
                | Some (vs, rest) => Some (v :: vs, rest)
                | None => None
                end
              else if (c =? 93)%N then Some ([v], r')
              else None
          | [] => None
          end
      | None => None
      end
  end
with parse_members (fuel : nat) (s : jsstring)
  : option (list (jsstring * json) * jsstring) :=
  match fuel with
  | O => None
  | S fuel =>
      match skip_ws s with
      | c :: r =>
          if (c =? 34)%N then
            match parse_string_body r with
            | Some (k, r1) =>
                match skip_ws r1 with
                | c1 :: r2 =>
                    if (c1 =? 58)%N then
                      match parse_value fuel r2 with
                      | Some (v, r3) =>
                          match skip_ws r3 with
                          | c3 :: r4 =>
                              if (c3 =? 44)%N then
                                match parse_members fuel r4 with
                                | Some (ms, rest) => Some ((k, v) :: ms, rest)
                                | None => None
                                end
                              else if (c3 =? 125)%N then Some ([(k, v)], r4)
                              else None
                          | [] => None
                          end
                      | None => None
                      end
                    else None
                | [] => None
                end
            | None => None
            end
          else None
      | [] => None
      end
  end.

(** [JSON.parse(text)]: the value, or [None] when it throws. *)
Definition JSON_parse (text : jsstring) : option json :=
  match parse_value (S (length text)) text with
  | Some (v, rest) =>
      match skip_ws rest with
      | [] => Some v
      | _ :: _ => None
      end
  | None => None
  end.

(** *** A board as a JSON value *)

(** The properties in the order the code writes them; [description] is
    a property only when it is defined. *)
Definition json_of_Comment (c : Comment) : json :=
  JObject [ (js "id", JString (comment_id c));
            (js "text", JString (comment_text c));
            (js "createdAt", JString (comment_createdAt c)) ].

Definition json_of_Card (c : Card) : json :=
  JObject ([ (js "id", JString (card_id c));
             (js "title", JString (card_title c)) ]
           ++ match card_description c with
              | Some d => [ (js "description", JString d) ]
              | None => []
              end
           ++ [ (js "comments", JArray (json_of_Comment <$> card_comments c));
                (js "createdAt", JString (card_createdAt c)) ]).

Definition json_of_List (l : List) : json :=
  JObject [ (js "id", JString (list_id l));
            (js "title", JString (list_title l));
            (js "cards", JArray (json_of_Card <$> list_cards l)) ].

Definition json_of_Board (b : Board) : json :=
  JObject [ (js "id", JString (board_id b));
            (js "title", JString (board_title b));
            (js "lists", JArray (json_of_List <$> board_lists b));
            (js "createdAt", JString (board_createdAt b));
            (js "updatedAt", JString (board_updatedAt b)) ].

(** Values without numbers. *)
Fixpoint number_free (v : json) : bool :=
  match v with
  | JNumber _ => false
  | JArray elements => forallb number_free elements
  | JObject members => forallb (fun m => number_free m.2) members
  | _ => true
  end.

(** Number of values in a value. *)
Fixpoint json_size (v : json) : nat :=
  match v with
  | JArray elements => S (sum_list_with (fun e => S (json_size e)) elements)
  | JObject members =>
      S (sum_list_with (fun m => S (json_size m.2)) members)
  | _ => 1
  end.

(* ===================================================================== *)
(** ** utils/helpers.ts: strings *)
(* ===================================================================== *)

(** White space and line terminators of the language, which
    [String.prototype.trim] removes. *)
Definition is_white_space (c : N) : bool :=
  ((c =? 9) || (c =? 10) || (c =? 11) || (c =? 12) || (c =? 13)
   || (c =? 32) || (c =? 160) || (c =? 5760)
   || ((8192 <=? c) && (c <=? 8202))
   || (c =? 8232) || (c =? 8233) || (c =? 8239) || (c =? 8287)
   || (c =? 12288) || (c =? 65279))%N.

Fixpoint trimStart (s : jsstring) : jsstring :=
  match s with
  | c :: r => if is_white_space c then trimStart r else s
  | [] => []
  end.

Definition trimEnd (s : jsstring) : jsstring :=
  reverse (trimStart (reverse s)).

(** [s.trim()] *)
Definition trim (s : jsstring) : jsstring := trimEnd (trimStart s).

(** [s.slice(start, end)] *)
Definition String_slice (s : jsstring) (start end_ : Z) : jsstring :=
  let from := actualStart (length s) start in
  let to := actualStart (length s) end_ in
  take (to - from) (drop from s).

(** [!value]: the empty string is the one string that is falsy. *)
Definition is_empty (value : jsstring) : bool :=
  match value with
  | [] => true
  | _ :: _ => false
  end.

Definition truncateText (text : jsstring) (maxLength : Z) : jsstring :=
  if Z.of_nat (length text) <=? maxLength then text
  else String_slice text 0 maxLength ++ js "...".

Definition isEmptyString (value : jsstring) : bool :=
  is_empty value || (length (trim value) =? 0)%nat.

(** [JSON.parse(JSON.stringify(obj))]; [None] when it throws. *)
Definition deepClone (obj : json) : option json :=
  JSON_parse (JSON_stringify obj).

(** [arr.findIndex(p)]: the first index whose element satisfies [p],
    [-1] when there is none. *)
Fixpoint findIndex {T} (p : T -> bool) (arr : list T) : Z :=
  match arr with
  | [] => -1
  | x :: r => if p x then 0
              else let i := findIndex p r in
                   if i =? -1 then -1 else i + 1
  end.

(* ===================================================================== *)
(** ** components: AddForm, EditableTitle, CardModal, Board *)
(* ===================================================================== *)

(** The part of a keyboard event the handlers look at. *)
Record KeyboardEvent := mkKeyboardEvent {
  key : jsstring;
  shiftKey : bool;
}.

(** What a handler does besides setting its component's state: the calls
    it makes, in order. *)
Inductive call :=
| PreventDefault
| OnAdd (value : jsstring)
| OnCancel
| OnSave (value : jsstring)
| OnUpdateTitle (cardId title : jsstring)
| OnAddComment (cardId text : jsstring).

(** A handler of a component whose state is an [S]: the state after it,
    and its calls. *)
Abbreviation handler S := (S * list call)%type.

Definition prevent_default {S} (h : handler S) : handler S :=
  (h.1, PreventDefault :: h.2).

Module AddForm.

(** The state is [value], the text of the input; [onCancel] tells
    whether the optional property is given. *)
Definition handleSubmit (value : jsstring) : handler jsstring :=
  let trimmedValue := trim value in
  if negb (isEmptyString trimmedValue)
  then ([], [OnAdd trimmedValue])
  else (value, []).

Definition handleCancel (onCancel : bool) (value : jsstring)
  : handler jsstring :=
  ([], if onCancel then [OnCancel] else []).

Definition handleKeyDown (onCancel : bool) (e : KeyboardEvent)
    (value : jsstring) : handler jsstring :=
  if str_eqb (key e) (js "Enter") && negb (shiftKey e)
  then prevent_default (handleSubmit value)
  else if str_eqb (key e) (js "Escape")
  then prevent_default (handleCancel onCancel value)
  else (value, []).

Definition handleChange (target_value : jsstring) (value : jsstring)
  : handler jsstring :=
  (target_value, []).

(** The [disabled] attribute of the button that submits. *)
Definition disabled (value : jsstring) : bool :=
  isEmptyString (trim value).

End AddForm.

Module EditableTitle.

Record state := mkState {
  isEditing : bool;
  editValue : jsstring;
}.

(** [value] is the property: the title as the parent has it. *)
Definition handleStartEdit (value : jsstring) (st : state) : handler state :=
  (mkState true value, []).

Definition handleSave (value : jsstring) (st : state) : handler state :=
  let trimmedValue := trim (editValue st) in
  if negb (isEmptyString trimmedValue) && negb (str_eqb trimmedValue value)
  then (mkState false (editValue st), [OnSave trimmedValue])
  else (mkState false value, []).

Definition handleCancel (value : jsstring) (st : state) : handler state :=
  (mkState false value, []).

Definition handleKeyDown (value : jsstring) (e : KeyboardEvent) (st : state)
  : handler state :=
  if str_eqb (key e) (js "Enter")
  then prevent_default (handleSave value st)
  else if str_eqb (key e) (js "Escape")
  then prevent_default (handleCancel value st)
  else (st, []).

Definition handleChange (target_value : jsstring) (st : state)
  : handler state :=
  (mkState (isEditing st) target_value, []).

Definition handleBlur (value : jsstring) (st : state) : handler state :=
  handleSave value st.

End EditableTitle.

Module CardModal.

(** The state is [newComment]; [card] is the property. *)
Definition handleTitleSave (card : Card) (newTitle : jsstring)
    (newComment : jsstring) : handler jsstring :=
  (newComment, [OnUpdateTitle (card_id card) newTitle]).

Definition handleAddComment (card : Card) (newComment : jsstring)
  : handler jsstring :=
  if negb (isEmptyString (trim newComment))
  then ([], [OnAddComment (card_id card) (trim newComment)])
  else (newComment, []).

Definition handleCommentKeyDown (card : Card) (e : KeyboardEvent)
    (newComment : jsstring) : handler jsstring :=
  if str_eqb (key e) (js "Enter") && negb (shiftKey e)
  then prevent_default (handleAddComment card newComment)
  else (newComment, []).

(** The [disabled] attribute of the button that adds the comment. *)
Definition disabled (newComment : jsstring) : bool :=
  isEmptyString (trim newComment).

End CardModal.

Module BoardView.

(** [data.current] of a draggable: what List.tsx and Card.tsx give to
    [useSortable]. *)
Inductive drag_data :=
| ListData (list : List)
| CardData (card : Card) (listId : jsstring).

(** [active] and [over] of a drag event; [data] is [data.current], which
    can be undefined. *)
Record drag_item := mkItem {
  id : jsstring;
  data : option drag_data;
}.

Record drag_event := mkDragEvent {
  active : drag_item;
  over : option drag_item;
}.

(** [overData?.listId || overData?.list?.id]: the empty string is falsy,
    and a card's data has no [list]. *)
Definition overListId_of (overData : option drag_data) : option jsstring :=
  match overData with
  | Some (CardData _ listId) => if is_empty listId then None else Some listId
  | Some (ListData list) => Some (list_id list)
  | None => None
  end.

(** The store operation [handleDragOver] calls, if any. *)
Definition handleDragOver (board : Board) (event : drag_event) : option Op :=
  match over event with
  | None => None
  | Some over =>
      let overData := data over in
      match data (active event) with
      | Some (CardData _ activeListId) =>
          let overListId := overListId_of overData in
          let overListId :=
            match overData with
            | Some (ListData list) => Some (list_id list)
            | _ => overListId
            end in
          match overListId with
          | None => None
          | Some overListId =>
              if is_empty overListId || str_eqb activeListId overListId
              then None
              else
                match find_list (board_lists board) activeListId,
                      find_list (board_lists board) overListId with
                | Some sourceList, Some destList =>
                    let activeIndex :=
                      findIndex (fun c => str_eqb (card_id c) (id (active event)))
                                (list_cards sourceList) in
                    if activeIndex =? -1 then None
                    else
                      let destIndex := Z.of_nat (length (list_cards destList)) in
                      let destIndex :=
                        match overData with
                        | Some (CardData _ _) =>
                            let overIndex :=
                              findIndex (fun c => str_eqb (card_id c) (id over))
                                        (list_cards destList) in
                            if negb (overIndex =? -1) then overIndex
                            else destIndex
                        | _ => destIndex
                        end in
                      Some (MoveCard activeListId overListId
                                     activeIndex destIndex)
                | _, _ => None
                end
          end
      | _ => None
      end
  end.

(** The store operation [handleDragEnd] calls, if any. *)
Definition handleDragEnd (board : Board) (event : drag_event) : option Op :=
  match over event with
  | None => None
  | Some over =>
      match data (active event), data over with
      | Some (ListData _), Some (ListData _) =>
          if negb (str_eqb (id (active event)) (id over))
          then
            let oldIndex :=
              findIndex (fun l : List => str_eqb (list_id l) (id (active event)))
                        (board_lists board) in
            let newIndex :=
              findIndex (fun l : List => str_eqb (list_id l) (id over))
                        (board_lists board) in
            if negb (oldIndex =? -1) && negb (newIndex =? -1)
            then Some (ReorderLists oldIndex newIndex)
            else None
          else None
      | Some (CardData _ activeListId), overData =>
          if bool_decide (Some activeListId = overListId_of overData)
          then
            match find_list (board_lists board) activeListId with
            | Some list =>
                let oldIndex :=
                  findIndex (fun c => str_eqb (card_id c) (id (active event)))
                            (list_cards list) in
                let newIndex :=
                  findIndex (fun c => str_eqb (card_id c) (id over))
                            (list_cards list) in
                if negb (oldIndex =? -1) && negb (newIndex =? -1)
                   && negb (oldIndex =? newIndex)
                then Some (ReorderCards activeListId oldIndex newIndex)
                else None
            | None => None
            end
          else None
      | _, _ => None
      end
  end.

(** [modalCard] is the state [{ card, listId } | null]. *)
Definition handleAddList (title uuid : jsstring) : Op :=
  AddList title uuid.

Definition handleUpdateCardTitle (modalCard : option (Card * jsstring))
    (cardId title : jsstring) : option Op :=
  match modalCard with
  | Some (_, listId) => Some (UpdateCardTitle listId cardId title)
  | None => None
  end.

Definition handleAddComment (modalCard : option (Card * jsstring))
    (cardId text uuid created : jsstring) : option Op :=
  match modalCard with
  | Some (_, listId) => Some (AddComment listId cardId text uuid created)
  | None => None
  end.

(** The card the modal shows: looked up in the board of this render. *)
Definition currentModalCard (board : Board)
    (modalCard : option (Card * jsstring)) : option Card :=
  match modalCard with
  | None => None
  | Some (card, listId) =>
      match find_list (board_lists board) listId with
      | Some list =>
          List.find (fun c => str_eqb (card_id c) (card_id card))
                    (list_cards list)
      | None => None
      end
  end.

End BoardView.

(* ===================================================================== *)
(** ** services/storage: createStorageService, boardStorage *)
(* ===================================================================== *)

(** The service calls [localStorage] as the hook does; it is embedded in
    the monad of the hook, whose instance it leaves alone.  Its data are
    JSON values: it serializes with [JSON.stringify] and reads with
    [JSON.parse], and [null] is [JNull]. *)
Module StorageService.
Section createStorageService.
Context {T : Type}.

Notation "x <- m ; k" := (bind (T:=T) m (fun x => k))
  (at level 20, m at level 100, k at level 200, only parsing,
   right associativity).
Notation "m ;; k" := (bind (T:=T) m (fun _ => k))
  (at level 100, k at level 200, only parsing, right associativity).

(** [typeof window !== "undefined"] *)
Variable isBrowser : bool.
Variable key : jsstring.

Definition call_JSON_parse (text : jsstring) : M (T:=T) json :=
  match JSON_parse text with
  | Some v => ret v
  | None => fun st => (Throw, st)
  end.

Definition get : M (T:=T) json :=
  if negb isBrowser then ret JNull
  else
    try_catch
      (data <- localStorage_getItem key ;
       match truthy data with
       | Some data => call_JSON_parse data
       | None => ret JNull
       end)
      (console_error ;; ret JNull).

Definition set (data : json) : M (T:=T) unit :=
  if negb isBrowser then ret tt
  else
    try_catch (localStorage_setItem key (JSON_stringify data))
              console_error.

Definition clear : M (T:=T) unit :=
  if negb isBrowser then ret tt
  else try_catch (localStorage_removeItem key) console_error.

(** [stored || ...]: the values that are falsy.  The number a lexeme
    denotes is not modelled: [is_zero] tells whether it is zero. *)
Variable is_zero : jsstring -> bool.

Definition falsy (v : json) : bool :=
  match v with
  | JNull => true
  | JBool b => negb b
  | JNumber lexeme => is_zero lexeme
  | JString s => is_empty s
  | JArray _ | JObject _ => false
  end.

(** [boardStorage], for the default board [DEFAULT_BOARD]. *)
Variable DEFAULT_BOARD : json.

Definition getOrDefault : M (T:=T) json :=
  stored <- get ;
  ret (if falsy stored then DEFAULT_BOARD else stored).

Definition reset : M (T:=T) json :=
  let defaultBoard := DEFAULT_BOARD in
  set defaultBoard ;;
  ret defaultBoard.

End createStorageService.
End StorageService.

(* ===================================================================== *)
(** ** Notions the properties are stated with *)
(* ===================================================================== *)

(** The element at [i] taken out, the others in their order. *)
Definition remove_at {T} (i : nat) (l : list T) : list T :=
  take i l ++ drop (S i) l.

(** [x] put in at position [j], the others in their order. *)
Definition insert_at {T} (j : nat) (x : T) (l : list T) : list T :=
  take j l ++ x :: drop j l.

(** *** Traces of a hook instance *)

Definition is_read (e : io) : bool :=
  match e with GetItem _ => true | _ => false end.

Definition is_write (e : io) : bool :=
  match e with SetItem _ _ => true | _ => false end.

(** How many times the trace reads the storage. *)
Definition reads (l : list io) : nat :=
  sum_list_with (fun e => if is_read e then 1%nat else 0%nat) l.

(** Every write of the trace comes after a read. *)
Definition reads_before_writes (l : list io) : Prop :=
  forall pre e post,
    l = pre ++ e :: post -> is_write e = true ->
    exists r, r ∈ pre /\ is_read r = true.

(** *** States of a hook instance *)

(** No two objects in use share an address. *)
Definition heap_ok {T} (initialValue : ref T) (st : Hook T * World) : Prop :=
  (addr initialValue < next_addr st.2)%nat
  /\ (addr (storedValue st.1) < next_addr st.2)%nat
  /\ (addr (storedValue st.1) = addr initialValue ->
      storedValue st.1 = initialValue).

(** After a callback or an effect of a mounted instance has run, and
    before React renders again: the closures of the last render hold the
    object [r0]. *)
Definition synced_pending {T} (initialValue r0 : ref T)
    (st : Hook T * World) : Prop :=
  isFirstRender st.1 = false /\ isHydrated st.1 = true
  /\ listening st.1 = true
  /\ rendered st.1 = (r0, true)
  /\ (addr (storedValue st.1) = addr r0 -> storedValue st.1 = r0)
  /\ heap_ok initialValue st
  /\ reads (log st.2) = 1%nat /\ reads_before_writes (log st.2).

(** The state the specification calls Synced: the instance is hydrated,
    listens, has rendered its stored value, has read the storage once,
    and has written to it only after that. *)
Definition synced {T} (initialValue : ref T) (st : Hook T * World) : Prop :=
  synced_pending initialValue (storedValue st.1) st.

(** What holds of an instance under any schedule: before its first
    effect has read the storage it is not hydrated, and no closure holds
    a true [isHydrated]; the storage is read at most once, and written
    only after it has been read. *)
Definition read_guarded {T} (st : Hook T * World) : Prop :=
  (isFirstRender st.1 = true ->
   reads (log st.2) = 0%nat /\ isHydrated st.1 = false
   /\ (rendered st.1).2 = false)
  /\ (isFirstRender st.1 = false -> reads (log st.2) = 1%nat)
  /\ reads_before_writes (log st.2).

(** Triples for the monad of the hook: from a state in [P], [m] returns
    [a] in a state in [Q a], or throws in a state in [E]. *)
Definition hoare {T A} (P : Hook T * World -> Prop) (m : @M T A)
    (Q : A -> Hook T * World -> Prop) (E : Hook T * World -> Prop) : Prop :=
  forall st, P st ->
    match m st with
    | (Ok a, st') => Q a st'
    | (Throw, st') => E st'
    end.

(** The identifier [op] draws for a new list is not the id of a list of
    [b]: what [uuidv4] is relied on for. *)
Definition fresh_list_id (op : Op) (b : Board) : Prop :=
  match op with
  | AddList _ uuid => generateId (js "list") uuid ∉ list_id <$> board_lists b
  | _ => True
  end.


(** *** What a trace touches *)

(** The key of the storage an entry of the trace is about. *)
Definition io_key (e : io) : option jsstring :=
  match e with
  | GetItem k | SetItem k _ | RemoveItem k => Some k
  | ConsoleError => None
  end.

(** An instance keeps to its key: the trace is about [key] only, and
    the items under the other keys are those of [items]. *)
Definition keeps_to_key {T : Type} (key : jsstring)
    (items : gmap jsstring jsstring)
    (st : Hook T * World) : Prop :=
  Forall (fun e => io_key e = None \/ io_key e = Some key) (log st.2)
  /\ forall k, k <> key -> localStorage st.2 !! k = items !! k.

(* ===================================================================== *)
(** ** Example data *)
(* ===================================================================== *)

(** A board with the two lists of the specification's scenario. *)
Definition card_of (name : string) : Card :=
  mkCard (js name) (js name) None [] (js "2024-01-01T00:00:00.000Z").

Definition todo_done : Board :=
  mkBoard (js "board-1") (js "Demo Board")
    [ mkList (js "todo") (js "Todo") [card_of "C1"; card_of "C2"];
      mkList (js "done") (js "Done") [] ]
    (js "2024-01-01T00:00:00.000Z") (js "2024-01-01T00:00:00.000Z").

(** The hook as [useBoard] calls it: the key and the default board of
    constants/index.ts, the default serializer and deserializer. *)
Definition board_key : jsstring := js "trello-clone-board".

Definition default_board : Board :=
  DEFAULT_BOARD (js "2024-01-01T00:00:00.000Z") (js "2024-01-01T00:00:00.000Z")
                (js "2024-01-01T00:00:00.000Z") (js "2024-01-01T00:00:00.000Z")
                (js "2024-01-01T00:00:00.000Z").

Definition default_value : ref json := mkRef 0 (json_of_Board default_board).

Definition default_serializer (v : json) : option jsstring :=
  Some (JSON_stringify v).

(** A new instance over a storage that holds [items]. *)
Definition board_instance (items : gmap jsstring jsstring) : Hook json * World :=
  (initial_hook default_value, initial_world default_value items true true).

(** The default board, retitled "X" by another tab. *)
Definition board_X : json :=
  json_of_Board (updateBoardTitle default_board (js "X")
                                  (js "2024-06-01T00:00:00.000Z")).

(* ===================================================================== *)
(** * Properties *)
(* ===================================================================== *)

(** ** [splice] at valid positions *)

Section splice_facts.
Context {T : Type}.
Implicit Types (a l : list T) (x : T) (i j : nat).

Lemma actualStart_valid len i :
  (i <= len)%nat -> actualStart len (Z.of_nat i) = i.
Proof.
  intros Hi. unfold actualStart.
  destruct (Z.ltb_spec (Z.of_nat i) 0); lia.
Qed.

Lemma actualStart_le len s : (actualStart len s <= len)%nat.
Proof. unfold actualStart. destruct (Z.ltb_spec s 0); lia. Qed.

Lemma actualStart_beyond len s :
  Z.of_nat len <= s -> actualStart len s = len.
Proof. intros Hs. unfold actualStart. destruct (Z.ltb_spec s 0); lia. Qed.

(** Deleting one element at a position of the array. *)
Lemma splice_delete a i x :
  a !! i = Some x ->
  splice a (Z.of_nat i) 1 [] = ([x], remove_at i a).
Proof.
  intros Hx. pose proof (lookup_lt_Some _ _ _ Hx) as Hlt.
  unfold splice, remove_at. rewrite actualStart_valid by lia.
  replace (Z.to_nat _) with 1%nat by lia.
  rewrite (drop_S _ _ _ Hx). simpl. rewrite take_0.
  by replace (i + 1)%nat with (S i) by lia.
Qed.

(** Deleting past the end deletes nothing. *)
Lemma splice_delete_beyond a s :
  Z.of_nat (length a) <= s -> splice a s 1 [] = ([], a).
Proof.
  intros Hs. unfold splice. rewrite actualStart_beyond by done.
  replace (Z.to_nat _) with 0%nat by lia.
  rewrite take_0, Nat.add_0_r, drop_all, take_ge by lia.
  simpl. by rewrite app_nil_r.
Qed.

(** Inserting at the position [actualStart] gives. *)
Lemma splice_insert a s x :
  splice a s 0 [x] = ([], insert_at (actualStart (length a) s) x a).
Proof.
  unfold splice, insert_at.
  replace (Z.to_nat _) with 0%nat by (pose proof (actualStart_le (length a) s); lia).
  by rewrite take_0, Nat.add_0_r.
Qed.

Lemma length_remove_at a i :
  (i < length a)%nat -> length (remove_at i a) = Nat.pred (length a).
Proof.
  intros Hi. unfold remove_at.
  rewrite length_app, length_take, length_drop. lia.
Qed.

Lemma length_insert_at a j x : length (insert_at j x a) = S (length a).
Proof.
  unfold insert_at. rewrite length_app. simpl.
  rewrite length_take, length_drop. lia.
Qed.

Lemma remove_at_insert_at a j x :
  (j <= length a)%nat -> remove_at j (insert_at j x a) = a.
Proof.
  intros Hj. unfold remove_at, insert_at.
  assert (Hlen : length (take j a) = j) by (rewrite length_take; lia).
  rewrite take_app_length' by done.
  rewrite drop_app_ge by lia.
  replace (S j - length (take j a))%nat with 1%nat by lia.
  simpl. rewrite drop_0. apply take_drop.
Qed.

Lemma lookup_insert_at a j x :
  (j <= length a)%nat -> insert_at j x a !! j = Some x.
Proof.
  intros Hj. unfold insert_at.
  assert (Hlen : length (take j a) = j) by (rewrite length_take; lia).
  rewrite lookup_app_r by lia.
  by replace (j - length (take j a))%nat with 0%nat by lia.
Qed.

Lemma remove_at_Permutation a i x :
  a !! i = Some x -> a ≡ₚ x :: remove_at i a.
Proof.
  intros Hx. unfold remove_at.
  rewrite <- (take_drop_middle a i x Hx) at 1.
  symmetry. apply Permutation_middle.
Qed.

Lemma insert_at_Permutation a j x : insert_at j x a ≡ₚ x :: a.
Proof.
  unfold insert_at. rewrite <- Permutation_middle.
  by rewrite take_drop.
Qed.

Lemma insert_at_remove_at_same a i x :
  a !! i = Some x -> insert_at i x (remove_at i a) = a.
Proof.
  intros Hx. pose proof (lookup_lt_Some _ _ _ Hx) as Hlt.
  unfold insert_at, remove_at.
  assert (Hlen : length (take i a) = i) by (rewrite length_take; lia).
  rewrite take_app_length' by done.
  rewrite drop_app_length' by done.
  by apply take_drop_middle.
Qed.
End splice_facts.

Lemma fmap_remove_at {A B} (f : A -> B) i (l : list A) :
  f <$> remove_at i l = remove_at i (f <$> l).
Proof. unfold remove_at. by rewrite fmap_app, fmap_take, fmap_drop. Qed.

Lemma fmap_insert_at {A B} (f : A -> B) j x (l : list A) :
  f <$> insert_at j x l = insert_at j (f x) (f <$> l).
Proof. unfold insert_at. by rewrite fmap_app, fmap_cons, fmap_take, fmap_drop. Qed.

(** [reorderArray] at a valid source position: the element there is taken
    out and put in again where [endIndex] points, clamped into the array. *)
Lemma reorderArray_valid_source {T} (l : list T) (i : nat) (x : T) (e : Z) :
  l !! i = Some x ->
  reorderArray l (Z.of_nat i) e =
  Some <$> insert_at (actualStart (Nat.pred (length l)) e) x (remove_at i l).
Proof.
  intros Hx. pose proof (lookup_lt_Some _ _ _ Hx) as Hlt.
  unfold reorderArray.
  rewrite (splice_delete (Some <$> l) i (Some x))
    by (by rewrite list_lookup_fmap, Hx).
  cbv beta iota zeta. cbn [first_of]. rewrite splice_insert.
  rewrite fmap_insert_at, fmap_remove_at.
  by rewrite length_remove_at, length_fmap by (by rewrite length_fmap).
Qed.

Lemma reorderArray_valid {T} (l : list T) (i j : nat) (x : T) :
  l !! i = Some x -> (j < length l)%nat ->
  reorderArray l (Z.of_nat i) (Z.of_nat j) =
  Some <$> insert_at j x (remove_at i l).
Proof.
  intros Hx Hj. rewrite (reorderArray_valid_source l i x) by done.
  by rewrite actualStart_valid by lia.
Qed.

(** ** [splice] and [reorderArray] at any index *)

Lemma remove_at_ge {T} (a : list T) k :
  (length a <= k)%nat -> remove_at k a = a.
Proof.
  intros Hk. unfold remove_at.
  rewrite take_ge, drop_ge by lia. apply app_nil_r.
Qed.

(** Deleting one element, wherever [start] points. *)
Lemma splice_delete_at {T} (a : list T) (s : Z) :
  let k := actualStart (length a) s in
  splice a s 1 [] =
  (match a !! k with Some x => [x] | None => [] end, remove_at k a).
Proof.
  intros k. pose proof (actualStart_le (length a) s) as Hle. fold k in Hle.
  destruct (a !! k) as [x|] eqn:Hx.
  - pose proof (lookup_lt_Some _ _ _ Hx) as Hlt.
    unfold splice. fold k.
    replace (Z.to_nat _) with 1%nat by lia.
    rewrite (drop_S _ _ _ Hx). simpl. rewrite take_0.
    unfold remove_at. by replace (k + 1)%nat with (S k) by lia.
  - apply lookup_ge_None in Hx.
    unfold splice. fold k.
    replace (Z.to_nat _) with 0%nat by lia.
    rewrite take_0, Nat.add_0_r. simpl.
    by rewrite remove_at_ge, take_ge, drop_ge, app_nil_r by lia.
Qed.

(** [reorderArray] at any two indices: the element where [startIndex]
    points, if there is one, is taken out and put in again where
    [endIndex] points; if there is none, nothing is taken out and
    [undefined] is put in. *)
Lemma reorderArray_at {T} (l : list T) (s e : Z) :
  let k := actualStart (length l) s in
  reorderArray l s e =
  match l !! k with
  | Some x =>
      Some <$> insert_at (actualStart (Nat.pred (length l)) e) x (remove_at k l)
  | None => insert_at (actualStart (length l) e) None (Some <$> l)
  end.
Proof.
  intros k. unfold reorderArray.
  rewrite splice_delete_at, length_fmap. fold k.
  rewrite list_lookup_fmap.
  destruct (l !! k) as [x|] eqn:Hx; cbn [fmap option_fmap option_map first_of].
  - pose proof (lookup_lt_Some _ _ _ Hx) as Hlt.
    rewrite splice_insert, <- fmap_remove_at, length_fmap.
    by rewrite length_remove_at, fmap_insert_at by done.
  - apply lookup_ge_None in Hx.
    rewrite splice_insert, remove_at_ge by (by rewrite length_fmap).
    by rewrite length_fmap.
Qed.

(** A source index at or past the end: the array grows by a slot that
    holds [undefined]. *)
Remark reorderArray_source_beyond {T} (l : list T) (s e : Z) :
  Z.of_nat (length l) <= s ->
  reorderArray l s e = insert_at (actualStart (length l) e) None (Some <$> l).
Proof.
  intros Hs. rewrite reorderArray_at.
  rewrite actualStart_beyond by done.
  by rewrite (proj2 (lookup_ge_None l (length l))) by lia.
Qed.

(** When every slot of the result holds a value, the result is a
    permutation of the array. *)
Lemma reorderArray_typed_Permutation {T} (l l' : list T) (s e : Z) :
  reorderArray l s e = Some <$> l' -> l' ≡ₚ l.
Proof.
  rewrite reorderArray_at.
  destruct (l !! actualStart (length l) s) as [x|] eqn:Hx.
  - intros H. apply (inj (fmap Some)) in H. subst l'.
    rewrite insert_at_Permutation. symmetry. by apply remove_at_Permutation.
  - intros H. exfalso.
    assert (Hin : None ∈ insert_at (actualStart (length l) e) None
                           (Some <$> l)).
    { unfold insert_at. apply elem_of_app. right. left. }
    rewrite H in Hin. apply list_elem_of_fmap in Hin as (y & Hy & _).
    discriminate.
Qed.

(** The result inhabits [T[]] exactly when [startIndex] points at an
    element. *)
Lemma typed_reorderArray {T} (l : list T) (s e : Z) :
  typed (reorderArray l s e) =
  match l !! actualStart (length l) s with
  | Some x =>
      Some (insert_at (actualStart (Nat.pred (length l)) e) x
                      (remove_at (actualStart (length l) s) l))
  | None => None
  end.
Proof.
  rewrite reorderArray_at. unfold typed.
  destruct (l !! actualStart (length l) s) as [x|].
  - by apply mapM_fmap_Some.
  - apply mapM_None. unfold insert_at. apply Exists_app. right.
    by apply Exists_cons_hd.
Qed.

(** [moveItemBetweenArrays] from a valid source position. *)
Lemma moveItemBetweenArrays_valid {T} (source destination : list T)
    (i : nat) (x : T) (e : Z) :
  source !! i = Some x ->
  moveItemBetweenArrays source destination (Z.of_nat i) e =
  (Some <$> remove_at i source,
   Some <$> insert_at (actualStart (length destination) e) x destination).
Proof.
  intros Hx. unfold moveItemBetweenArrays.
  rewrite (splice_delete (Some <$> source) i (Some x))
    by (by rewrite list_lookup_fmap, Hx).
  cbv beta iota zeta. cbn [first_of]. rewrite splice_insert.
  by rewrite fmap_remove_at, fmap_insert_at, length_fmap.
Qed.

(** ** Lists that are, or are not, found by id *)

Lemma str_eqb_true a b : str_eqb a b = true <-> a = b.
Proof. unfold str_eqb. by rewrite bool_decide_eq_true. Qed.

Lemma str_eqb_false a b : str_eqb a b = false <-> a <> b.
Proof. unfold str_eqb. by rewrite bool_decide_eq_false. Qed.

Lemma str_eqb_refl a : str_eqb a a = true.
Proof. by apply str_eqb_true. Qed.

Lemma find_list_None ls listId :
  find_list ls listId = None <-> Forall (fun l => list_id l <> listId) ls.
Proof.
  unfold find_list. induction ls as [|l ls IH]; simpl.
  - split; [constructor | done].
  - destruct (str_eqb (list_id l) listId) eqn:E.
    + apply str_eqb_true in E. split; [done|].
      intros H. by inversion H.
    + apply str_eqb_false in E. rewrite IH. split.
      * by constructor.
      * intros H. by inversion H.
Qed.

Lemma find_list_Some ls listId l :
  find_list ls listId = Some l -> l ∈ ls /\ list_id l = listId.
Proof.
  unfold find_list. induction ls as [|l' ls IH]; simpl; [done|].
  destruct (str_eqb (list_id l') listId) eqn:E.
  - intros [= ->]. apply str_eqb_true in E. split; [left | done].
  - intros H. destruct (IH H). split; [by right | done].
Qed.

(** Mapping over lists none of which has the id. *)
Lemma fmap_absent {B} (g h : List -> B) ls listId :
  find_list ls listId = None ->
  (fun l => if str_eqb (list_id l) listId then g l else h l) <$> ls = h <$> ls.
Proof.
  rewrite find_list_None. intros Hall.
  apply list_fmap_ext. intros k l Hk.
  rewrite Forall_lookup in Hall. specialize (Hall k l Hk).
  apply str_eqb_false in Hall. by rewrite Hall.
Qed.

Lemma filter_absent ls listId :
  find_list ls listId = None ->
  filter (fun l : List => list_id l <> listId) ls = ls.
Proof.
  rewrite find_list_None. induction 1 as [|l ls Hl Hls IH]; [done|].
  rewrite filter_cons_True by done. by rewrite IH.
Qed.

(** Under unique ids, mapping over the lists changes one position. *)
Lemma fmap_unique_id {B} (g h : List -> B) ls k l :
  NoDup (list_id <$> ls) -> ls !! k = Some l ->
  (fun l' => if str_eqb (list_id l') (list_id l) then g l' else h l') <$> ls
  = <[k := g l]> (h <$> ls).
Proof.
  intros Hnd Hk. apply list_eq. intros n.
  rewrite list_lookup_fmap.
  destruct (decide (n = k)) as [->|Hne].
  - rewrite list_lookup_insert_eq
      by (rewrite length_fmap; by eapply lookup_lt_Some).
    rewrite Hk. simpl. by rewrite str_eqb_refl.
  - rewrite list_lookup_insert_ne by done. rewrite list_lookup_fmap.
    destruct (ls !! n) as [l'|] eqn:Hn; simpl; [|done].
    destruct (str_eqb (list_id l') (list_id l)) eqn:E; [|done].
    apply str_eqb_true in E. exfalso. apply Hne.
    eapply (NoDup_lookup _ n k (list_id l) Hnd).
    + by rewrite list_lookup_fmap, Hn, <- E.
    + by rewrite list_lookup_fmap, Hk.
Qed.

Lemma unique_id_inj (ls : list List) n k l' l :
  NoDup (list_id <$> ls) -> ls !! n = Some l' -> ls !! k = Some l ->
  list_id l' = list_id l -> l' = l.
Proof.
  intros Hnd Hn Hk E.
  assert (n = k) as ->; [|congruence].
  eapply (NoDup_lookup _ n k (list_id l) Hnd);
    rewrite list_lookup_fmap; [by rewrite Hn, <- E | by rewrite Hk].
Qed.

Lemma find_list_unique ls k l :
  NoDup (list_id <$> ls) -> ls !! k = Some l ->
  find_list ls (list_id l) = Some l.
Proof.
  intros Hnd Hk.
  destruct (find_list ls (list_id l)) as [l'|] eqn:E.
  - apply find_list_Some in E as [Hin Hid].
    apply list_elem_of_lookup in Hin as [n Hn].
    assert (n = k) as ->.
    { eapply (NoDup_lookup _ n k (list_id l) Hnd);
        rewrite list_lookup_fmap; [by rewrite Hn, <- Hid | by rewrite Hk]. }
    congruence.
  - rewrite find_list_None, Forall_lookup in E. by destruct (E k l Hk).
Qed.

Lemma sum_list_with_insert {A} (f : A -> nat) (l : list A) k x y :
  l !! k = Some x ->
  (sum_list_with f (<[k := y]> l) + f x = sum_list_with f l + f y)%nat.
Proof.
  revert k. induction l as [|a l IH]; intros [|k] Hk; simplify_eq/=.
  - lia.
  - specialize (IH k Hk). lia.
Qed.

Lemma ts_leb_refl a : ts_leb a a = true.
Proof.
  induction a as [|x a IH]; [done|]. simpl.
  by rewrite N.ltb_irrefl, N.eqb_refl.
Qed.

(* ===================================================================== *)
(** ** Operations that name a list the board does not have *)
(* ===================================================================== *)

Lemma raw_with_updatedAt (b : Board) t :
  raw (with_updatedAt b t) = with_updatedAt (raw b) t.
Proof. done. Qed.

Lemma raw_lists_eq (b : Board) ls t :
  ls = board_lists b ->
  raw (mkBoard (board_id b) (board_title b) ls (board_createdAt b) t)
  = with_updatedAt (raw b) t.
Proof. by intros ->. Qed.

(** C1, as the specification states it, fails: [addCard] on a list id the
    board does not have returns a board whose [updatedAt] is the time of
    the call, not the input's. *)
Lemma C1_addCard_missing_bumps_updatedAt :
  find_list (board_lists todo_done) (js "missing-id") = None /\
  addCard todo_done (js "missing-id") (js "title") (js "u")
          (js "2024-06-01T00:00:00.000Z") (js "2024-06-01T00:00:00.000Z")
  <> todo_done.
Proof. split; [reflexivity | discriminate]. Qed.

(** C1 (amended): an operation that names a list id absent from the board
    returns a board whose id, title, lists and createdAt are those of the
    input; its updatedAt is the time of the call, except for [moveCard],
    which returns the input board itself. *)
Theorem C1_absent_list_only_bumps_updatedAt
    (b : Board) (op : Op) (now : jsstring) :
  names_absent_list b op ->
  run op now b =
  with_updatedAt (raw b)
    (match op with MoveCard _ _ _ _ => board_updatedAt b | _ => now end).
Proof.
  unfold names_absent_list.
  destruct op; simpl; intros H;
    repeat match goal with
           | H : Exists _ [] |- _ => by inversion H
           | H : Exists _ (_ :: _) |- _ =>
               apply Exists_cons in H as [H|H]
           end.
  - apply raw_lists_eq. rewrite (fmap_absent _ id) by done. apply list_fmap_id.
  - apply raw_lists_eq. by apply filter_absent.
  - apply raw_lists_eq. rewrite (fmap_absent _ id) by done. apply list_fmap_id.
  - apply raw_lists_eq. rewrite (fmap_absent _ id) by done. apply list_fmap_id.
  - apply raw_lists_eq. rewrite (fmap_absent _ id) by done. apply list_fmap_id.
  - apply raw_lists_eq. rewrite (fmap_absent _ id) by done. apply list_fmap_id.
  - unfold of_cards, reorderCards, raw_board, raw, raw_board, with_updatedAt.
    simpl. f_equal. rewrite (fmap_absent _ raw_list) by done.
    by rewrite <- list_fmap_compose.
  - unfold moveCard. rewrite H. destruct b; simpl.
    unfold of_cards, raw, raw_board, with_updatedAt. simpl. f_equal.
    by rewrite <- list_fmap_compose.
  - unfold moveCard. rewrite H.
    destruct (find_list (board_lists b) sourceListId); destruct b; simpl;
      unfold of_cards, raw, raw_board, with_updatedAt; simpl; f_equal;
      by rewrite <- list_fmap_compose.
  - apply raw_lists_eq. rewrite (fmap_absent _ id) by done. apply list_fmap_id.
Qed.

Lemma C1_absent_list_witness :
  names_absent_list todo_done
    (AddCard (js "missing-id") (js "title") (js "u") (js "t")) /\
  run (AddCard (js "missing-id") (js "title") (js "u") (js "t"))
      (js "2024-06-01T00:00:00.000Z") todo_done
  = with_updatedAt (raw todo_done) (js "2024-06-01T00:00:00.000Z").
Proof.
  assert (H : names_absent_list todo_done
            (AddCard (js "missing-id") (js "title") (js "u") (js "t"))).
  { unfold names_absent_list. simpl. apply Exists_cons_hd. reflexivity. }
  split; [exact H|].
  exact (C1_absent_list_only_bumps_updatedAt todo_done _ _ H).
Defined.

(* ===================================================================== *)
(** ** [reorderLists], [reorderCards] and [moveCard] *)
(* ===================================================================== *)

Lemma reorderLists_valid_source (b : Board) i x e now :
  board_lists b !! i = Some x ->
  board_lists (reorderLists b (Z.of_nat i) e now) =
  Some <$> insert_at (actualStart (Nat.pred (length (board_lists b))) e) x
                     (remove_at i (board_lists b)).
Proof. intros Hx. simpl. by apply reorderArray_valid_source. Qed.

(** Under unique list ids, [reorderCards] rewrites the one list it names. *)
Lemma reorderCards_at (b : Board) k l s e now :
  unique_list_ids b -> board_lists b !! k = Some l ->
  board_lists (reorderCards b (list_id l) s e now) =
  <[k := mkList (list_id l) (list_title l) (reorderArray (list_cards l) s e)]>
    (raw_list <$> board_lists b).
Proof.
  intros Hu Hk. simpl.
  by rewrite (fmap_unique_id
    (fun l' => mkList (list_id l') (list_title l')
                      (reorderArray (list_cards l') s e)) raw_list _ k l).
Qed.

Lemma moveCard_not_found (b : Board) s d i j now :
  find_list (board_lists b) s = None \/ find_list (board_lists b) d = None ->
  moveCard b s d i j now = raw_board raw_list b.
Proof.
  unfold moveCard. intros [-> | ->]; [done|].
  by destruct (find_list (board_lists b) s).
Qed.

(** [moveCard] within one list does to that list what [reorderArray] does. *)
Lemma moveCard_same_list (b : Board) k l s e now :
  unique_list_ids b -> board_lists b !! k = Some l ->
  moveCard b (list_id l) (list_id l) s e now =
  reorderCards b (list_id l) s e now.
Proof.
  intros Hu Hk. unfold moveCard, reorderCards.
  rewrite (find_list_unique _ k l Hu Hk).
  destruct (splice (Some <$> list_cards l) s 1 []) as [deleted rest] eqn:Hs.
  rewrite str_eqb_refl. cbv beta iota zeta. f_equal.
  apply list_fmap_ext. intros n l' Hn. cbn [negb].
  rewrite andb_false_r.
  destruct (str_eqb (list_id l') (list_id l)) eqn:E; [|done].
  f_equal. apply str_eqb_true in E.
  rewrite (unique_id_inj _ n k l' l Hu Hn Hk E).
  unfold reorderArray. rewrite Hs.
  by destruct (splice rest e 0 [first_of deleted]).
Qed.

(** [moveCard] between two lists, from a valid source position: the card
    leaves the source list and enters the destination list where
    [destIndex] points, clamped into that list. *)
Lemma moveCard_across (b : Board) ks kd src dst i c e now :
  unique_list_ids b ->
  board_lists b !! ks = Some src -> board_lists b !! kd = Some dst ->
  list_id src <> list_id dst ->
  list_cards src !! i = Some c ->
  board_lists (moveCard b (list_id src) (list_id dst) (Z.of_nat i) e now) =
  <[ks := mkList (list_id src) (list_title src)
            (Some <$> remove_at i (list_cards src))]>
    (<[kd := mkList (list_id dst) (list_title dst)
               (Some <$> insert_at (actualStart (length (list_cards dst)) e) c
                                   (list_cards dst))]>
       (raw_list <$> board_lists b)).
Proof.
  intros Hu Hs Hd Hne Hc. unfold moveCard.
  rewrite (find_list_unique _ ks src Hu Hs), (find_list_unique _ kd dst Hu Hd).
  rewrite (splice_delete (Some <$> list_cards src) i (Some c))
    by (by rewrite list_lookup_fmap, Hc).
  apply str_eqb_false in Hne. rewrite Hne.
  cbv beta iota zeta. cbn [first_of negb snd board_lists].
  rewrite splice_insert. cbn [snd].
  rewrite (fmap_unique_id _ _ _ ks src Hu Hs).
  rewrite fmap_remove_at. f_equal.
  rewrite <- fmap_insert_at, length_fmap.
  rewrite <- (fmap_unique_id
    (fun l' : List => mkList (list_id l') (list_title l')
       (Some <$> insert_at (actualStart (length (list_cards dst)) e) c
                           (list_cards dst))) raw_list _ kd dst Hu Hd).
  apply list_fmap_ext. intros n l' _. simpl. by rewrite andb_true_r.
Qed.

Lemma total_cards_raw (b : Board) :
  sum_list_with (fun l : RawList => length (list_cards l))
                (raw_list <$> board_lists b) = total_cards b.
Proof.
  unfold total_cards. generalize (board_lists b). intros ls.
  induction ls as [|l ls IH]; [done|].
  cbn [fmap list_fmap sum_list_with raw_list list_cards].
  fold (@fmap list _ _ _ raw_list ls). by rewrite IH, length_fmap.
Qed.

Lemma total_cards_insert (b : Board) (b' : BoardOf RawList) k l l' :
  board_lists b !! k = Some l ->
  board_lists b' = <[k := l']> (raw_list <$> board_lists b) ->
  length (list_cards l') = length (list_cards l) ->
  total_cards b' = total_cards b.
Proof.
  intros Hk Hb' Hlen. unfold total_cards at 1. rewrite Hb'.
  pose proof (sum_list_with_insert
    (fun l : RawList => length (list_cards l))
    (raw_list <$> board_lists b) k (raw_list l) l') as H.
  rewrite list_lookup_fmap, Hk in H. specialize (H eq_refl).
  rewrite total_cards_raw in H. simpl in H. rewrite length_fmap in H. lia.
Qed.

Lemma length_reorderArray_valid {T} (l : list T) i j x :
  l !! i = Some x -> (j < length l)%nat ->
  length (reorderArray l (Z.of_nat i) (Z.of_nat j)) = length l.
Proof.
  intros Hx Hj. pose proof (lookup_lt_Some _ _ _ Hx).
  rewrite (reorderArray_valid l i j x) by done.
  rewrite length_fmap, length_insert_at, length_remove_at by done. lia.
Qed.

Lemma total_cards_reorderCards (b : Board) k l i j c now :
  unique_list_ids b -> board_lists b !! k = Some l ->
  list_cards l !! i = Some c -> (j < length (list_cards l))%nat ->
  total_cards (reorderCards b (list_id l) (Z.of_nat i) (Z.of_nat j) now)
  = total_cards b.
Proof.
  intros Hu Hk Hc Hj.
  eapply (total_cards_insert b _ k l); [done | by apply reorderCards_at |].
  simpl. by eapply length_reorderArray_valid.
Qed.

Lemma total_cards_moveCard_across (b : Board) ks kd src dst i c e now :
  unique_list_ids b ->
  board_lists b !! ks = Some src -> board_lists b !! kd = Some dst ->
  list_id src <> list_id dst ->
  list_cards src !! i = Some c ->
  total_cards (moveCard b (list_id src) (list_id dst) (Z.of_nat i) e now)
  = total_cards b.
Proof.
  intros Hu Hs Hd Hne Hc. pose proof (lookup_lt_Some _ _ _ Hc) as Hlt.
  assert (ks <> kd) as Hk by (intros ->; congruence).
  unfold total_cards at 1.
  rewrite (moveCard_across b ks kd src dst i c e now) by done.
  set (f := fun l : RawList => length (list_cards l)).
  pose proof (sum_list_with_insert f (raw_list <$> board_lists b) kd
    (raw_list dst)
    (mkList (list_id dst) (list_title dst)
       (Some <$> insert_at (actualStart (length (list_cards dst)) e) c
                           (list_cards dst)))) as H1.
  rewrite list_lookup_fmap, Hd in H1. specialize (H1 eq_refl).
  match goal with |- sum_list_with f (<[ks := ?y]> ?m) = _ =>
    pose proof (sum_list_with_insert f m ks (raw_list src) y) as H2 end.
  rewrite list_lookup_insert_ne, list_lookup_fmap, Hs in H2 by done.
  specialize (H2 eq_refl).
  rewrite total_cards_raw in H1. unfold f in *. simpl in *.
  rewrite !length_fmap in *. rewrite length_insert_at in H1.
  rewrite length_remove_at in H2 by done. lia.
Qed.

(** ** Unique list ids are kept *)

Lemma raw_list_inj (l l' : List) : raw_list l = raw_list l' -> l = l'.
Proof.
  destruct l as [i t cs], l' as [i' t' cs']. unfold raw_list. simpl.
  intros [= -> -> H]. apply (inj (fmap Some)) in H. by subst.
Qed.

Lemma raw_inj (b b' : Board) : raw b = raw b' -> b = b'.
Proof.
  destruct b as [i t ls ca ua], b' as [i' t' ls' ca' ua'].
  unfold raw, raw_board. simpl. intros [= -> -> H -> ->]. f_equal.
  revert ls' H. induction ls as [|l ls IH]; intros [|l' ls'] H;
    try discriminate; [done|].
  rewrite !fmap_cons in H. injection H as Hi Ht Hc Hls.
  f_equal; [|by apply IH].
  apply raw_list_inj. unfold raw_list. congruence.
Qed.

Lemma list_id_fmap_if {B} (g h : List -> ListOf B) (ls : list List) listId :
  (forall l, list_id (g l) = list_id l) ->
  (forall l, list_id (h l) = list_id l) ->
  list_id <$> ((fun l => if str_eqb (list_id l) listId then g l else h l)
               <$> ls)
  = list_id <$> ls.
Proof.
  intros Hg Hh. rewrite <- list_fmap_compose. apply list_fmap_ext.
  intros k l _. simpl. by destruct (str_eqb (list_id l) listId).
Qed.

Lemma list_id_moveCard (b : Board) s d i j now :
  list_id <$> board_lists (moveCard b s d i j now)
  = list_id <$> board_lists b.
Proof.
  unfold moveCard.
  destruct (find_list (board_lists b) s) as [src|];
    [destruct (find_list (board_lists b) d) as [dst|]|].
  - destruct (splice (Some <$> list_cards src) i 1 []) as [deleted rest].
    destruct (str_eqb s d); cbn [board_lists];
      rewrite <- list_fmap_compose; apply list_fmap_ext; intros k l _; simpl;
      destruct (str_eqb (list_id l) s); try done;
      by destruct (str_eqb (list_id l) d).
  - simpl. rewrite <- list_fmap_compose. by apply list_fmap_ext.
  - simpl. rewrite <- list_fmap_compose. by apply list_fmap_ext.
Qed.

Lemma unique_of_cards (b : Board) (r : BoardOf RawList) (b' : Board) :
  unique_list_ids b ->
  list_id <$> board_lists r = list_id <$> board_lists b ->
  of_cards r = raw b' -> unique_list_ids b'.
Proof.
  unfold unique_list_ids, of_cards, raw, raw_board.
  intros Hu Hids [= _ _ H _ _].
  rewrite (list_fmap_compose raw_list Some) in H.
  apply (inj (fmap Some)) in H.
  replace (list_id <$> board_lists b')
    with (list_id <$> (raw_list <$> board_lists b'))
    by (rewrite <- list_fmap_compose; by apply list_fmap_ext).
  by rewrite <- H, Hids.
Qed.

(** Every operation keeps the list ids unique, when the result is a
    board and a new list gets a new id. *)
Lemma unique_list_ids_run (op : Op) (now : jsstring) (b b' : Board) :
  unique_list_ids b -> fresh_list_id op b ->
  run op now b = raw b' -> unique_list_ids b'.
Proof.
  intros Hu Hfresh Hrun.
  destruct op; cbn [run] in Hrun;
    try (apply raw_inj in Hrun; subst b'; unfold unique_list_ids;
         cbn [updateBoardTitle updateListTitle deleteAllCards addCard
              updateCardTitle deleteCard addComment board_lists];
         first [ exact Hu
               | by rewrite (list_id_fmap_if _ id) ]).
  - (* resetBoard *)
    apply raw_inj in Hrun. subst b'.
    apply (bool_decide_unpack _). by vm_compute.
  - (* addList *)
    apply raw_inj in Hrun. subst b'. unfold unique_list_ids, addList.
    cbn [board_lists]. rewrite fmap_app. apply NoDup_app.
    split; [exact Hu|]. split; [|apply NoDup_singleton].
    intros x Hx Hx'. apply list_elem_of_singleton in Hx'. subst x.
    by apply Hfresh.
  - (* deleteList *)
    apply raw_inj in Hrun. subst b'. unfold unique_list_ids, deleteList.
    cbn [board_lists]. revert Hu. unfold unique_list_ids.
    induction (board_lists b) as [|l ls IH]; [done|].
    rewrite fmap_cons, NoDup_cons. intros [Hl Hls].
    destruct (decide (list_id l <> listId)).
    + rewrite filter_cons_True by done. rewrite fmap_cons, NoDup_cons.
      split; [|by apply IH]. intros Hin. apply Hl.
      apply list_elem_of_fmap in Hin as (y & -> & Hy).
      apply list_elem_of_fmap. exists y. split; [done|].
      by apply list_elem_of_filter in Hy as [_ ?].
    + rewrite filter_cons_False by done. by apply IH.
  - (* reorderLists *)
    unfold of_lists, reorderLists, raw, raw_board in Hrun.
    injection Hrun as _ _ Hrun _ _.
    assert (Hre : reorderArray (board_lists b) startIndex endIndex
                = Some <$> board_lists b').
    { revert Hrun. generalize (reorderArray (board_lists b) startIndex endIndex).
      generalize (board_lists b'). clear.
      intros ls'. induction ls' as [|l' ls' IH]; intros [|x xs] H;
        try (simpl in H; discriminate); [done|].
      rewrite !fmap_cons in H. destruct x as [l|]; [|discriminate].
      injection H as Hi Ht Hc Hls.
      rewrite fmap_cons. f_equal; [|by apply IH].
      f_equal. apply raw_list_inj. unfold raw_list. congruence. }
    apply reorderArray_typed_Permutation in Hre.
    unfold unique_list_ids. by rewrite Hre.
  - (* reorderCards *)
    eapply unique_of_cards; [exact Hu | | exact Hrun].
    unfold reorderCards. cbn [board_lists]. by apply list_id_fmap_if.
  - (* moveCard *)
    eapply unique_of_cards; [exact Hu | | exact Hrun].
    apply list_id_moveCard.
Qed.

Lemma todo_done_unique : unique_list_ids todo_done.
Proof. apply (bool_decide_unpack _). by vm_compute. Qed.

(* ===================================================================== *)
(** ** Indices that are not positions of the sequence *)
(* ===================================================================== *)

(** C2, as the specification states it, fails: index 5 is no position in
    a sequence of two lists, and [reorderLists(0, 5)] swaps the two. *)
Lemma C2_reorderLists_out_of_range_moves :
  board_lists (reorderLists todo_done 0 5 (js "2024-06-01T00:00:00.000Z"))
  = Some <$> [ mkList (js "done") (js "Done") [];
               mkList (js "todo") (js "Todo") [card_of "C1"; card_of "C2"] ]
  /\ board_lists (reorderLists todo_done 0 5 (js "2024-06-01T00:00:00.000Z"))
     <> Some <$> board_lists todo_done.
Proof. split; [reflexivity | discriminate]. Qed.

(** C2 (amended): [moveCard] leaves the tree unchanged when its source or
    destination list is not found.  The operations do not check indices:
    from a valid source position, a destination index [e] that is no
    position of the sequence is clamped into it as [splice] does (at or
    past the end: the last position; negative: counted from the end, no
    further than the front) and the element is put there.  So
    [reorderLists] permutes the lists, whatever cards they hold; with
    unique list ids, [reorderCards] and [moveCard] within one list
    permute the cards of the list, and [moveCard] between two lists
    takes the card to the destination list. *)
Theorem C2_destination_index_is_clamped (b : Board) (e : Z) (now : jsstring) :
  (forall s d si di,
     find_list (board_lists b) s = None \/ find_list (board_lists b) d = None ->
     moveCard b s d si di now = raw_board raw_list b)
  /\ (forall n : nat,
        (Z.of_nat n <= e -> actualStart n e = n)
        /\ (e < 0 -> actualStart n e = Z.to_nat (Z.max (Z.of_nat n + e) 0))
        /\ (actualStart n e <= n)%nat)
  /\ (forall k l,
        board_lists b !! k = Some l ->
        let lists' := insert_at (actualStart (Nat.pred (length (board_lists b))) e)
                                l (remove_at k (board_lists b)) in
        board_lists (reorderLists b (Z.of_nat k) e now) = Some <$> lists'
        /\ lists' ≡ₚ board_lists b)
  /\ (unique_list_ids b ->
      forall k l i c,
        board_lists b !! k = Some l ->
        list_cards l !! i = Some c ->
        (let cards' := insert_at (actualStart (Nat.pred (length (list_cards l))) e)
                                 c (remove_at i (list_cards l)) in
         board_lists (reorderCards b (list_id l) (Z.of_nat i) e now)
         = <[k := mkList (list_id l) (list_title l) (Some <$> cards')]>
             (raw_list <$> board_lists b)
         /\ board_lists (moveCard b (list_id l) (list_id l) (Z.of_nat i) e now)
            = <[k := mkList (list_id l) (list_title l) (Some <$> cards')]>
                (raw_list <$> board_lists b)
         /\ cards' ≡ₚ list_cards l)
        /\ (forall kd dst,
              board_lists b !! kd = Some dst -> list_id l <> list_id dst ->
              board_lists (moveCard b (list_id l) (list_id dst) (Z.of_nat i) e now)
              = <[k := mkList (list_id l) (list_title l)
                         (Some <$> remove_at i (list_cards l))]>
                  (<[kd := mkList (list_id dst) (list_title dst)
                             (Some <$> insert_at
                                         (actualStart (length (list_cards dst)) e)
                                         c (list_cards dst))]>
                     (raw_list <$> board_lists b)))).
Proof.
  split; [|split; [|split]].
  - intros. by apply moveCard_not_found.
  - intros n. split; [|split].
    + apply actualStart_beyond.
    + intros He. unfold actualStart. by destruct (Z.ltb_spec e 0); [|lia].
    + apply actualStart_le.
  - intros k l Hk lists'. split.
    + by apply reorderLists_valid_source.
    + subst lists'. rewrite insert_at_Permutation. symmetry.
      by apply remove_at_Permutation.
  - intros Hu k l i c Hk Hc. split; [split; [|split]|].
    + rewrite (reorderCards_at b k l) by done.
      by rewrite (reorderArray_valid_source _ i c).
    + rewrite (moveCard_same_list b k l) by done.
      rewrite (reorderCards_at b k l) by done.
      by rewrite (reorderArray_valid_source _ i c).
    + rewrite insert_at_Permutation. symmetry. by apply remove_at_Permutation.
    + intros kd dst Hd Hne. by apply moveCard_across.
Qed.

(** On the board of the scenario: the list "done", which has no cards,
    goes from position 1 to the front for the destination index -7; and
    the first card of "todo" goes to the last position for the
    destination index 7. *)
Lemma C2_destination_index_is_clamped_witness :
  board_lists (reorderLists todo_done 1 (-7) (js "t"))
  = Some <$> [ mkList (js "done") (js "Done") [];
               mkList (js "todo") (js "Todo") [card_of "C1"; card_of "C2"] ]
  /\ board_lists (reorderCards todo_done (js "todo") 0 7 (js "t"))
     = [ mkList (js "todo") (js "Todo") [Some (card_of "C2"); Some (card_of "C1")];
         mkList (js "done") (js "Done") [] ].
Proof.
  split.
  - pose proof (C2_destination_index_is_clamped todo_done (-7) (js "t"))
      as (_ & _ & H & _).
    exact (proj1 (H 1%nat (mkList (js "done") (js "Done") []) eq_refl)).
  - pose proof (C2_destination_index_is_clamped todo_done 7 (js "t"))
      as (_ & _ & _ & H).
    exact (proj1 (proj1 (H todo_done_unique 0%nat
             (mkList (js "todo") (js "Todo") [card_of "C1"; card_of "C2"])
             0%nat (card_of "C1") eq_refl eq_refl))).
Defined.

(* ===================================================================== *)
(** ** The number of cards, and where a moved card goes *)
(* ===================================================================== *)

(** C3: with unique list ids and valid positions, [reorderCards] and
    [moveCard] keep the number of cards of the board; between two lists,
    [moveCard] takes the card at [sourceIndex] out of the source list and
    puts it, once, at [destIndex] into the destination list, the other
    lists staying as they are. *)
Theorem C3_moveCard_keeps_cards
    (b : Board) (ks kd : nat) (src dst : List) (i j : nat) (c : Card)
    (now : jsstring) :
  unique_list_ids b ->
  board_lists b !! ks = Some src ->
  board_lists b !! kd = Some dst ->
  list_cards src !! i = Some c ->
  ((j < length (list_cards src))%nat ->
     total_cards (reorderCards b (list_id src) (Z.of_nat i) (Z.of_nat j) now)
     = total_cards b
     /\ total_cards (moveCard b (list_id src) (list_id src)
                              (Z.of_nat i) (Z.of_nat j) now)
        = total_cards b)
  /\ (list_id src <> list_id dst -> (j <= length (list_cards dst))%nat ->
      total_cards (moveCard b (list_id src) (list_id dst)
                            (Z.of_nat i) (Z.of_nat j) now)
      = total_cards b
      /\ board_lists (moveCard b (list_id src) (list_id dst)
                               (Z.of_nat i) (Z.of_nat j) now)
         = <[ks := mkList (list_id src) (list_title src)
                     (Some <$> remove_at i (list_cards src))]>
             (<[kd := mkList (list_id dst) (list_title dst)
                        (Some <$> insert_at j c (list_cards dst))]>
                (raw_list <$> board_lists b))).
Proof.
  intros Hu Hs Hd Hc. split.
  - intros Hj. rewrite (moveCard_same_list b ks src) by done.
    split; by eapply total_cards_reorderCards.
  - intros Hne Hj. split.
    + by eapply total_cards_moveCard_across.
    + rewrite (moveCard_across b ks kd src dst i c) by done.
      by rewrite actualStart_valid.
Qed.

(** The scenario of the specification: Todo=[C1,C2], Done=[] and
    [moveCard("todo","done",0,0)] give Todo=[C2], Done=[C1]. *)
Lemma C3_moveCard_scenario :
  board_lists (moveCard todo_done (js "todo") (js "done") 0 0 (js "t"))
  = [ mkList (js "todo") (js "Todo") [Some (card_of "C2")];
      mkList (js "done") (js "Done") [Some (card_of "C1")] ]
  /\ total_cards (moveCard todo_done (js "todo") (js "done") 0 0 (js "t"))
     = total_cards todo_done.
Proof.
  pose proof (C3_moveCard_keeps_cards todo_done 0 1
    (mkList (js "todo") (js "Todo") [card_of "C1"; card_of "C2"])
    (mkList (js "done") (js "Done") [])
    0 0 (card_of "C1") (js "t") todo_done_unique eq_refl eq_refl eq_refl)
    as [_ H].
  destruct H as [H1 H2]; [discriminate | simpl; lia |].
  split; [exact H2 | exact H1].
Defined.

(* ===================================================================== *)
(** ** [reorderCards] *)
(* ===================================================================== *)

(** C4: with unique list ids and valid positions [i], [j] of the named
    list, [reorderCards] leaves every other list as it is and gives the
    named list a permutation of its cards in which the card that was at
    [i] is at [j] and the others keep their order; with [i = j] nothing
    changes but updatedAt. *)
Theorem C4_reorderCards_relocates_one
    (b : Board) (k : nat) (l : List) (i j : nat) (c : Card) (now : jsstring) :
  unique_list_ids b ->
  board_lists b !! k = Some l ->
  list_cards l !! i = Some c ->
  (j < length (list_cards l))%nat ->
  let cards' := insert_at j c (remove_at i (list_cards l)) in
  board_lists (reorderCards b (list_id l) (Z.of_nat i) (Z.of_nat j) now)
  = <[k := mkList (list_id l) (list_title l) (Some <$> cards')]>
      (raw_list <$> board_lists b)
  /\ cards' ≡ₚ list_cards l
  /\ cards' !! j = Some c
  /\ remove_at j cards' = remove_at i (list_cards l)
  /\ (i = j ->
      reorderCards b (list_id l) (Z.of_nat i) (Z.of_nat j) now
      = raw_board raw_list (with_updatedAt b now)).
Proof.
  intros Hu Hk Hc Hj cards'. pose proof (lookup_lt_Some _ _ _ Hc) as Hi.
  assert (Hlen : (j <= length (remove_at i (list_cards l)))%nat)
    by (rewrite length_remove_at by done; lia).
  assert (Hl : board_lists
                 (reorderCards b (list_id l) (Z.of_nat i) (Z.of_nat j) now)
               = <[k := mkList (list_id l) (list_title l) (Some <$> cards')]>
                   (raw_list <$> board_lists b)).
  { rewrite (reorderCards_at b k l) by done.
    by rewrite (reorderArray_valid _ i j c). }
  repeat split.
  - exact Hl.
  - subst cards'. rewrite insert_at_Permutation. symmetry.
    by apply remove_at_Permutation.
  - by apply lookup_insert_at.
  - by apply remove_at_insert_at.
  - intros <-. unfold raw_board, with_updatedAt.
    unfold reorderCards in *. cbn [board_lists] in Hl. rewrite Hl.
    cbn [board_id board_title board_lists board_createdAt]. f_equal.
    subst cards'. rewrite (insert_at_remove_at_same _ i c) by done.
    apply list_insert_id. rewrite list_lookup_fmap, Hk. by destruct l.
Qed.

Lemma C4_reorderCards_witness :
  board_lists (reorderCards todo_done (js "todo") 0 1 (js "t"))
  = [ mkList (js "todo") (js "Todo") [Some (card_of "C2"); Some (card_of "C1")];
      mkList (js "done") (js "Done") [] ].
Proof.
  assert (Hj : (1 < length [card_of "C1"; card_of "C2"])%nat) by (simpl; lia).
  pose proof (C4_reorderCards_relocates_one todo_done 0
    (mkList (js "todo") (js "Todo") [card_of "C1"; card_of "C2"])
    0 1 (card_of "C1") (js "t") todo_done_unique eq_refl eq_refl Hj)
    as (H & _).
  exact H.
Defined.

(* ===================================================================== *)
(** ** [moveCard] within one list *)
(* ===================================================================== *)

(** C5: with unique list ids, for every list id and all indices,
    [moveCard(listId, listId, s, d)] gives the board
    [reorderCards(listId, s, d)] gives, up to updatedAt; when the list is
    found the two boards are the same board. *)
Theorem C5_moveCard_same_list_is_reorderCards
    (b : Board) (listId : jsstring) (s d : Z) (now : jsstring) :
  unique_list_ids b ->
  with_updatedAt (moveCard b listId listId s d now) now
  = reorderCards b listId s d now
  /\ (is_Some (find_list (board_lists b) listId) ->
      moveCard b listId listId s d now = reorderCards b listId s d now).
Proof.
  intros Hu.
  destruct (find_list (board_lists b) listId) as [l|] eqn:E.
  - apply find_list_Some in E as [Hin <-].
    apply list_elem_of_lookup in Hin as [k Hk].
    rewrite (moveCard_same_list b k l) by done. split; [|done].
    by unfold with_updatedAt, reorderCards.
  - split; [|by intros [? ?]].
    rewrite moveCard_not_found by (by left).
    unfold with_updatedAt, reorderCards, raw_board. simpl. f_equal.
    by rewrite (fmap_absent _ raw_list).
Qed.

Lemma C5_moveCard_same_list_witness :
  with_updatedAt (moveCard todo_done (js "todo") (js "todo") 0 1 (js "t"))
                 (js "t")
  = reorderCards todo_done (js "todo") 0 1 (js "t").
Proof.
  exact (proj1 (C5_moveCard_same_list_is_reorderCards todo_done (js "todo")
                  0 1 (js "t") todo_done_unique)).
Defined.

(** Without unique list ids the two differ: [moveCard] gives every list of
    that id the cards of the first one. *)
Remark moveCard_same_list_duplicate_ids :
  let b := mkBoard (js "b") (js "B")
             [ mkList (js "a") (js "A1") [card_of "C1"; card_of "C2"];
               mkList (js "a") (js "A2") [card_of "C3"] ]
             (js "t0") (js "t0") in
  board_lists (moveCard b (js "a") (js "a") 0 1 (js "t"))
  <> board_lists (reorderCards b (js "a") 0 1 (js "t")).
Proof. discriminate. Qed.

(* ===================================================================== *)
(** ** updatedAt *)
(* ===================================================================== *)

(** C6, as the specification states it, fails: [moveCard] on a list that
    is not found returns the board with the updatedAt it had, not the time
    of the call; and [resetBoard] installs the updatedAt of
    [DEFAULT_BOARD], which is the time the module was loaded and can be
    earlier than the input's. *)
Lemma C6_updatedAt_not_always_now :
  board_updatedAt
    (run (MoveCard (js "missing-id") (js "done") 0 0)
         (js "2024-06-01T00:00:00.000Z") todo_done)
  <> js "2024-06-01T00:00:00.000Z"
  /\ ts_leb (board_updatedAt todo_done)
       (board_updatedAt
          (run (ResetBoard (js "2023-01-01T00:00:00.000Z")
                  (js "2023-01-01T00:00:00.000Z")
                  (js "2023-01-01T00:00:00.000Z")
                  (js "2023-01-01T00:00:00.000Z")
                  (js "2023-01-01T00:00:00.000Z"))
               (js "2024-06-01T00:00:00.000Z") todo_done))
     = false.
Proof. split; [discriminate | reflexivity]. Qed.

Lemma board_updatedAt_raw (b : Board) :
  board_updatedAt (raw b) = board_updatedAt b.
Proof. done. Qed.

(** C6 (amended): every operation sets updatedAt to the time of the call,
    except [resetBoard], which installs [DEFAULT_BOARD] with the updatedAt
    that board has, and [moveCard] with a source or destination list that
    is not found, which returns the input board with its updatedAt.  So,
    [resetBoard] apart, updatedAt is never earlier after an operation than
    before, when the time of the call is not earlier than the input's
    updatedAt. *)
Theorem C6_updatedAt_after_operation (op : Op) (now : jsstring) (b : Board) :
  board_updatedAt (run op now b)
  = (if bumps op b then now
     else match op with
          | ResetBoard _ _ _ _ tu => tu
          | _ => board_updatedAt b
          end)
  /\ (ts_leb (board_updatedAt b) now = true ->
      (forall t1 t2 t3 tc tu, op <> ResetBoard t1 t2 t3 tc tu) ->
      ts_leb (board_updatedAt b) (board_updatedAt (run op now b)) = true).
Proof.
  assert (H : board_updatedAt (run op now b)
              = (if bumps op b then now
                 else match op with
                      | ResetBoard _ _ _ _ tu => tu
                      | _ => board_updatedAt b
                      end)).
  { destruct op; try reflexivity.
    simpl. unfold moveCard.
    destruct (find_list (board_lists b) sourceListId) as [src|]; [|done].
    destruct (find_list (board_lists b) destListId) as [dst|]; [|done].
    simpl.
    destruct (splice (Some <$> list_cards src) sourceIndex 1 []) as [dl r].
    by destruct (str_eqb sourceListId destListId). }
  split; [exact H|].
  intros Hnow Hop. rewrite H.
  destruct (bumps op b); [done|].
  destruct op; try apply ts_leb_refl.
  by destruct (Hop t1 t2 t3 tc tu).
Qed.

Lemma C6_updatedAt_after_operation_witness :
  ts_leb (board_updatedAt todo_done) (js "2024-06-01T00:00:00.000Z") = true
  /\ ts_leb (board_updatedAt todo_done)
       (board_updatedAt
          (run (AddList (js "Later") (js "u"))
               (js "2024-06-01T00:00:00.000Z") todo_done)) = true.
Proof.
  split; [reflexivity|].
  apply (C6_updatedAt_after_operation (AddList (js "Later") (js "u"))
           (js "2024-06-01T00:00:00.000Z") todo_done);
    [reflexivity | discriminate].
Defined.

(* ===================================================================== *)
(** ** The storage hook *)
(* ===================================================================== *)

(** *** Traces *)

Lemma reads_app l l' : reads (l ++ l') = (reads l + reads l')%nat.
Proof. unfold reads. apply sum_list_with_app. Qed.

Lemma reads_pos_elem l :
  (0 < reads l)%nat -> exists r, r ∈ l /\ is_read r = true.
Proof.
  induction l as [|e l IH]; simpl; [lia|].
  destruct (is_read e) eqn:E.
  - intros _. exists e. split; [left | done].
  - intros H. destruct (IH H) as (r & Hr & Hread).
    exists r. split; [by right | done].
Qed.

Lemma reads_before_writes_nil : reads_before_writes [].
Proof. intros [|? ?] e post H; discriminate. Qed.

(** A trace that has read stays well ordered whatever follows. *)
Lemma reads_before_writes_app l l' :
  reads_before_writes l -> (0 < reads l)%nat ->
  reads_before_writes (l ++ l').
Proof.
  intros Hl Hpos pre e post Heq Hw.
  destruct (reads_pos_elem l Hpos) as (r & Hr & Hread).
  apply app_eq_inv in Heq as [(k & -> & Hk) | (k & -> & Hk)].
  - destruct k as [|e' k]; simpl in Hk.
    + exists r. split; [|done]. by rewrite app_nil_r in Hr.
    + injection Hk as <- _. by apply (Hl pre e k).
  - exists r. split; [|done]. apply elem_of_app. by left.
Qed.

(** A trace without writes is well ordered. *)
Lemma reads_before_writes_no_write l :
  Forall (fun e => is_write e = false) l -> reads_before_writes l.
Proof.
  intros Hall pre e post -> Hw.
  apply Forall_app in Hall as [_ Hall]. inversion Hall; congruence.
Qed.

(** *** The instance stays synced *)

Lemma reads_before_writes_read_first k l :
  reads_before_writes (GetItem k :: l).
Proof.
  apply (reads_before_writes_app [GetItem k] l); [|simpl; lia].
  apply reads_before_writes_no_write. by repeat constructor.
Qed.

Ltac pending_goal :=
  unfold synced, synced_pending, heap_ok in *; simpl in *;
  rewrite <- ?app_assoc, ?reads_app; simpl;
  intuition (try congruence; try lia;
             try (apply reads_before_writes_app; [assumption | lia]);
             try apply reads_before_writes_read_first;
             try (symmetry;
                  match goal with
                  | H : _ = _ -> ?x = ?y |- ?x = ?y => apply H; congruence
                  end)).

Ltac hook_unfold :=
  unfold setValue, removeValue, handleStorageChange, hydration_effect,
    listen_effect, call_deserializer, call_serializer,
    localStorage_getItem, localStorage_setItem, localStorage_removeItem,
    console_error, new_object, setStoredValue, setIsHydrated,
    set_isFirstRender, set_rendered, set_listening, get_hook, emit,
    try_catch, bind, ret.

Ltac hook_state st H :=
  intros st H; destruct st as [[sv hyd fr [rr rb] lis] w];
  unfold synced, synced_pending in H; simpl in H;
  destruct H as ((Hf & Hh & Hl & Hr & Hsame & Hheap & Hreads & Hrbw) & Hsv);
  simpl in Hsv; injection Hr as Hrr Hrb; subst.

Section hook_facts.
Context {T : Type}.
Variable key : jsstring.
Variable initialValue : ref T.
Variable serializer : T -> option jsstring.
Variable deserializer : jsstring -> option T.


Lemma hoare_ret {A} (a : A) (P : St -> Prop) Q E :
  (forall st, P st -> Q a st) -> hoare (T:=T) P (ret a) Q E.
Proof. intros H st HP. by apply H. Qed.

Lemma hoare_bind {A B} (m : M A) (k : A -> M B) (P : St -> Prop) R Q E :
  hoare (T:=T) P m R E -> (forall a, hoare (R a) (k a) Q E) ->
  hoare P (bind m k) Q E.
Proof.
  intros Hm Hk st HP. unfold bind. specialize (Hm st HP).
  destruct (m st) as [[a|] st']; [by apply Hk | done].
Qed.

Lemma hoare_try_catch {A} (body handler : M A) (P : St -> Prop) Q E E' :
  hoare (T:=T) P body Q E' -> hoare E' handler Q E ->
  hoare P (try_catch body handler) Q E.
Proof.
  intros Hb Hh st HP. unfold try_catch. specialize (Hb st HP).
  destruct (body st) as [[a|] st']; [done | by apply Hh].
Qed.

Lemma hoare_weaken {A} (m : M A) (P P' : St -> Prop) Q Q' E E' :
  hoare (T:=T) P' m Q' E' ->
  (forall st, P st -> P' st) -> (forall a st, Q' a st -> Q a st) ->
  (forall st, E' st -> E st) ->
  hoare P m Q E.
Proof.
  intros Hm HP HQ HE st Hst. specialize (Hm st (HP st Hst)).
  destruct (m st) as [[a|] st']; auto.
Qed.

Lemma console_error_pending r0 :
  hoare (synced_pending initialValue r0) console_error (fun _ => synced_pending initialValue r0) (fun _ => False).
Proof. intros [h w] H. simpl. pending_goal. Qed.

Lemma write_effect_pending r0 h0 :
  hoare (fun st => synced_pending initialValue r0 st /\ st.1 = h0)
        (write_effect key serializer)
        (fun _ st => synced_pending initialValue r0 st /\ st.1 = h0)
        (fun _ => False).
Proof.
  intros [h w] [H <-]. unfold write_effect, bind, get_hook, try_catch,
    call_serializer, localStorage_setItem, console_error, emit, bind, ret.
  simpl.
  destruct H as (? & ? & ? & Hr & ?). simpl in Hr. rewrite Hr.
  destruct (serializer (content r0)); simpl;
    [destruct (accessible w), (quota_ok w); simpl|]; pending_goal.
Qed.

Lemma rerender_pending r0 :
  hoare (synced_pending initialValue r0) (rerender key serializer)
        (fun _ => synced initialValue) (fun _ => False).
Proof.
  intros [[sv hyd fr [rr rb] lis] w] H. unfold rerender, bind, get_hook.
  destruct H as (Hf & Hh & Hl & Hr & Hsame & Hheap & Hreads & Hrbw).
  simpl in *. injection Hr as -> ->. subst.
  case_bool_decide as Haddr; simpl.
  - rewrite (Hsame Haddr) in *. pending_goal.
  - unfold set_rendered. simpl.
    pose proof (write_effect_pending sv
      (mkHook sv true false (sv, true) true)
      (mkHook sv true false (sv, true) true, w)) as Hw.
    destruct (write_effect _ _ _) as [[[]|] [h' w']] eqn:E.
    + destruct Hw as [Hw Hh']; [pending_goal|].
      simpl in Hh'. subst h'. exact Hw.
    + apply Hw. pending_goal.
Qed.

Lemma setValue_synced value r0 :
  hoare (fun st => synced initialValue st /\ storedValue st.1 = r0)
        (setValue initialValue value)
        (fun _ => synced_pending initialValue r0) (fun _ => False).
Proof.
  hook_state st H. hook_unfold.
  destruct value as [|v|f]; simpl; [| |destruct (f _); simpl]; pending_goal.
Qed.

Lemma removeValue_synced r0 :
  hoare (fun st => synced initialValue st /\ storedValue st.1 = r0)
        (removeValue key initialValue)
        (fun _ => synced_pending initialValue r0) (fun _ => False).
Proof.
  hook_state st H. hook_unfold. simpl.
  destruct (accessible w); simpl; pending_goal.
Qed.

Lemma handleStorageChange_synced k v r0 :
  hoare (fun st => synced initialValue st /\ storedValue st.1 = r0)
        (handleStorageChange key deserializer k v)
        (fun _ => synced_pending initialValue r0) (fun _ => False).
Proof.
  hook_state st H. hook_unfold.
  destruct k as [k|], v as [v|]; simpl; try pending_goal.
  destruct (str_eqb k key); simpl; [|pending_goal].
  destruct (deserializer v); simpl; pending_goal.
Qed.

Lemma hydration_effect_synced r0 :
  hoare (fun st => synced initialValue st /\ storedValue st.1 = r0)
        (hydration_effect key deserializer)
        (fun _ => synced_pending initialValue r0) (fun _ => False).
Proof. hook_state st H. hook_unfold. simpl. pending_goal. Qed.

Lemma write_effect_synced r0 :
  hoare (fun st => synced initialValue st /\ storedValue st.1 = r0)
        (write_effect key serializer)
        (fun _ => synced_pending initialValue r0) (fun _ => False).
Proof.
  intros st [H Hsv]. unfold synced in H. rewrite Hsv in H.
  pose proof (write_effect_pending r0 st.1 st (conj H eq_refl)) as Hw.
  destruct (write_effect key serializer st) as [[[]|] st']; [|done].
  by destruct Hw.
Qed.

Lemma step_synced_from ev r0 :
  hoare (fun st => synced initialValue st /\ storedValue st.1 = r0)
        (step key initialValue serializer deserializer ev)
        (fun _ => synced initialValue) (fun _ => False).
Proof.
  destruct ev; simpl.
  - eapply hoare_bind; [apply hydration_effect_synced|].
    intros ?. apply rerender_pending.
  - eapply hoare_bind; [apply write_effect_synced|].
    intros ?. apply rerender_pending.
  - eapply hoare_bind; [apply setValue_synced|].
    intros ?. apply rerender_pending.
  - eapply hoare_bind; [apply removeValue_synced|].
    intros ?. apply rerender_pending.
  - intros st [H Hr0]. destruct st as [h0 w]. unfold bind at 1, get_hook.
    destruct (listening h0); [|exact H].
    exact (hoare_bind _ _ _ _ _ _
             (handleStorageChange_synced event_key event_newValue r0)
             (fun _ => rerender_pending r0) (h0, w) (conj H Hr0)).
Qed.

(** An event leaves a synced instance synced, and nothing is thrown. *)
Lemma step_synced ev :
  hoare (synced initialValue) (step key initialValue serializer deserializer ev)
        (fun _ => synced initialValue) (fun _ => False).
Proof. intros st H. by apply (step_synced_from ev (storedValue st.1)). Qed.

Lemma steps_synced evs :
  hoare (synced initialValue)
        (steps key initialValue serializer deserializer evs)
        (fun _ => synced initialValue) (fun _ => False).
Proof.
  induction evs as [|ev evs IH]; simpl.
  - by apply hoare_ret.
  - eapply hoare_bind; [apply step_synced | intros ?; apply IH].
Qed.

(** Mounting a new instance makes it synced, and nothing is thrown. *)
Lemma mount_synced items acc quota :
  hoare (fun st => st = (initial_hook initialValue,
                         initial_world initialValue items acc quota))
        (mount key serializer deserializer)
        (fun _ => synced initialValue) (fun _ => False).
Proof.
  intros st ->. unfold mount, rerender, write_effect, initial_hook,
    initial_world. hook_unfold. simpl.
  destruct acc; simpl.
  - destruct (truthy (items !! key)) as [item|]; simpl.
    + destruct (deserializer item) as [v|]; simpl.
      * rewrite bool_decide_eq_false_2 by lia. simpl.
        destruct (serializer v); simpl; [destruct quota; simpl|];
          pending_goal.
      * rewrite (bool_decide_eq_true_2 _ eq_refl). simpl.
        destruct (serializer _); simpl; [destruct quota; simpl|];
          pending_goal.
    + rewrite (bool_decide_eq_true_2 _ eq_refl). simpl.
      destruct (serializer _); simpl; [destruct quota; simpl|];
        pending_goal.
  - rewrite (bool_decide_eq_true_2 _ eq_refl). simpl.
    destruct (serializer _); simpl; pending_goal.
Qed.
End hook_facts.

(** *** The instance under any schedule *)

(** One more entry: a write needs a read before it. *)
Lemma reads_before_writes_snoc l e :
  reads_before_writes l ->
  (is_write e = true -> (0 < reads l)%nat) ->
  reads_before_writes (l ++ [e]).
Proof.
  intros Hl He pre e' post Heq Hw.
  apply app_eq_inv in Heq as [(k & -> & Hk) | (k & -> & Hk)].
  - destruct k as [|e'' k]; simpl in Hk.
    + injection Hk as <- _. rewrite app_nil_r in He.
      by apply reads_pos_elem, He.
    + injection Hk as <- _. by apply (Hl pre e' k).
  - destruct k as [|e'' k]; simpl in Hk; [|by destruct k].
    injection Hk as <- _. rewrite app_nil_r.
    by apply reads_pos_elem, He.
Qed.

Ltac trace_goal :=
  repeat (apply reads_before_writes_snoc;
          [| simpl; rewrite ?reads_app; simpl; intros; try discriminate; lia]);
  try assumption.

Ltac guarded_goal :=
  unfold read_guarded in *; simpl in *;
  repeat match goal with
         | H : ?a = ?a -> _ |- _ => specialize (H eq_refl)
         | H : _ /\ _ |- _ => destruct H
         end;
  repeat split; intros; try discriminate;
  repeat match goal with
         | H : ?P -> _, H' : ?P |- _ => specialize (H H')
         | H : _ /\ _ |- _ => destruct H
         end;
  rewrite ?reads_app; simpl; try congruence; try lia; trace_goal.

Section hook_any_schedule.
Context {T : Type}.
Variable key : jsstring.
Variable initialValue : ref T.
Variable serializer : T -> option jsstring.
Variable deserializer : jsstring -> option T.

(** Whatever runs next, the instance stays read-guarded and nothing is
    thrown. *)
Lemma act_read_guarded a :
  hoare read_guarded (act key initialValue serializer deserializer a)
        (fun _ => read_guarded) (fun _ => False).
Proof.
  intros [[sv hyd fr [rr rb] lis] w] (H1 & H2 & H3). simpl in *.
  destruct a as [| | | |value| |k v]; unfold act, write_effect; hook_unfold;
    simpl.
  - (* the first effect *)
    destruct fr; simpl; [|guarded_goal].
    destruct (accessible w); simpl; [|guarded_goal].
    destruct (truthy _) as [item|]; simpl; [|guarded_goal].
    destruct (deserializer item); simpl; guarded_goal.
  - (* the second effect *)
    destruct rb; simpl; [|guarded_goal].
    destruct fr; [by destruct (H1 eq_refl) as (_ & _ & ?)|].
    destruct (serializer (content rr)); simpl;
      [destruct (accessible w), (quota_ok w); simpl|]; guarded_goal.
  - (* the third effect *)
    guarded_goal.
  - (* a render *)
    guarded_goal.
  - (* setValue *)
    destruct value as [|x|f]; simpl; [| |destruct (f _); simpl];
      guarded_goal.
  - (* removeValue *)
    destruct (accessible w); simpl; guarded_goal.
  - (* a storage event *)
    destruct lis; simpl; [|guarded_goal].
    destruct k as [k|], v as [v|]; simpl; try (guarded_goal).
    destruct (str_eqb k key); simpl; [|guarded_goal].
    destruct (deserializer v); simpl; guarded_goal.
Qed.

Lemma acts_read_guarded l :
  hoare read_guarded (acts key initialValue serializer deserializer l)
        (fun _ => read_guarded) (fun _ => False).
Proof.
  induction l as [|a l IH]; simpl.
  - by apply hoare_ret.
  - eapply hoare_bind; [apply act_read_guarded | intros ?; apply IH].
Qed.

Lemma initial_read_guarded items acc quota :
  read_guarded (initial_hook initialValue,
                initial_world initialValue items acc quota).
Proof.
  repeat split; try done. apply reads_before_writes_nil.
Qed.

(** Under any schedule: nothing is thrown, the storage is read at most
    once, and it is written only after it has been read. *)
Lemma any_schedule_read_guarded l items acc quota :
  match acts key initialValue serializer deserializer l
          (initial_hook initialValue,
           initial_world initialValue items acc quota) with
  | (Ok _, st) =>
      (reads (log st.2) <= 1)%nat /\ reads_before_writes (log st.2)
  | (Throw, _) => False
  end.
Proof.
  pose proof (acts_read_guarded l _ (initial_read_guarded items acc quota))
    as H.
  destruct (acts _ _ _ _ _ _) as [[[]|] [h w]]; [|done].
  destruct H as (H1 & H2 & H3). simpl in *. split; [|done].
  destruct (isFirstRender h); [destruct (H1 eq_refl); lia|].
  rewrite H2; [lia|done].
Qed.
End hook_any_schedule.

(** *** What the specification says of the hook *)

Section hook_claims.
Context {T : Type}.
Variable key : jsstring.
Variable initialValue : ref T.
Variable serializer : T -> option jsstring.
Variable deserializer : jsstring -> option T.

(** The life of an instance never throws and leaves it synced. *)
Lemma life_synced evs items acc quota :
  match life key initialValue serializer deserializer evs
          (initial_hook initialValue,
           initial_world initialValue items acc quota) with
  | (Ok _, st) => synced initialValue st
  | (Throw, _) => False
  end.
Proof.
  apply (hoare_bind _ _ _ _ _ _
           (mount_synced key initialValue serializer deserializer
                         items acc quota)
           (fun _ => steps_synced key initialValue serializer deserializer
                                  evs)).
  reflexivity.
Qed.

(** What a mounted instance does with a storage event for its key whose
    value deserializes. *)
Lemma storage_event_synced (st : St) newValue v :
  synced initialValue st -> deserializer newValue = Some v ->
  exists h' w',
    step key initialValue serializer deserializer
         (StorageEvent (Some key) (Some newValue)) st = (Ok tt, (h', w'))
    /\ content (storedValue h') = v
    /\ log w' = log st.2 ++
         match serializer v with
         | Some s => SetItem key s ::
                     (if accessible st.2 && quota_ok st.2 then []
                      else [ConsoleError])
         | None => [ConsoleError]
         end
    /\ localStorage w' =
         match serializer v with
         | Some s => if accessible st.2 && quota_ok st.2
                     then <[key := s]> (localStorage st.2)
                     else localStorage st.2
         | None => localStorage st.2
         end.
Proof.
  destruct st as [[sv hyd fr [rr rb] lis] w].
  intros (Hf & Hh & Hl & Hr & Hsame & Hheap & Hreads & Hrbw) Hv.
  unfold heap_ok in Hheap. simpl in *. injection Hr as -> ->. subst.
  unfold step, rerender, write_effect. hook_unfold. simpl.
  rewrite str_eqb_refl, Hv. simpl.
  rewrite bool_decide_eq_false_2 by lia. simpl.
  destruct (serializer v) as [s|]; simpl.
  - destruct (accessible w), (quota_ok w); simpl; eexists _, _;
      (split; [reflexivity|]); simpl; rewrite <- ?app_assoc; done.
  - eexists _, _. (split; [reflexivity|]); simpl. done.
Qed.

(** C7 (amended): when a mounted instance receives a storage event for
    its key with a new serialized value that deserializes, it replaces
    its in-memory state by the deserialized value, without throwing; the
    write effect then runs for the new state and writes the value back,
    serialized again (a failure to serialize or to write is logged). *)
Theorem C7_storage_event_replaces_state_then_writes_back
    (evs : list (event (T:=T))) (items : gmap jsstring jsstring)
    (acc quota : bool) (newValue : jsstring) (v : T) :
  deserializer newValue = Some v ->
  let st := (life key initialValue serializer deserializer evs
               (initial_hook initialValue,
                initial_world initialValue items acc quota)).2 in
  exists h' w',
    step key initialValue serializer deserializer
         (StorageEvent (Some key) (Some newValue)) st = (Ok tt, (h', w'))
    /\ content (storedValue h') = v
    /\ log w' = log st.2 ++
         match serializer v with
         | Some s => SetItem key s ::
                     (if accessible st.2 && quota_ok st.2 then []
                      else [ConsoleError])
         | None => [ConsoleError]
         end
    /\ localStorage w' =
         match serializer v with
         | Some s => if accessible st.2 && quota_ok st.2
                     then <[key := s]> (localStorage st.2)
                     else localStorage st.2
         | None => localStorage st.2
         end.
Proof.
  intros Hv st. apply storage_event_synced; [|done].
  pose proof (life_synced evs items acc quota) as H. subst st.
  by destruct (life _ _ _ _ _ _) as [[[]|] st'].
Qed.

(** C8: when the stored string fails to deserialize, mounting catches
    the failure: nothing is thrown, the instance ends in the state it
    ends in when the key is absent, and that state holds the
    caller-supplied default.  The first effect throws in no state at
    all, and [safeJsonParse] returns its fallback. *)
Theorem C8_deserialization_failure_is_absent_data
    (items : gmap jsstring jsstring) (item : jsstring) (acc quota : bool) :
  items !! key = Some item ->
  deserializer item = None ->
  let failed := mount key serializer deserializer
                  (initial_hook initialValue,
                   initial_world initialValue items acc quota) in
  let absent := mount key serializer deserializer
                  (initial_hook initialValue,
                   initial_world initialValue (delete key items) acc quota) in
  failed.1 = Ok tt
  /\ absent.1 = Ok tt
  /\ failed.2.1 = absent.2.1
  /\ storedValue failed.2.1 = initialValue
  /\ isHydrated failed.2.1 = true
  /\ (forall st, (hydration_effect key deserializer st).1 = Ok tt)
  /\ (forall fallback, safeJsonParse deserializer item fallback = fallback).
Proof.
  intros Hitem Hfail failed absent. subst failed absent.
  assert (Hstates :
    forall (it : gmap jsstring jsstring),
      (forall s, truthy (it !! key) = Some s -> deserializer s = None) ->
      exists w',
        mount key serializer deserializer
          (initial_hook initialValue, initial_world initialValue it acc quota)
        = (Ok tt, (mkHook initialValue true false (initialValue, true) true,
                   w'))).
  { intros it Hit. unfold mount, rerender, write_effect, initial_hook,
      initial_world. hook_unfold. simpl.
    destruct acc; simpl.
    - destruct (truthy (it !! key)) as [s|] eqn:Es; simpl.
      + rewrite (Hit s eq_refl). simpl.
        rewrite (bool_decide_eq_true_2 _ eq_refl). simpl.
        destruct (serializer _); simpl; [destruct quota; simpl|];
          by eexists.
      + rewrite (bool_decide_eq_true_2 _ eq_refl). simpl.
        destruct (serializer _); simpl; [destruct quota; simpl|];
          by eexists.
    - rewrite (bool_decide_eq_true_2 _ eq_refl). simpl.
      destruct (serializer _); simpl; by eexists. }
  destruct (Hstates items) as [w1 ->].
  { rewrite Hitem. intros s Hs. destruct item; simplify_eq/=. done. }
  destruct (Hstates (delete key items)) as [w2 ->].
  { rewrite lookup_delete_eq. done. }
  simpl. repeat split.
  - intros [[sv hyd fr rr lis] w]. hook_unfold. simpl.
    destruct fr; [|done]. simpl.
    destruct (accessible w); simpl; [|done].
    destruct (truthy _) as [j|]; simpl; [|done].
    by destruct (deserializer j).
  - intros fallback. unfold safeJsonParse. by rewrite Hfail.
Qed.

(** Mounting over a stored string that deserializes. *)
Lemma mount_persisted items item v quota :
  items !! key = Some item -> item <> [] -> deserializer item = Some v ->
  mount key serializer deserializer
    (initial_hook initialValue, initial_world initialValue items true quota)
  = (Ok tt,
     (mkHook (mkRef (S (addr initialValue)) v) true false
             (mkRef (S (addr initialValue)) v, true) true,
      mkWorld
        match serializer v with
        | Some s => if quota then <[key := s]> items else items
        | None => items
        end
        true quota (S (S (addr initialValue)))
        (GetItem key ::
           match serializer v with
           | Some s => SetItem key s :: (if quota then [] else [ConsoleError])
           | None => [ConsoleError]
           end))).
Proof.
  intros Hitem Hne Hv.
  unfold mount, rerender, write_effect, initial_hook, initial_world.
  hook_unfold. simpl. rewrite Hitem.
  destruct item as [|c item]; [done|]. simpl. rewrite Hv. simpl.
  rewrite bool_decide_eq_false_2 by lia. simpl.
  destruct (serializer v) as [s|]; simpl; [destruct quota; simpl|]; done.
Qed.

(** Mounting over a storage that cannot be used: nothing is stored. *)
Lemma mount_inaccessible items quota :
  exists h' w',
    mount key serializer deserializer
      (initial_hook initialValue, initial_world initialValue items false quota)
    = (Ok tt, (h', w'))
    /\ storedValue h' = initialValue
    /\ isHydrated h' = true
    /\ localStorage w' = items.
Proof.
  unfold mount, rerender, write_effect, initial_hook, initial_world.
  hook_unfold. simpl.
  rewrite (bool_decide_eq_true_2 _ eq_refl). simpl.
  destruct (serializer (content initialValue)) as [s|]; simpl;
    eexists _, _; (split; [reflexivity|]); done.
Qed.

(** Mounting over absent data: no item, an empty one, or one that does
    not deserialize.  The instance keeps the default, and the write
    effect stores it. *)
Lemma mount_absent_data items quota :
  truthy (items !! key) = None
  \/ (exists item, truthy (items !! key) = Some item
                   /\ deserializer item = None) ->
  exists h' w',
    mount key serializer deserializer
      (initial_hook initialValue, initial_world initialValue items true quota)
    = (Ok tt, (h', w'))
    /\ storedValue h' = initialValue
    /\ isHydrated h' = true
    /\ log w' = GetItem key ::
         match truthy (items !! key) with
         | Some _ => [ConsoleError]
         | None => []
         end ++
         match serializer (content initialValue) with
         | Some s => SetItem key s :: (if quota then [] else [ConsoleError])
         | None => [ConsoleError]
         end
    /\ localStorage w' =
         match serializer (content initialValue) with
         | Some s => if quota then <[key := s]> items else items
         | None => items
         end.
Proof.
  intros H.
  unfold mount, rerender, write_effect, initial_hook, initial_world.
  hook_unfold. simpl.
  destruct H as [-> | (item & -> & Hfail)]; simpl; rewrite ?Hfail; simpl;
    rewrite (bool_decide_eq_true_2 _ eq_refl); simpl;
    (destruct (serializer (content initialValue)) as [s|]; simpl;
     [destruct quota; simpl|]); eexists _, _; (split; [reflexivity|]); done.
Qed.

(** C10: in every life of an instance, whatever events reach it and
    however often the first effect fires again, nothing is thrown, the
    storage is read exactly once, and every write to it comes after that
    read; and in whatever order and number the effects, renders and
    callbacks of an instance run, the storage is read at most once and
    written only after it has been read.  So a persisted value, a
    non-empty stored string that deserializes, is not overwritten by the
    default when the instance mounts: the instance takes the
    deserialized value, the one write of the startup writes that value,
    serialized again, and when the storage cannot be used nothing is
    stored.  When the stored string is what the serializer gives for the
    value it deserializes to, as for every string the instance has
    stored itself, the storage after mounting is the storage before. *)
Theorem C10_one_read_before_any_write
    (evs : list (event (T:=T))) (items : gmap jsstring jsstring)
    (acc quota : bool) :
  match life key initialValue serializer deserializer evs
          (initial_hook initialValue,
           initial_world initialValue items acc quota) with
  | (Ok _, st) =>
      reads (log st.2) = 1%nat /\ reads_before_writes (log st.2)
  | (Throw, _) => False
  end
  /\ (forall l : list (action (T:=T)),
        match acts key initialValue serializer deserializer l
                (initial_hook initialValue,
                 initial_world initialValue items acc quota) with
        | (Ok _, st) =>
            (reads (log st.2) <= 1)%nat /\ reads_before_writes (log st.2)
        | (Throw, _) => False
        end)
  /\ (forall item v,
        items !! key = Some item -> item <> [] ->
        deserializer item = Some v ->
        exists h' w',
          mount key serializer deserializer
            (initial_hook initialValue,
             initial_world initialValue items acc quota) = (Ok tt, (h', w'))
          /\ isHydrated h' = true
          /\ (acc = true ->
              content (storedValue h') = v
              /\ log w' = GetItem key ::
                   match serializer v with
                   | Some s => SetItem key s ::
                               (if quota then [] else [ConsoleError])
                   | None => [ConsoleError]
                   end)
          /\ localStorage w' =
               (if acc
                then match serializer v with
                     | Some s => if quota then <[key := s]> items else items
                     | None => items
                     end
                else items)
          /\ (serializer v = Some item -> localStorage w' = items)).
Proof.
  split; [|split].
  - pose proof (life_synced evs items acc quota) as H.
    destruct (life _ _ _ _ _ _) as [[[]|] st]; [|done].
    by destruct H as (_ & _ & _ & _ & _ & _ & ? & ?).
  - intros l. apply any_schedule_read_guarded.
  - intros item v Hitem Hne Hv. destruct acc.
    + rewrite (mount_persisted items item v quota Hitem Hne Hv).
      eexists _, _. split; [reflexivity|]. cbn [isHydrated localStorage
        storedValue content log]. repeat split.
      intros ->. destruct quota; [|done]. by apply insert_id.
    + destruct (mount_inaccessible items quota)
        as (h' & w' & -> & _ & Hh & Hls).
      exists h', w'. repeat split; try done.
Qed.
End hook_claims.
(** ** JSON: strings *)

Local Open Scope N_scope.

Lemma hex_value_hex_digit d : d < 16 -> hex_value (hex_digit d) = Some d.
Proof.
  intros Hd. unfold hex_digit, hex_value.
  destruct (N.ltb_spec d 10).
  - replace ((48 <=? 48 + d) && (48 + d <=? 57))%N with true.
    + f_equal. lia.
    + symmetry. apply andb_true_iff. split; apply N.leb_le; lia.
  - replace ((48 <=? 87 + d) && (87 + d <=? 57))%N with false.
    + replace ((97 <=? 87 + d) && (87 + d <=? 102))%N with true.
      * f_equal. lia.
      * symmetry. apply andb_true_iff. split; apply N.leb_le; lia.
    + symmetry. apply andb_false_iff. right. apply N.leb_gt. lia.
Qed.

Lemma hex4_unicode_escape c :
  c < 65536 ->
  hex4 (hex_digit (c / 4096 mod 16)) (hex_digit (c / 256 mod 16))
       (hex_digit (c / 16 mod 16)) (hex_digit (c mod 16)) = Some c.
Proof.
  intros Hc. unfold hex4.
  rewrite !hex_value_hex_digit by (apply N.mod_lt; lia).
  f_equal.
  assert (E1 : c / 16 / 16 = c / 256) by (by rewrite N.Div0.div_div).
  assert (E2 : c / 256 / 16 = c / 4096) by (by rewrite N.Div0.div_div).
  pose proof (N.div_mod c 16 ltac:(lia)) as H0.
  pose proof (N.div_mod (c / 16) 16 ltac:(lia)) as H1.
  pose proof (N.div_mod (c / 256) 16 ltac:(lia)) as H2.
  rewrite E1 in H1. rewrite E2 in H2.
  assert (H3 : c / 4096 < 16) by (apply N.Div0.div_lt_upper_bound; lia).
  rewrite (N.mod_small (c / 4096) 16) by done.
  lia.
Qed.

(** What [parse_string_body] does with a character it takes as it is. *)
Lemma parse_string_body_literal c r :
  c <> 34 -> c <> 92 -> 32 <= c ->
  parse_string_body (c :: r) =
  match parse_string_body r with
  | Some (str, rest) => Some (c :: str, rest)
  | None => None
  end.
Proof.
  intros H1 H2 H3. cbn [parse_string_body].
  rewrite (proj2 (N.eqb_neq c 34) H1), (proj2 (N.eqb_neq c 92) H2).
  by rewrite (proj2 (N.ltb_ge c 32) H3).
Qed.

Lemma parse_string_body_unicode c r :
  c < 65536 ->
  parse_string_body (unicode_escape c ++ r) =
  match parse_string_body r with
  | Some (str, rest) => Some (c :: str, rest)
  | None => None
  end.
Proof.
  intros Hc. unfold unicode_escape. cbn [app parse_string_body].
  change (92 =? 34) with false. change (92 =? 92) with true.
  change (117 =? 117) with true. cbv beta iota.
  by rewrite hex4_unicode_escape.
Qed.

Lemma parse_string_body_quote_unit c r :
  parse_string_body (quote_unit c ++ r) =
  match parse_string_body r with
  | Some (str, rest) => Some (c :: str, rest)
  | None => None
  end.
Proof.
  unfold quote_unit.
  repeat match goal with
         | |- context [?a =? ?b] =>
             destruct (N.eqb_spec a b) as [->|?]; [reflexivity|]
         end.
  destruct (c <? 32) eqn:E1; simpl.
  { apply parse_string_body_unicode. apply N.ltb_lt in E1. lia. }
  destruct (is_leading_surrogate c) eqn:E2; simpl.
  { apply parse_string_body_unicode. unfold is_leading_surrogate in E2.
    apply andb_true_iff in E2 as [_ E2]. apply N.leb_le in E2. lia. }
  destruct (is_trailing_surrogate c) eqn:E3; simpl.
  { apply parse_string_body_unicode. unfold is_trailing_surrogate in E3.
    apply andb_true_iff in E3 as [_ E3]. apply N.leb_le in E3. lia. }
  apply parse_string_body_literal; [done | done |].
  apply N.ltb_ge in E1. done.
Qed.

Lemma surrogate_literal c :
  is_leading_surrogate c || is_trailing_surrogate c = true ->
  c <> 34 /\ c <> 92 /\ 32 <= c.
Proof.
  unfold is_leading_surrogate, is_trailing_surrogate.
  rewrite orb_true_iff, !andb_true_iff, !N.leb_le. lia.
Qed.

Lemma quote_body_cons c d r :
  quote_body (c :: d :: r) =
  if is_leading_surrogate c && is_trailing_surrogate d
  then c :: d :: quote_body r
  else quote_unit c ++ quote_body (d :: r).
Proof. reflexivity. Qed.

(** Reading back a quoted string. *)
Lemma parse_string_body_quote_body s rest :
  parse_string_body (quote_body s ++ 34 :: rest) = Some (s, rest).
Proof.
  remember (length s) as n eqn:Hn.
  revert s Hn. induction (lt_wf n) as [n _ IH]. intros s Hn.
  destruct s as [|c [|d r]].
  - reflexivity.
  - cbn [quote_body]. rewrite parse_string_body_quote_unit. reflexivity.
  - rewrite quote_body_cons.
    destruct (is_leading_surrogate c && is_trailing_surrogate d) eqn:E.
    + apply andb_true_iff in E as [Ec Ed].
      destruct (surrogate_literal c) as (? & ? & ?); [by rewrite Ec|].
      destruct (surrogate_literal d) as (? & ? & ?);
        [by rewrite Ed, orb_true_r|].
      cbn [app]. rewrite !parse_string_body_literal by done.
      rewrite (IH (length r)); [done | simpl in Hn; lia | done].
    + rewrite <- app_assoc, parse_string_body_quote_unit.
      rewrite (IH (length (d :: r))); [done | simpl in *; lia | done].
Qed.
Local Close Scope N_scope.
Local Open Scope nat_scope.

(** ** JSON: values *)

Lemma json_nested_ind (P : json -> Prop) :
  P JNull -> (forall b, P (JBool b)) -> (forall l, P (JNumber l)) ->
  (forall s, P (JString s)) ->
  (forall vs, Forall P vs -> P (JArray vs)) ->
  (forall ms, Forall (fun m => P m.2) ms -> P (JObject ms)) ->
  forall v, P v.
Proof.
  intros Hnull Hbool Hnum Hstr Harr Hobj.
  fix IH 1. intros [|b|l|s|vs|ms].
  - exact Hnull.
  - apply Hbool.
  - apply Hnum.
  - apply Hstr.
  - apply Harr. induction vs as [|v vs IHvs]; constructor; [apply IH | exact IHvs].
  - apply Hobj. induction ms as [|[k v] ms IHms]; constructor;
      [apply IH | exact IHms].
Qed.

(** The first character of a value that is not a number: no white space,
    no closing bracket or brace. *)
Lemma JSON_stringify_head v :
  number_free v = true ->
  exists c s, JSON_stringify v = c :: s /\ is_ws c = false
              /\ c <> 93%N /\ c <> 125%N.
Proof.
  destruct v as [|[|]|l|s|vs|ms]; intros Hv; try discriminate;
    eexists _, _; (split; [reflexivity|]); by repeat split.
Qed.

Lemma parse_value_string f r :
  parse_value (S f) (34%N :: r) =
  match parse_string_body r with
  | Some (str, rest) => Some (JString str, rest)
  | None => None
  end.
Proof. reflexivity. Qed.

Lemma parse_value_array_empty f rest :
  parse_value (S f) (91%N :: 93%N :: rest) = Some (JArray [], rest).
Proof. reflexivity. Qed.

Lemma parse_value_object_empty f rest :
  parse_value (S f) (123%N :: 125%N :: rest) = Some (JObject [], rest).
Proof. reflexivity. Qed.

Lemma skip_ws_head c r : is_ws c = false -> skip_ws (c :: r) = c :: r.
Proof. intros H. simpl. by rewrite H. Qed.

Lemma parse_value_array f c r :
  is_ws c = false -> c <> 93%N ->
  parse_value (S f) (91%N :: c :: r) =
  match parse_elements f (c :: r) with
  | Some (vs, rest) => Some (JArray vs, rest)
  | None => None
  end.
Proof.
  intros Hws Hc. cbn [parse_value]. rewrite (skip_ws_head 91) by done.
  change (91 =? 34)%N with false. change (91 =? 91)%N with true.
  cbv beta iota. rewrite (skip_ws_head c) by done.
  by rewrite (proj2 (N.eqb_neq c 93) Hc).
Qed.

Lemma parse_value_object f c r :
  is_ws c = false -> c <> 125%N ->
  parse_value (S f) (123%N :: c :: r) =
  match parse_members f (c :: r) with
  | Some (ms, rest) => Some (JObject ms, rest)
  | None => None
  end.
Proof.
  intros Hws Hc. cbn [parse_value]. rewrite (skip_ws_head 123) by done.
  change (123 =? 34)%N with false. change (123 =? 91)%N with false.
  change (123 =? 123)%N with true.
  cbv beta iota. rewrite (skip_ws_head c) by done.
  by rewrite (proj2 (N.eqb_neq c 125) Hc).
Qed.

Lemma parse_elements_S f s :
  parse_elements (S f) s =
  match parse_value f s with
  | Some (v, r) =>
      match skip_ws r with
      | c :: r' =>
          if (c =? 44)%N then
            match parse_elements f r' with
            | Some (vs, rest) => Some (v :: vs, rest)
            | None => None
            end
          else if (c =? 93)%N then Some ([v], r')
          else None
      | [] => None
      end
  | None => None
  end.
Proof. reflexivity. Qed.

Lemma parse_members_S f r :
  parse_members (S f) (34%N :: r) =
  match parse_string_body r with
  | Some (k, r1) =>
      match skip_ws r1 with
      | c1 :: r2 =>
          if (c1 =? 58)%N then
            match parse_value f r2 with
            | Some (v, r3) =>
                match skip_ws r3 with
                | c3 :: r4 =>
                    if (c3 =? 44)%N then
                      match parse_members f r4 with
                      | Some (ms, rest) => Some ((k, v) :: ms, rest)
                      | None => None
                      end
                    else if (c3 =? 125)%N then Some ([(k, v)], r4)
                    else None
                | [] => None
                end
            | None => None
            end
          else None
      | [] => None
      end
  | None => None
  end.
Proof. reflexivity. Qed.

Lemma join_comma_cons x y l :
  join_comma (x :: y :: l) = x ++ [44%N] ++ join_comma (y :: l).
Proof. reflexivity. Qed.

Lemma join_comma_cons_ne x l :
  l <> [] -> join_comma (x :: l) = x ++ [44%N] ++ join_comma l.
Proof. by destruct l. Qed.

(** Reading back the elements of an array, given that each reads back. *)
Lemma parse_elements_stringify vs :
  Forall (fun v => forall fuel rest, json_size v <= fuel ->
            parse_value fuel (JSON_stringify v ++ rest) = Some (v, rest)) vs ->
  vs <> [] ->
  forall f rest,
    sum_list_with (fun e => S (json_size e)) vs <= f ->
    parse_elements f (join_comma (JSON_stringify <$> vs) ++ 93%N :: rest)
    = Some (vs, rest).
Proof.
  induction 1 as [|v vs Hv Hvs IH]; [done|]. intros _ f rest Hf.
  cbn [sum_list_with] in Hf.
  destruct f as [|f]; [lia|]. rewrite parse_elements_S.
  destruct vs as [|v' vs].
  - cbn [fmap list_fmap join_comma]. rewrite Hv by lia. reflexivity.
  - rewrite !fmap_cons, join_comma_cons, <- !app_assoc.
    rewrite Hv by lia. cbn [app skip_ws]. change (is_ws 44) with false.
    cbv beta iota. change (44 =? 44)%N with true. cbv beta iota.
    rewrite <- fmap_cons, IH; [done | done | lia].
Qed.

(** Reading back the members of an object, given that each value reads
    back. *)
Lemma parse_members_stringify ms :
  Forall (fun m : jsstring * json => forall fuel rest,
            json_size m.2 <= fuel ->
            parse_value fuel (JSON_stringify m.2 ++ rest) = Some (m.2, rest))
         ms ->
  ms <> [] ->
  forall f rest,
    sum_list_with (fun m : jsstring * json => S (json_size m.2)) ms <= f ->
    parse_members f
      (join_comma ((fun m : jsstring * json =>
                      QuoteJSONString m.1 ++ [58%N] ++ JSON_stringify m.2)
                   <$> ms) ++ 125%N :: rest)
    = Some (ms, rest).
Proof.
  induction 1 as [|[k v] ms Hv Hms IH]; [done|]. intros _ f rest Hf.
  cbn [sum_list_with snd] in Hf. simpl in Hv.
  destruct f as [|f]; [lia|].
  rewrite fmap_cons. cbn [fst snd]. unfold QuoteJSONString at 1.
  destruct (decide (ms = [])) as [->|Hne].
  - cbn [fmap list_fmap join_comma].
    rewrite <- !app_assoc. cbn [app]. rewrite parse_members_S.
    rewrite parse_string_body_quote_body.
    cbn [skip_ws]. change (is_ws 58) with false. cbv beta iota.
    change (58 =? 58)%N with true. cbv beta iota.
    rewrite Hv by lia. reflexivity.
  - rewrite join_comma_cons_ne by (by destruct ms).
    rewrite <- !app_assoc. cbn [app]. rewrite parse_members_S.
    rewrite parse_string_body_quote_body.
    cbn [skip_ws]. change (is_ws 58) with false. cbv beta iota.
    change (58 =? 58)%N with true. cbv beta iota.
    rewrite Hv by lia. cbn [skip_ws]. change (is_ws 44) with false.
    cbv beta iota. change (44 =? 44)%N with true. cbv beta iota.
    rewrite IH; [done | done | lia].
Qed.

Lemma forallb_Forall {A} (f : A -> bool) l :
  forallb f l = true <-> Forall (fun x => f x = true) l.
Proof.
  induction l as [|x l IH]; simpl.
  - split; [constructor | done].
  - rewrite andb_true_iff, IH. split.
    + intros [? ?]. by constructor.
    + intros H. by inversion H.
Qed.

(** Reading back a value: enough fuel gives the value and what follows. *)
Lemma parse_value_stringify v :
  number_free v = true ->
  forall fuel rest,
    json_size v <= fuel ->
    parse_value fuel (JSON_stringify v ++ rest) = Some (v, rest).
Proof.
  induction v as [|b|l|s|vs IH|ms IH] using json_nested_ind;
    intros Hnf fuel rest Hfuel;
    (destruct fuel as [|f]; [simpl in Hfuel; lia|]).
  - reflexivity.
  - by destruct b.
  - discriminate.
  - cbn [JSON_stringify]. unfold QuoteJSONString. rewrite <- !app_assoc.
    cbn [app]. rewrite parse_value_string.
    by rewrite parse_string_body_quote_body.
  - cbn [JSON_stringify number_free json_size] in *.
    rewrite <- !app_assoc. cbn [app].
    destruct vs as [|v vs]; [apply parse_value_array_empty|].
    assert (Hall : Forall (fun v => number_free v = true) (v :: vs))
      by (by apply forallb_Forall in Hnf).
    destruct (JSON_stringify_head v) as (c & s & Hs & Hws & Hc & _).
    { by inversion Hall. }
    assert (Hparse : parse_elements f
              (join_comma (JSON_stringify <$> v :: vs) ++ 93%N :: rest)
              = Some (v :: vs, rest)).
    { apply parse_elements_stringify; [|done|lia].
      rewrite Forall_forall in IH, Hall |- *. intros x Hx. by apply IH, Hall. }
    revert Hparse. rewrite fmap_cons, Hs.
    destruct vs; cbn [fmap list_fmap join_comma app];
      intros Hparse; rewrite parse_value_array by done; by rewrite Hparse.
  - cbn [JSON_stringify number_free json_size] in *.
    rewrite <- !app_assoc. cbn [app].
    destruct ms as [|m ms]; [apply parse_value_object_empty|].
    assert (Hall : Forall (fun m : jsstring * json => number_free m.2 = true)
                          (m :: ms))
      by (by apply forallb_Forall in Hnf).
    assert (Hparse : parse_members f
              (join_comma ((fun m : jsstring * json =>
                              QuoteJSONString m.1 ++ [58%N]
                              ++ JSON_stringify m.2) <$> m :: ms)
               ++ 125%N :: rest)
              = Some (m :: ms, rest)).
    { apply parse_members_stringify; [|done|lia].
      rewrite Forall_forall in IH, Hall |- *. intros x Hx. by apply IH, Hall. }
    revert Hparse. rewrite fmap_cons. unfold QuoteJSONString.
    destruct ms; cbn [fmap list_fmap join_comma app];
      intros Hparse; rewrite parse_value_object by done; by rewrite Hparse.
Qed.

Lemma length_join_comma {A} (g : A -> jsstring) (m : A -> nat) l :
  Forall (fun x => m x <= length (g x)) l ->
  sum_list_with (fun x => S (m x)) l <= S (length (join_comma (g <$> l))).
Proof.
  induction 1 as [|x l Hx Hl IH]; [simpl; lia|].
  destruct (decide (l = [])) as [->|Hne].
  - simpl. lia.
  - rewrite fmap_cons, join_comma_cons_ne by (by destruct l).
    cbn [sum_list_with]. rewrite !length_app. simpl. lia.
Qed.

(** The text of a value has at least as many characters as the value has
    values: the fuel [JSON_parse] gives is enough. *)
Lemma json_size_le_length v :
  number_free v = true -> json_size v <= length (JSON_stringify v).
Proof.
  induction v as [|b|l|s|vs IH|ms IH] using json_nested_ind; intros Hnf.
  - simpl. lia.
  - destruct b; simpl; lia.
  - discriminate.
  - cbn [JSON_stringify json_size]. unfold QuoteJSONString.
    rewrite !length_app. simpl. lia.
  - cbn [JSON_stringify json_size number_free] in *.
    apply forallb_Forall in Hnf.
    rewrite !length_app. cbn [length].
    pose proof (length_join_comma JSON_stringify json_size vs) as H.
    assert (Hall : Forall (fun x => json_size x <= length (JSON_stringify x)) vs).
    { rewrite Forall_forall in IH, Hnf |- *. intros x Hx. by apply IH, Hnf. }
    specialize (H Hall). lia.
  - cbn [JSON_stringify json_size number_free] in *.
    apply forallb_Forall in Hnf.
    rewrite !length_app. cbn [length].
    pose proof (length_join_comma
      (fun m : jsstring * json =>
         QuoteJSONString m.1 ++ [58%N] ++ JSON_stringify m.2)
      (fun m => json_size m.2) ms) as H.
    assert (Hall : Forall (fun m : jsstring * json =>
      json_size m.2 <= length (QuoteJSONString m.1 ++ [58%N]
                               ++ JSON_stringify m.2)) ms).
    { rewrite Forall_forall in IH, Hnf |- *. intros x Hx.
      rewrite !length_app. specialize (IH x Hx (Hnf x Hx)). lia. }
    specialize (H Hall). lia.
Qed.

(** [JSON.parse(JSON.stringify(v))] is [v], for a value without numbers. *)
Lemma JSON_parse_stringify v :
  number_free v = true -> JSON_parse (JSON_stringify v) = Some v.
Proof.
  intros Hnf. unfold JSON_parse.
  pose proof (parse_value_stringify v Hnf (S (length (JSON_stringify v))) [])
    as H.
  rewrite app_nil_r in H. rewrite H; [done|].
  pose proof (json_size_le_length v Hnf). lia.
Qed.

(** ** JSON: boards *)

Lemma number_free_array {A} (f : A -> json) (l : list A) :
  (forall x, number_free (f x) = true) ->
  number_free (JArray (f <$> l)) = true.
Proof.
  intros Hf. cbn [number_free]. apply forallb_Forall.
  apply Forall_fmap, Forall_true. intros x. apply Hf.
Qed.

Lemma number_free_Comment c : number_free (json_of_Comment c) = true.
Proof. reflexivity. Qed.

Lemma number_free_Card c : number_free (json_of_Card c) = true.
Proof.
  unfold json_of_Card.
  pose proof (number_free_array json_of_Comment (card_comments c)
                number_free_Comment) as H.
  destruct (card_description c); cbn [number_free app forallb snd] in *;
    by rewrite H.
Qed.

Lemma number_free_List l : number_free (json_of_List l) = true.
Proof.
  unfold json_of_List.
  pose proof (number_free_array json_of_Card (list_cards l) number_free_Card)
    as H.
  cbn [number_free forallb snd] in *. by rewrite H.
Qed.

Lemma number_free_Board b : number_free (json_of_Board b) = true.
Proof.
  unfold json_of_Board.
  pose proof (number_free_array json_of_List (board_lists b) number_free_List)
    as H.
  cbn [number_free forallb snd] in *. by rewrite H.
Qed.

Lemma fmap_inj_eq {A B} (f : A -> B) (l l' : list A) :
  (forall x y, f x = f y -> x = y) -> f <$> l = f <$> l' -> l = l'.
Proof.
  intros Hf. revert l'. induction l as [|x l IH]; intros [|y l'] H;
    simplify_eq/=; [done|]. f_equal; [by apply Hf | by apply IH].
Qed.

Lemma json_of_Comment_inj c c' :
  json_of_Comment c = json_of_Comment c' -> c = c'.
Proof. destruct c, c'. unfold json_of_Comment. simpl. congruence. Qed.

Lemma json_of_Card_inj c c' : json_of_Card c = json_of_Card c' -> c = c'.
Proof.
  destruct c as [i t d cs ca], c' as [i' t' d' cs' ca'].
  unfold json_of_Card. simpl.
  destruct d, d'; simpl; intros H; simplify_eq/=;
    match goal with
    | H : json_of_Comment <$> _ = json_of_Comment <$> _ |- _ =>
        apply (fmap_inj_eq _ _ _ json_of_Comment_inj) in H; by subst
    end.
Qed.

Lemma json_of_List_inj l l' : json_of_List l = json_of_List l' -> l = l'.
Proof.
  destruct l as [i t cs], l' as [i' t' cs']. unfold json_of_List. simpl.
  intros H. simplify_eq/=.
  match goal with
  | H : json_of_Card <$> _ = json_of_Card <$> _ |- _ =>
      apply (fmap_inj_eq _ _ _ json_of_Card_inj) in H; by subst
  end.
Qed.

Lemma json_of_Board_inj (b b' : Board) :
  json_of_Board b = json_of_Board b' -> b = b'.
Proof.
  destruct b as [i t ls ca ua], b' as [i' t' ls' ca' ua'].
  unfold json_of_Board. simpl. intros H. simplify_eq/=.
  match goal with
  | H : json_of_List <$> _ = json_of_List <$> _ |- _ =>
      apply (fmap_inj_eq _ _ _ json_of_List_inj) in H; by subst
  end.
Qed.

(* ===================================================================== *)
(** ** Round trip of a board through the storage format *)
(* ===================================================================== *)

(** C9: for every board, [JSON.parse(JSON.stringify(board))] returns a
    value, and that value is the board, field for field: it is the JSON
    value of this board and of no other. *)
Theorem C9_board_round_trip (b : Board) :
  JSON_parse (JSON_stringify (json_of_Board b)) = Some (json_of_Board b)
  /\ (forall b' : Board,
        JSON_parse (JSON_stringify (json_of_Board b)) = Some (json_of_Board b')
        -> b' = b).
Proof.
  rewrite (JSON_parse_stringify _ (number_free_Board b)).
  split; [done|]. intros b' H. apply json_of_Board_inj. congruence.
Qed.

(* ===================================================================== *)
(** ** The hook of the board, on concrete storages *)
(* ===================================================================== *)

(** C7, as the specification states it, fails: an instance that has
    mounted over an empty storage and receives the board retitled "X" in
    a storage event takes it as its state, and then writes it to the
    storage itself. *)
Lemma C7_received_value_is_written_back :
  let st0 := (life board_key default_value default_serializer JSON_parse []
                   (board_instance ∅)).2 in
  let st1 := (step board_key default_value default_serializer JSON_parse
                   (StorageEvent (Some board_key)
                                 (Some (JSON_stringify board_X))) st0).2 in
  content (storedValue st1.1) = board_X
  /\ log st1.2 = log st0.2 ++ [SetItem board_key (JSON_stringify board_X)].
Proof. vm_compute. split; reflexivity. Qed.

Lemma C7_storage_event_witness :
  exists h' w',
    step board_key default_value default_serializer JSON_parse
         (StorageEvent (Some board_key) (Some (JSON_stringify board_X)))
         (life board_key default_value default_serializer JSON_parse []
               (board_instance ∅)).2
    = (Ok tt, (h', w'))
    /\ content (storedValue h') = board_X.
Proof.
  assert (Hv : JSON_parse (JSON_stringify board_X) = Some board_X)
    by (vm_compute; reflexivity).
  destruct (C7_storage_event_replaces_state_then_writes_back
              board_key default_value default_serializer JSON_parse
              [] ∅ true true (JSON_stringify board_X) board_X Hv)
    as (h' & w' & Hstep & Hc & _).
  exists h', w'. split; [exact Hstep | exact Hc].
Defined.

Lemma C8_deserialization_failure_witness :
  (mount board_key default_serializer JSON_parse
         (board_instance {[ board_key := js "{bad" ]})).1 = Ok tt
  /\ storedValue
       (mount board_key default_serializer JSON_parse
              (board_instance {[ board_key := js "{bad" ]})).2.1
     = default_value.
Proof.
  assert (Hitem : ({[ board_key := js "{bad" ]} : gmap jsstring jsstring)
                  !! board_key = Some (js "{bad"))
    by apply lookup_singleton_eq.
  assert (Hfail : JSON_parse (js "{bad") = None) by reflexivity.
  destruct (C8_deserialization_failure_is_absent_data
              board_key default_value default_serializer JSON_parse
              {[ board_key := js "{bad" ]} (js "{bad") true true Hitem Hfail)
    as (Hok & _ & _ & Hsv & _).
  split; [exact Hok | exact Hsv].
Defined.

(** A stored string that does not parse is absent data for the hook of
    the board: mounting leaves the serialized default board under the
    key. *)
Lemma unreadable_item_is_absent_data :
  JSON_parse (js "{bad") = None
  /\ localStorage
       (mount board_key default_serializer JSON_parse
              (board_instance {[ board_key := js "{bad" ]})).2.2
     !! board_key
     = Some (JSON_stringify (json_of_Board default_board)).
Proof. split; [reflexivity | by vm_compute]. Qed.

(** The hook of the board mounts over the board retitled "X", which an
    instance has stored: it takes the board as its state, writes it
    again, and the storage is as it was. *)
Lemma C10_one_read_witness :
  exists h' w',
    mount board_key default_serializer JSON_parse
          (board_instance {[ board_key := JSON_stringify board_X ]})
    = (Ok tt, (h', w'))
    /\ content (storedValue h') = board_X
    /\ log w' = [GetItem board_key;
                 SetItem board_key (JSON_stringify board_X)]
    /\ localStorage w' = {[ board_key := JSON_stringify board_X ]}.
Proof.
  assert (Hitem : ({[ board_key := JSON_stringify board_X ]}
                   : gmap jsstring jsstring)
                  !! board_key = Some (JSON_stringify board_X))
    by apply lookup_singleton_eq.
  assert (Hne : JSON_stringify board_X <> []) by discriminate.
  assert (Hv : JSON_parse (JSON_stringify board_X) = Some board_X)
    by (vm_compute; reflexivity).
  destruct (C10_one_read_before_any_write
              board_key default_value default_serializer JSON_parse
              [] {[ board_key := JSON_stringify board_X ]} true true)
    as (_ & _ & H).
  destruct (H (JSON_stringify board_X) board_X Hitem Hne Hv)
    as (h' & w' & Hm & _ & Hacc & _ & Hsame).
  destruct (Hacc eq_refl) as [Hc Hlog].
  exists h', w'. split; [exact Hm|]. split; [exact Hc|].
  split; [exact Hlog | exact (Hsame eq_refl)].
Defined.

(* ===================================================================== *)
(** * Further properties of the code *)
(* ===================================================================== *)

(** ** Looking up lists and cards after an operation *)

Lemma find_fmap_id {A} (idf : A -> jsstring) (f : A -> A) (ls : list A) x :
  (forall a, idf (f a) = idf a) ->
  List.find (fun a => str_eqb (idf a) x) (f <$> ls)
  = f <$> List.find (fun a => str_eqb (idf a) x) ls.
Proof.
  intros Hf. induction ls as [|a ls IH]; [done|].
  cbn [fmap list_fmap List.find]. rewrite Hf.
  destruct (str_eqb (idf a) x); [done|]. apply IH.
Qed.

Lemma find_filter_ne {A} (idf : A -> jsstring) (ls : list A) x y :
  List.find (fun a => str_eqb (idf a) x) (filter (fun a => idf a <> y) ls)
  = if str_eqb x y then None
    else List.find (fun a => str_eqb (idf a) x) ls.
Proof.
  induction ls as [|a ls IH].
  - by destruct (str_eqb x y).
  - destruct (decide (idf a <> y)) as [Hne|He].
    + rewrite filter_cons_True by done. cbn [List.find].
      destruct (str_eqb (idf a) x) eqn:E; [|apply IH].
      apply str_eqb_true in E. subst x.
      by rewrite (proj2 (str_eqb_false _ _) Hne).
    + rewrite filter_cons_False by done. rewrite IH.
      apply dec_stable in He. subst y. cbn [List.find].
      destruct (str_eqb x (idf a)) eqn:E; [done|].
      apply str_eqb_false in E.
      by rewrite (proj2 (str_eqb_false (idf a) x)) by congruence.
Qed.

Lemma find_app_Some {A} (p : A -> bool) (l l' : list A) a :
  List.find p l = Some a -> List.find p (l ++ l') = Some a.
Proof.
  induction l as [|b l IH]; [done|]. simpl. by destruct (p b).
Qed.

Lemma find_app_None {A} (p : A -> bool) (l l' : list A) :
  List.find p l = None -> List.find p (l ++ l') = List.find p l'.
Proof.
  induction l as [|b l IH]; [done|]. simpl. by destruct (p b).
Qed.

Lemma find_Some_id {A} (idf : A -> jsstring) (ls : list A) x a :
  List.find (fun a => str_eqb (idf a) x) ls = Some a -> idf a = x.
Proof.
  intros H. apply find_some in H as [_ H]. by apply str_eqb_true.
Qed.

(** [addList]: the lists that were found are found as they were; the new
    list is found when its id is new, and shadowed by the list that has
    its id otherwise. *)
Theorem addList_getList (b : Board) (title uuid now : jsstring) :
  let newList := mkList (generateId (js "list") uuid) title [] in
  let b' := addList b title uuid now in
  (forall x l, getList b x = Some l -> getList b' x = Some l)
  /\ (getList b (list_id newList) = None ->
      getList b' (list_id newList) = Some newList)
  /\ (forall x, x <> list_id newList -> getList b' x = getList b x)
  /\ total_cards b' = total_cards b.
Proof.
  intros newList b'. unfold getList, find_list, b', addList. cbn [board_lists].
  repeat split.
  - intros x l. apply find_app_Some.
  - intros H. rewrite find_app_None by done. simpl. by rewrite str_eqb_refl.
  - intros x Hx.
    destruct (List.find _ (board_lists b)) as [l|] eqn:E.
    + by apply find_app_Some.
    + rewrite find_app_None by done. simpl.
      rewrite (proj2 (str_eqb_false _ x)); [done|].
      intros Heq. by apply Hx.
  - unfold total_cards. cbn [board_lists].
    rewrite sum_list_with_app. simpl. lia.
Qed.

Lemma find_list_fmap (f : List -> List) (ls : list List) x :
  (forall l, list_id (f l) = list_id l) ->
  find_list (f <$> ls) x = f <$> find_list ls x.
Proof. apply (find_fmap_id list_id). Qed.

Lemma sum_list_with_filter_le {A} (f : A -> nat) (P : A -> Prop)
    `{forall x, Decision (P x)} (l : list A) :
  sum_list_with f (filter P l) <= sum_list_with f l.
Proof.
  induction l as [|a l IH]; [done|].
  destruct (decide (P a)).
  - rewrite filter_cons_True by done. cbn [sum_list_with]. lia.
  - rewrite filter_cons_False by done. cbn [sum_list_with]. lia.
Qed.

(** [deleteList]: the list is no longer found, nor any card through it;
    every other list is found as it was. *)
Theorem deleteList_getList (b : Board) (listId now : jsstring) :
  let b' := deleteList b listId now in
  getList b' listId = None
  /\ (forall cardId, getCard b' listId cardId = None)
  /\ (forall x, x <> listId -> getList b' x = getList b x)
  /\ (forall x cardId, x <> listId -> getCard b' x cardId = getCard b x cardId)
  /\ total_cards b' <= total_cards b.
Proof.
  intros b'. unfold getCard, getList, find_list, b', deleteList.
  cbn [board_lists].
  assert (Hsame : List.find (fun l : List => str_eqb (list_id l) listId)
                    (filter (fun l : List => list_id l <> listId)
                            (board_lists b)) = None)
    by (by rewrite (find_filter_ne list_id), str_eqb_refl).
  assert (Hother : forall x, x <> listId ->
            List.find (fun l : List => str_eqb (list_id l) x)
              (filter (fun l : List => list_id l <> listId) (board_lists b))
            = List.find (fun l : List => str_eqb (list_id l) x)
                        (board_lists b)).
  { intros x Hx. rewrite (find_filter_ne list_id).
    by rewrite (proj2 (str_eqb_false x listId)). }
  repeat split.
  - exact Hsame.
  - intros cardId. by rewrite Hsame.
  - exact Hother.
  - intros x cardId Hx. by rewrite Hother.
  - apply sum_list_with_filter_le.
Qed.

(** [deleteAllCards]: the list stays, with its title and no cards; no card
    is found through it; every other list is found as it was. *)
Theorem deleteAllCards_getList (b : Board) (listId now : jsstring) :
  let b' := deleteAllCards b listId now in
  (forall l, getList b listId = Some l ->
             getList b' listId = Some (mkList (list_id l) (list_title l) []))
  /\ (forall cardId, getCard b' listId cardId = None)
  /\ (forall x, x <> listId -> getList b' x = getList b x)
  /\ list_id <$> board_lists b' = list_id <$> board_lists b.
Proof.
  intros b'. unfold getCard, getList, b', deleteAllCards. cbn [board_lists].
  set (f := fun list : List =>
              if str_eqb (list_id list) listId
              then mkList (list_id list) (list_title list) [] else list).
  assert (Hf : forall l, list_id (f l) = list_id l)
    by (intros l; unfold f; by destruct (str_eqb (list_id l) listId)).
  repeat split.
  - intros l Hl. rewrite find_list_fmap, Hl by done. simpl. unfold f.
    apply find_list_Some in Hl as [_ Hl]. by rewrite Hl, str_eqb_refl.
  - intros cardId. rewrite find_list_fmap by done.
    destruct (find_list (board_lists b) listId) as [l|] eqn:Hl; [|done].
    simpl. unfold f. apply find_list_Some in Hl as [_ Hl].
    by rewrite Hl, str_eqb_refl.
  - intros x Hx. rewrite find_list_fmap by done.
    destruct (find_list (board_lists b) x) as [l|] eqn:Hl; [|done].
    simpl. unfold f. apply find_list_Some in Hl as [_ Hl].
    by rewrite Hl, (proj2 (str_eqb_false x listId)).
  - rewrite <- list_fmap_compose. apply list_fmap_ext. intros ? l _. apply Hf.
Qed.

(** [updateListTitle]: the list is found with the new title and its
    cards; every other list is found as it was; of two calls for one list
    the later title stays. *)
Theorem updateListTitle_getList (b : Board) (listId title now : jsstring) :
  let b' := updateListTitle b listId title now in
  (forall l, getList b listId = Some l ->
             getList b' listId = Some (mkList (list_id l) title (list_cards l)))
  /\ (forall x, x <> listId -> getList b' x = getList b x)
  /\ (forall cardId x, getCard b' x cardId = getCard b x cardId)
  /\ (forall title' now',
        updateListTitle b' listId title' now'
        = updateListTitle b listId title' now').
Proof.
  intros b'. unfold getCard, getList, b', updateListTitle. cbn [board_lists].
  set (f := fun list : List =>
              if str_eqb (list_id list) listId
              then mkList (list_id list) title (list_cards list) else list).
  assert (Hf : forall l, list_id (f l) = list_id l)
    by (intros l; unfold f; by destruct (str_eqb (list_id l) listId)).
  repeat split.
  - intros l Hl. rewrite find_list_fmap, Hl by done. simpl. unfold f.
    apply find_list_Some in Hl as [_ Hl]. by rewrite Hl, str_eqb_refl.
  - intros x Hx. rewrite find_list_fmap by done.
    destruct (find_list (board_lists b) x) as [l|] eqn:Hl; [|done].
    simpl. unfold f. apply find_list_Some in Hl as [_ Hl].
    by rewrite Hl, (proj2 (str_eqb_false x listId)).
  - intros cardId x. rewrite find_list_fmap by done.
    destruct (find_list (board_lists b) x) as [l|]; [|done].
    simpl. unfold f. by destruct (str_eqb (list_id l) listId).
  - intros title' now'. f_equal. rewrite <- list_fmap_compose.
    apply list_fmap_ext. intros ? l _. simpl. unfold f.
    destruct (str_eqb (list_id l) listId) eqn:E; simpl; by rewrite E.
Qed.

(** Looking up a card after the cards of the lists named [listId] went
    through [g]. *)
Lemma getCard_map_cards (i t ca ua : jsstring) (ls : list List)
    (listId : jsstring) (g : list Card -> list Card) x cardId :
  getCard (mkBoard i t
             ((fun list : List =>
                 if str_eqb (list_id list) listId
                 then mkList (list_id list) (list_title list)
                             (g (list_cards list))
                 else list) <$> ls) ca ua) x cardId
  = match find_list ls x with
    | Some l =>
        List.find (fun c => str_eqb (card_id c) cardId)
                  (if str_eqb x listId then g (list_cards l) else list_cards l)
    | None => None
    end.
Proof.
  unfold getCard. cbn [board_lists].
  rewrite find_list_fmap
    by (intros l; by destruct (str_eqb (list_id l) listId)).
  destruct (find_list ls x) as [l|] eqn:Hl; [|done]. simpl.
  apply find_list_Some in Hl as [_ <-].
  by destruct (str_eqb (list_id l) listId).
Qed.

Lemma getList_map_cards (i t ca ua : jsstring) (ls : list List)
    (listId : jsstring) (g : list Card -> list Card) x :
  getList (mkBoard i t
             ((fun list : List =>
                 if str_eqb (list_id list) listId
                 then mkList (list_id list) (list_title list)
                             (g (list_cards list))
                 else list) <$> ls) ca ua) x
  = (fun l : List =>
       if str_eqb x listId
       then mkList (list_id l) (list_title l) (g (list_cards l)) else l)
    <$> find_list ls x.
Proof.
  unfold getList. cbn [board_lists].
  rewrite find_list_fmap
    by (intros l; by destruct (str_eqb (list_id l) listId)).
  destruct (find_list ls x) as [l|] eqn:Hl; [|done]. simpl.
  apply find_list_Some in Hl as [_ <-]. done.
Qed.

Lemma getCard_find (b : Board) x cardId :
  getCard b x cardId
  = match find_list (board_lists b) x with
    | Some l => List.find (fun c => str_eqb (card_id c) cardId) (list_cards l)
    | None => None
    end.
Proof. reflexivity. Qed.

(** The number of cards after the cards of the one list named [listId]
    went through [g]. *)
Lemma total_cards_map_cards (i t ca ua : jsstring) (b : Board)
    (l : List) (g : list Card -> list Card) :
  unique_list_ids b -> getList b (list_id l) = Some l ->
  total_cards (mkBoard i t
                 ((fun list : List =>
                     if str_eqb (list_id list) (list_id l)
                     then mkList (list_id list) (list_title list)
                                 (g (list_cards list))
                     else list) <$> board_lists b) ca ua)
  + length (list_cards l)
  = total_cards b + length (g (list_cards l)).
Proof.
  intros Hu Hl. apply find_list_Some in Hl as [Hin _].
  apply list_elem_of_lookup in Hin as [k Hk].
  unfold total_cards. cbn [board_lists].
  pose proof (fmap_unique_id
    (fun l' : List => mkList (list_id l') (list_title l') (g (list_cards l')))
    (fun l' => l') _ k l Hu Hk) as E.
  cbv beta in E. rewrite E, list_fmap_id.
  pose proof (sum_list_with_insert
    (fun l : List => length (list_cards l)) (board_lists b) k l
    (mkList (list_id l) (list_title l) (g (list_cards l))) Hk) as H.
  simpl in H. lia.
Qed.

(** [addCard]: the list is found with the new card after its cards; the
    cards that were found are found as they were; the new card is found
    when no card of the list has its id; one card more on a board with
    unique list ids. *)
Theorem addCard_getCard (b : Board) (listId title uuid created now : jsstring) :
  let newCard := mkCard (generateId (js "card") uuid) title None [] created in
  let b' := addCard b listId title uuid created now in
  (forall l, getList b listId = Some l ->
     getList b' listId
     = Some (mkList (list_id l) (list_title l) (list_cards l ++ [newCard])))
  /\ (forall x, x <> listId -> getList b' x = getList b x)
  /\ (forall x cardId card,
        getCard b x cardId = Some card -> getCard b' x cardId = Some card)
  /\ (is_Some (getList b listId) ->
      getCard b listId (card_id newCard) = None ->
      getCard b' listId (card_id newCard) = Some newCard)
  /\ (unique_list_ids b -> is_Some (getList b listId) ->
      total_cards b' = S (total_cards b)).
Proof.
  intros newCard b'. unfold b', addCard. fold newCard.
  repeat split.
  - intros l Hl.
    rewrite (getList_map_cards _ _ _ _ _ listId (fun cs => cs ++ [newCard])).
    unfold getList in Hl. by rewrite Hl, str_eqb_refl.
  - intros x Hx.
    rewrite (getList_map_cards _ _ _ _ _ listId (fun cs => cs ++ [newCard])).
    unfold getList. rewrite (proj2 (str_eqb_false x listId)) by done.
    by destruct (find_list (board_lists b) x).
  - intros x cardId card.
    rewrite (getCard_map_cards _ _ _ _ _ listId (fun cs => cs ++ [newCard])).
    rewrite getCard_find.
    destruct (find_list (board_lists b) x) as [l|]; [|done].
    destruct (str_eqb x listId); [|done]. apply find_app_Some.
  - intros [l Hl] Hnone.
    rewrite (getCard_map_cards _ _ _ _ _ listId (fun cs => cs ++ [newCard])).
    rewrite getCard_find in Hnone. unfold getList in Hl.
    rewrite Hl in *. rewrite str_eqb_refl, find_app_None by done.
    simpl. by rewrite str_eqb_refl.
  - intros Hu [l Hl].
    pose proof (find_list_Some _ _ _ Hl) as [_ Hid]. subst listId.
    pose proof (total_cards_map_cards (board_id b) (board_title b)
      (board_createdAt b) now b l (fun cs => cs ++ [newCard]) Hu Hl) as H.
    cbv beta in H. rewrite length_app in H. simpl in H. lia.
Qed.

(** [deleteCard]: the card is no longer found in the list; every other
    card is found as it was; no list is added or removed. *)
Theorem deleteCard_getCard (b : Board) (listId cardId now : jsstring) :
  let b' := deleteCard b listId cardId now in
  getCard b' listId cardId = None
  /\ (forall x c, x <> listId \/ c <> cardId ->
                  getCard b' x c = getCard b x c)
  /\ list_id <$> board_lists b' = list_id <$> board_lists b
  /\ (unique_list_ids b -> total_cards b' <= total_cards b).
Proof.
  intros b'. unfold b', deleteCard.
  set (g := fun cs : list Card => filter (fun card => card_id card <> cardId) cs).
  repeat split.
  - rewrite (getCard_map_cards _ _ _ _ _ listId g).
    destruct (find_list (board_lists b) listId) as [l|]; [|done].
    rewrite str_eqb_refl. unfold g.
    by rewrite (find_filter_ne card_id), str_eqb_refl.
  - intros x c Hxc.
    rewrite (getCard_map_cards _ _ _ _ _ listId g), getCard_find.
    destruct (find_list (board_lists b) x) as [l|]; [|done].
    destruct (str_eqb x listId) eqn:Ex; [|done].
    apply str_eqb_true in Ex. destruct Hxc as [Hx|Hc]; [done|].
    unfold g. rewrite (find_filter_ne card_id).
    by rewrite (proj2 (str_eqb_false c cardId)).
  - cbn [board_lists]. rewrite <- list_fmap_compose. apply list_fmap_ext.
    intros ? l _. simpl. by destruct (str_eqb (list_id l) listId).
  - intros Hu.
    destruct (find_list (board_lists b) listId) as [l|] eqn:Hl.
    + pose proof (find_list_Some _ _ _ Hl) as [_ Hid]. subst listId.
      pose proof (total_cards_map_cards (board_id b) (board_title b)
        (board_createdAt b) now b l g Hu Hl) as H.
      pose proof (length_filter (fun card => card_id card <> cardId)
                                (list_cards l)) as Hle.
      subst g. cbv beta in *. lia.
    + unfold total_cards. cbn [board_lists].
      by rewrite (fmap_absent _ id), list_fmap_id.
Qed.

Lemma total_cards_same_lengths (i t ca ua : jsstring) (b : Board)
    (f : List -> List) :
  (forall l, length (list_cards (f l)) = length (list_cards l)) ->
  total_cards (mkBoard i t (f <$> board_lists b) ca ua) = total_cards b.
Proof.
  intros Hf. unfold total_cards. cbn [board_lists].
  induction (board_lists b) as [|l ls IH]; [done|].
  cbn [fmap list_fmap sum_list_with]. rewrite Hf. f_equal. apply IH.
Qed.

(** Looking up a card among cards that went through [h], which keeps
    ids. *)
Lemma find_card_fmap (h : Card -> Card) (cs : list Card) cardId :
  (forall c, card_id (h c) = card_id c) ->
  List.find (fun c => str_eqb (card_id c) cardId) (h <$> cs)
  = h <$> List.find (fun c => str_eqb (card_id c) cardId) cs.
Proof. apply (find_fmap_id card_id). Qed.

(** [updateCardTitle]: the card is found with the new title and
    everything else it had; every other card is found as it was. *)
Theorem updateCardTitle_getCard (b : Board)
    (listId cardId title now : jsstring) :
  let b' := updateCardTitle b listId cardId title now in
  (forall card, getCard b listId cardId = Some card ->
     getCard b' listId cardId
     = Some (mkCard (card_id card) title (card_description card)
                    (card_comments card) (card_createdAt card)))
  /\ (forall x c, x <> listId \/ c <> cardId ->
                  getCard b' x c = getCard b x c)
  /\ list_id <$> board_lists b' = list_id <$> board_lists b
  /\ total_cards b' = total_cards b.
Proof.
  intros b'. unfold b', updateCardTitle.
  set (h := fun card : Card =>
              if str_eqb (card_id card) cardId
              then mkCard (card_id card) title (card_description card)
                          (card_comments card) (card_createdAt card)
              else card).
  assert (Hh : forall c, card_id (h c) = card_id c)
    by (intros c; unfold h; by destruct (str_eqb (card_id c) cardId)).
  repeat split.
  - intros card. rewrite (getCard_map_cards _ _ _ _ _ listId (fmap h)).
    rewrite getCard_find.
    destruct (find_list (board_lists b) listId) as [l|]; [|done].
    rewrite str_eqb_refl, find_card_fmap by done. intros Hc. rewrite Hc.
    simpl. unfold h. apply find_Some_id in Hc. by rewrite Hc, str_eqb_refl.
  - intros x c Hxc. rewrite (getCard_map_cards _ _ _ _ _ listId (fmap h)).
    rewrite getCard_find.
    destruct (find_list (board_lists b) x) as [l|]; [|done].
    destruct (str_eqb x listId) eqn:Ex; [|done].
    apply str_eqb_true in Ex. destruct Hxc as [Hx|Hc]; [done|].
    rewrite find_card_fmap by done.
    destruct (List.find _ (list_cards l)) as [card|] eqn:E; [|done].
    simpl. unfold h. apply find_Some_id in E.
    by rewrite E, (proj2 (str_eqb_false c cardId)).
  - cbn [board_lists]. rewrite <- list_fmap_compose. apply list_fmap_ext.
    intros ? l _. simpl. by destruct (str_eqb (list_id l) listId).
  - apply total_cards_same_lengths. intros l.
    destruct (str_eqb (list_id l) listId); [|done].
    simpl. apply length_fmap.
Qed.

(** [addComment]: the card is found with the new comment after its
    comments and everything else it had; every other card is found as it
    was. *)
Theorem addComment_getCard (b : Board)
    (listId cardId text uuid created now : jsstring) :
  let newComment := mkComment (generateId (js "comment") uuid) text created in
  let b' := addComment b listId cardId text uuid created now in
  (forall card, getCard b listId cardId = Some card ->
     getCard b' listId cardId
     = Some (mkCard (card_id card) (card_title card) (card_description card)
                    (card_comments card ++ [newComment])
                    (card_createdAt card)))
  /\ (forall x c, x <> listId \/ c <> cardId ->
                  getCard b' x c = getCard b x c)
  /\ list_id <$> board_lists b' = list_id <$> board_lists b
  /\ total_cards b' = total_cards b.
Proof.
  intros newComment b'. unfold b', addComment. fold newComment.
  set (h := fun card : Card =>
              if str_eqb (card_id card) cardId
              then mkCard (card_id card) (card_title card)
                          (card_description card)
                          (card_comments card ++ [newComment])
                          (card_createdAt card)
              else card).
  assert (Hh : forall c, card_id (h c) = card_id c)
    by (intros c; unfold h; by destruct (str_eqb (card_id c) cardId)).
  repeat split.
  - intros card. rewrite (getCard_map_cards _ _ _ _ _ listId (fmap h)).
    rewrite getCard_find.
    destruct (find_list (board_lists b) listId) as [l|]; [|done].
    rewrite str_eqb_refl, find_card_fmap by done. intros Hc. rewrite Hc.
    simpl. unfold h. apply find_Some_id in Hc. by rewrite Hc, str_eqb_refl.
  - intros x c Hxc. rewrite (getCard_map_cards _ _ _ _ _ listId (fmap h)).
    rewrite getCard_find.
    destruct (find_list (board_lists b) x) as [l|]; [|done].
    destruct (str_eqb x listId) eqn:Ex; [|done].
    apply str_eqb_true in Ex. destruct Hxc as [Hx|Hc]; [done|].
    rewrite find_card_fmap by done.
    destruct (List.find _ (list_cards l)) as [card|] eqn:E; [|done].
    simpl. unfold h. apply find_Some_id in E.
    by rewrite E, (proj2 (str_eqb_false c cardId)).
  - cbn [board_lists]. rewrite <- list_fmap_compose. apply list_fmap_ext.
    intros ? l _. simpl. by destruct (str_eqb (list_id l) listId).
  - apply total_cards_same_lengths. intros l.
    destruct (str_eqb (list_id l) listId); [|done].
    simpl. apply length_fmap.
Qed.

(** ** Reordering there and back *)

(** [reorderArray] from [i] to [j] and then from [j] to [i] gives the
    array back. *)
Theorem reorderArray_back {T} (l : list T) (i j : nat) (x : T) :
  l !! i = Some x -> j < length l ->
  exists l',
    reorderArray l (Z.of_nat i) (Z.of_nat j) = Some <$> l'
    /\ length l' = length l
    /\ reorderArray l' (Z.of_nat j) (Z.of_nat i) = Some <$> l.
Proof.
  intros Hx Hj. pose proof (lookup_lt_Some _ _ _ Hx) as Hi.
  assert (Hlen : length (remove_at i l) = Nat.pred (length l))
    by (by apply length_remove_at).
  exists (insert_at j x (remove_at i l)).
  assert (Hl' : length (insert_at j x (remove_at i l)) = length l)
    by (rewrite length_insert_at; lia).
  split; [by apply reorderArray_valid|]. split; [done|].
  rewrite (reorderArray_valid _ j i x).
  - rewrite remove_at_insert_at by lia.
    by rewrite insert_at_remove_at_same.
  - apply lookup_insert_at. lia.
  - lia.
Qed.

Lemma reorderArray_back_witness :
  exists l' : list nat,
    reorderArray [1; 2; 3] 0 2 = Some <$> l'
    /\ length l' = 3
    /\ reorderArray l' 2 0 = Some <$> [1; 2; 3].
Proof.
  assert (Hj : 2 < length [1; 2; 3]) by (simpl; lia).
  exact (reorderArray_back [1; 2; 3] 0 2 1 eq_refl Hj).
Defined.

(** With unique ids, the order of the lists does not matter to a lookup. *)
Lemma find_list_Permutation (ls ls' : list List) x :
  NoDup (list_id <$> ls) -> ls ≡ₚ ls' -> find_list ls x = find_list ls' x.
Proof.
  intros Hnd Hp.
  assert (Hnd' : NoDup (list_id <$> ls')) by (by rewrite <- Hp).
  destruct (find_list ls x) as [l|] eqn:E.
  - apply find_list_Some in E as [Hin Hid]. symmetry.
    rewrite Hp in Hin. apply list_elem_of_lookup in Hin as [k Hk].
    rewrite <- Hid. by apply (find_list_unique ls' k l).
  - symmetry. apply find_list_None. apply find_list_None in E.
    by rewrite <- Hp.
Qed.

(** [reorderLists] between two positions of the board: the lists are
    permuted, the list that was at [i] is at [j] and the others keep
    their order; no card moves, and with unique ids every list is found
    as before. *)
Theorem reorderLists_valid (b : Board) (i j : nat) (l : List)
    (now : jsstring) :
  board_lists b !! i = Some l -> j < length (board_lists b) ->
  let lists' := insert_at j l (remove_at i (board_lists b)) in
  let b' := mkBoard (board_id b) (board_title b) lists'
                    (board_createdAt b) now in
  reorderLists b (Z.of_nat i) (Z.of_nat j) now = raw_board Some b'
  /\ lists' ≡ₚ board_lists b
  /\ lists' !! j = Some l
  /\ remove_at j lists' = remove_at i (board_lists b)
  /\ total_cards b' = total_cards b
  /\ (unique_list_ids b ->
      unique_list_ids b' /\ forall x, getList b' x = getList b x).
Proof.
  intros Hl Hj lists' b'. pose proof (lookup_lt_Some _ _ _ Hl) as Hi.
  assert (Hlen : j <= length (remove_at i (board_lists b)))
    by (rewrite length_remove_at by done; lia).
  assert (Hp : lists' ≡ₚ board_lists b).
  { unfold lists'. rewrite insert_at_Permutation. symmetry.
    by apply remove_at_Permutation. }
  repeat split.
  - unfold reorderLists, raw_board, b'. cbn [board_id board_title board_lists
      board_createdAt board_updatedAt]. f_equal.
    by apply reorderArray_valid.
  - exact Hp.
  - by apply lookup_insert_at.
  - by apply remove_at_insert_at.
  - unfold total_cards, b'. cbn [board_lists]. by rewrite Hp.
  - unfold unique_list_ids, b'. cbn [board_lists]. by rewrite Hp.
  - intros x. unfold getList, b'. cbn [board_lists]. symmetry.
    by apply find_list_Permutation.
Qed.

Lemma reorderLists_valid_witness :
  reorderLists todo_done 0 1 (js "t")
  = raw_board Some
      (mkBoard (js "board-1") (js "Demo Board")
         [ mkList (js "done") (js "Done") [];
           mkList (js "todo") (js "Todo") [card_of "C1"; card_of "C2"] ]
         (js "2024-01-01T00:00:00.000Z") (js "t")).
Proof.
  assert (Hj : 1 < length (board_lists todo_done)) by (simpl; lia).
  exact (proj1 (reorderLists_valid todo_done 0 1 _ (js "t") eq_refl Hj)).
Defined.

(** ** [moveCard] between two lists *)

(** Between two lists, at any two indices, [moveCard] does to the cards
    of the two lists what [moveItemBetweenArrays] does to two arrays, and
    leaves the other lists as they are. *)
Theorem moveCard_is_moveItemBetweenArrays
    (b : Board) (ks kd : nat) (src dst : List) (si di : Z) (now : jsstring) :
  unique_list_ids b ->
  board_lists b !! ks = Some src -> board_lists b !! kd = Some dst ->
  list_id src <> list_id dst ->
  board_lists (moveCard b (list_id src) (list_id dst) si di now) =
  <[ks := mkList (list_id src) (list_title src)
            (moveItemBetweenArrays (list_cards src) (list_cards dst) si di).1]>
    (<[kd := mkList (list_id dst) (list_title dst)
               (moveItemBetweenArrays (list_cards src) (list_cards dst)
                                      si di).2]>
       (raw_list <$> board_lists b)).
Proof.
  intros Hu Hs Hd Hne. unfold moveCard, moveItemBetweenArrays.
  rewrite (find_list_unique _ ks src Hu Hs), (find_list_unique _ kd dst Hu Hd).
  apply str_eqb_false in Hne. rewrite Hne.
  destruct (splice (Some <$> list_cards src) si 1 []) as [deleted rest].
  cbv beta iota zeta.
  destruct (splice (Some <$> list_cards dst) di 0 [first_of deleted])
    as [deleted' dest'].
  cbn [fst snd board_lists negb].
  rewrite (fmap_unique_id _ _ _ ks src Hu Hs). f_equal.
  rewrite <- (fmap_unique_id
    (fun l' : List => mkList (list_id l') (list_title l') dest')
    raw_list _ kd dst Hu Hd).
  apply list_fmap_ext. intros n l' _. simpl. by rewrite andb_true_r.
Qed.

Lemma moveCard_is_moveItemBetweenArrays_witness :
  board_lists (moveCard todo_done (js "todo") (js "done") 5 (-3) (js "t"))
  = [ mkList (js "todo") (js "Todo")
        (moveItemBetweenArrays [card_of "C1"; card_of "C2"] [] 5 (-3)).1;
      mkList (js "done") (js "Done")
        (moveItemBetweenArrays [card_of "C1"; card_of "C2"] [] 5 (-3)).2 ].
Proof.
  assert (Hne : js "todo" <> js "done") by discriminate.
  exact (moveCard_is_moveItemBetweenArrays todo_done 0 1
           (mkList (js "todo") (js "Todo") [card_of "C1"; card_of "C2"])
           (mkList (js "done") (js "Done") [])
           5 (-3) (js "t") todo_done_unique eq_refl eq_refl Hne).
Defined.

Lemma list_insert_insert_id {A} (l : list A) k x y :
  l !! k = Some x -> <[k := x]> (<[k := y]> l) = l.
Proof.
  intros Hk. rewrite list_insert_insert_eq. by apply list_insert_id.
Qed.

(** Moving a card to another list and back: from valid positions, the
    second [moveCard] gives the lists the board had. *)
Theorem moveCard_back (b : Board) (ks kd : nat) (src dst : List)
    (i j : nat) (c : Card) (now now' : jsstring) :
  unique_list_ids b ->
  board_lists b !! ks = Some src -> board_lists b !! kd = Some dst ->
  list_id src <> list_id dst ->
  list_cards src !! i = Some c -> j <= length (list_cards dst) ->
  exists b1 : Board,
    moveCard b (list_id src) (list_id dst) (Z.of_nat i) (Z.of_nat j) now
    = raw_board raw_list b1
    /\ unique_list_ids b1
    /\ moveCard b1 (list_id dst) (list_id src) (Z.of_nat j) (Z.of_nat i) now'
       = raw_board raw_list (with_updatedAt b now').
Proof.
  intros Hu Hs Hd Hne Hc Hj. pose proof (lookup_lt_Some _ _ _ Hc) as Hi.
  assert (Hk : ks <> kd) by (intros ->; congruence).
  set (src' := mkList (list_id src) (list_title src)
                      (remove_at i (list_cards src))).
  set (dst' := mkList (list_id dst) (list_title dst)
                      (insert_at j c (list_cards dst))).
  set (lists1 := <[ks := src']> (<[kd := dst']> (board_lists b))).
  exists (mkBoard (board_id b) (board_title b) lists1 (board_createdAt b) now).
  assert (Hids : list_id <$> lists1 = list_id <$> board_lists b).
  { unfold lists1. rewrite !list_fmap_insert.
    rewrite (list_insert_id (list_id <$> board_lists b) kd)
      by (by rewrite list_lookup_fmap, Hd).
    by rewrite list_insert_id by (by rewrite list_lookup_fmap, Hs). }
  assert (Hu1 : NoDup (list_id <$> lists1)) by (by rewrite Hids).
  assert (Hs1 : lists1 !! ks = Some src').
  { unfold lists1. apply list_lookup_insert_eq.
    rewrite length_insert. by eapply lookup_lt_Some. }
  assert (Hd1 : lists1 !! kd = Some dst').
  { unfold lists1. rewrite list_lookup_insert_ne by done.
    apply list_lookup_insert_eq. by eapply lookup_lt_Some. }
  split; [|split; [exact Hu1|]].
  - pose proof (moveCard_across b ks kd src dst i c (Z.of_nat j) now
                  Hu Hs Hd Hne Hc) as H.
    rewrite actualStart_valid in H by done.
    assert (Hfields : forall r : BoardOf RawList,
              r = mkBoard (board_id r) (board_title r) (board_lists r)
                          (board_createdAt r) (board_updatedAt r))
      by (by intros []).
    rewrite (Hfields (moveCard _ _ _ _ _ _)), H.
    unfold raw_board. cbn [board_id board_title board_lists board_createdAt
                           board_updatedAt].
    unfold lists1. rewrite !list_fmap_insert.
    unfold moveCard.
    rewrite (find_list_unique _ ks src Hu Hs),
            (find_list_unique _ kd dst Hu Hd).
    destruct (splice (Some <$> list_cards src) (Z.of_nat i) 1 []) as [dl r].
    by destruct (str_eqb (list_id src) (list_id dst)).
  - pose proof (moveCard_across
      (mkBoard (board_id b) (board_title b) lists1 (board_createdAt b) now)
      kd ks dst' src' j c (Z.of_nat i) now' Hu1 Hd1 Hs1) as H.
    cbn [list_id list_cards list_title board_lists src' dst'] in H.
    specialize (H ltac:(congruence)
                  (lookup_insert_at (list_cards dst) j c Hj)).
    rewrite remove_at_insert_at in H by done.
    rewrite length_remove_at, actualStart_valid in H by (done || lia).
    rewrite insert_at_remove_at_same in H by done.
    assert (Hlists : board_lists
              (moveCard (mkBoard (board_id b) (board_title b) lists1
                                 (board_createdAt b) now)
                        (list_id dst) (list_id src) (Z.of_nat j) (Z.of_nat i)
                        now')
              = raw_list <$> board_lists b).
    { rewrite H. unfold lists1. rewrite !list_fmap_insert.
      rewrite list_insert_insert_eq.
      rewrite (list_insert_insert_ne _ ks kd) by done.
      rewrite list_insert_insert_eq.
      rewrite (list_insert_id _ ks)
        by (rewrite list_lookup_fmap, Hs; by destruct src).
      apply list_insert_id.
      rewrite list_lookup_fmap, Hd. by destruct dst. }
    unfold raw_board, with_updatedAt.
    cbn [board_id board_title board_lists board_createdAt board_updatedAt].
    rewrite <- Hlists. unfold moveCard.
    cbn [board_lists board_id board_title board_createdAt].
    pose proof (find_list_unique lists1 kd dst' Hu1 Hd1) as F1.
    pose proof (find_list_unique lists1 ks src' Hu1 Hs1) as F2.
    change (list_id dst') with (list_id dst) in F1.
    change (list_id src') with (list_id src) in F2.
    rewrite F1, F2.
    destruct (splice _ (Z.of_nat j) 1 []) as [dl r].
    by destruct (str_eqb (list_id dst) (list_id src)).
Qed.

(** *** Instances on the board of the scenario *)

Lemma addList_getList_witness :
  getList todo_done (js "list-u") = None
  /\ getList (addList todo_done (js "Later") (js "u") (js "t")) (js "list-u")
     = Some (mkList (js "list-u") (js "Later") []).
Proof.
  assert (Hn : getList todo_done (js "list-u") = None) by reflexivity.
  split; [exact Hn|].
  exact (proj1 (proj2 (addList_getList todo_done (js "Later") (js "u")
                                       (js "t"))) Hn).
Defined.

Lemma deleteList_getList_witness :
  js "done" <> js "todo"
  /\ getList (deleteList todo_done (js "todo") (js "t")) (js "done")
     = getList todo_done (js "done").
Proof.
  assert (Hne : js "done" <> js "todo") by discriminate.
  split; [exact Hne|].
  exact (proj1 (proj2 (proj2 (deleteList_getList todo_done (js "todo")
                                                 (js "t")))) (js "done") Hne).
Defined.

Lemma deleteAllCards_getList_witness :
  getList (deleteAllCards todo_done (js "todo") (js "t")) (js "todo")
  = Some (mkList (js "todo") (js "Todo") []).
Proof.
  exact (proj1 (deleteAllCards_getList todo_done (js "todo") (js "t"))
               _ eq_refl).
Defined.

Lemma updateListTitle_getList_witness :
  getList (updateListTitle todo_done (js "todo") (js "Now") (js "t"))
          (js "todo")
  = Some (mkList (js "todo") (js "Now") [card_of "C1"; card_of "C2"]).
Proof.
  exact (proj1 (updateListTitle_getList todo_done (js "todo") (js "Now")
                                        (js "t")) _ eq_refl).
Defined.

Lemma addCard_getCard_witness :
  getList (addCard todo_done (js "done") (js "New") (js "u") (js "t0")
                   (js "t")) (js "done")
  = Some (mkList (js "done") (js "Done")
                 [mkCard (js "card-u") (js "New") None [] (js "t0")]).
Proof.
  exact (proj1 (addCard_getCard todo_done (js "done") (js "New") (js "u")
                                (js "t0") (js "t")) _ eq_refl).
Defined.

Lemma deleteCard_getCard_witness :
  getCard (deleteCard todo_done (js "todo") (js "C1") (js "t"))
          (js "todo") (js "C2")
  = getCard todo_done (js "todo") (js "C2").
Proof.
  assert (Hne : js "todo" <> js "todo" \/ js "C2" <> js "C1")
    by (right; discriminate).
  exact (proj1 (proj2 (deleteCard_getCard todo_done (js "todo") (js "C1")
                                          (js "t"))) _ _ Hne).
Defined.

Lemma updateCardTitle_getCard_witness :
  getCard (updateCardTitle todo_done (js "todo") (js "C1") (js "One")
                           (js "t")) (js "todo") (js "C1")
  = Some (mkCard (js "C1") (js "One") None []
                 (js "2024-01-01T00:00:00.000Z")).
Proof.
  exact (proj1 (updateCardTitle_getCard todo_done (js "todo") (js "C1")
                                        (js "One") (js "t")) _ eq_refl).
Defined.

Lemma addComment_getCard_witness :
  getCard (addComment todo_done (js "todo") (js "C1") (js "hello") (js "u")
                      (js "t0") (js "t")) (js "todo") (js "C1")
  = Some (mkCard (js "C1") (js "C1") None
                 [mkComment (js "comment-u") (js "hello") (js "t0")]
                 (js "2024-01-01T00:00:00.000Z")).
Proof.
  exact (proj1 (addComment_getCard todo_done (js "todo") (js "C1")
                                   (js "hello") (js "u") (js "t0") (js "t"))
               _ eq_refl).
Defined.

Lemma moveCard_back_witness :
  exists b1 : Board,
    moveCard todo_done (js "todo") (js "done") 0 0 (js "t")
    = raw_board raw_list b1
    /\ unique_list_ids b1
    /\ moveCard b1 (js "done") (js "todo") 0 0 (js "t'")
       = raw_board raw_list (with_updatedAt todo_done (js "t'")).
Proof.
  assert (Hne : js "todo" <> js "done") by discriminate.
  assert (Hj : 0 <= length (@nil Card)) by (simpl; lia).
  exact (moveCard_back todo_done 0 1
           (mkList (js "todo") (js "Todo") [card_of "C1"; card_of "C2"])
           (mkList (js "done") (js "Done") [])
           0 0 (card_of "C1") (js "t") (js "t'")
           todo_done_unique eq_refl eq_refl Hne eq_refl Hj).
Defined.

Lemma unique_list_ids_run_witness :
  unique_list_ids
    (addList todo_done (js "Later") (js "u") (js "t")).
Proof.
  assert (Hf : fresh_list_id (AddList (js "Later") (js "u")) todo_done).
  { apply (bool_decide_unpack _). by vm_compute. }
  exact (unique_list_ids_run (AddList (js "Later") (js "u")) (js "t")
           todo_done _ todo_done_unique Hf eq_refl).
Defined.

(* ===================================================================== *)
(** ** Strings: [trim], [isEmptyString], [truncateText], [generateId] *)
(* ===================================================================== *)

Lemma trimStart_split s :
  exists pre, s = pre ++ trimStart s
              /\ Forall (fun c => is_white_space c = true) pre.
Proof.
  induction s as [|c s (pre & Hs & Hpre)]; [by exists []|].
  simpl. destruct (is_white_space c) eqn:E.
  - exists (c :: pre). split; [by rewrite Hs at 1 | by constructor].
  - by exists [].
Qed.

(** What [trimStart] leaves does not start with white space. *)
Lemma trimStart_head s c r :
  trimStart s = c :: r -> is_white_space c = false.
Proof.
  induction s as [|d s IH]; [done|]. simpl.
  destruct (is_white_space d) eqn:E; [done|]. by intros [= <- _].
Qed.

Lemma trimStart_fixed c r :
  is_white_space c = false -> trimStart (c :: r) = c :: r.
Proof. intros H. simpl. by rewrite H. Qed.

Lemma trimStart_nil s :
  trimStart s = [] <-> Forall (fun c => is_white_space c = true) s.
Proof.
  induction s as [|c s IH]; simpl.
  - split; [constructor | done].
  - destruct (is_white_space c) eqn:E.
    + rewrite IH. split; [by constructor | by inversion 1].
    + split; [done | inversion 1; congruence].
Qed.

Lemma trimEnd_split s :
  exists post, s = trimEnd s ++ post
               /\ Forall (fun c => is_white_space c = true) post.
Proof.
  destruct (trimStart_split (reverse s)) as (pre & Hs & Hpre).
  exists (reverse pre). split.
  - unfold trimEnd. rewrite <- reverse_app, <- Hs. by rewrite reverse_involutive.
  - by apply Forall_reverse.
Qed.

Lemma trimEnd_nil s :
  trimEnd s = [] <-> Forall (fun c => is_white_space c = true) s.
Proof.
  unfold trimEnd. rewrite <- (Forall_reverse _ s), <- trimStart_nil.
  split.
  - intros H. apply (f_equal reverse) in H.
    by rewrite reverse_involutive in H.
  - by intros ->.
Qed.

(** What [trimEnd] leaves does not end with white space. *)
Lemma trimEnd_last s c :
  last (trimEnd s) = Some c -> is_white_space c = false.
Proof.
  unfold trimEnd. rewrite last_reverse.
  destruct (trimStart (reverse s)) as [|d r] eqn:E; [done|].
  simpl. intros [= <-]. by eapply trimStart_head.
Qed.

Lemma trimEnd_fixed s c :
  last s = Some c -> is_white_space c = false -> trimEnd s = s.
Proof.
  intros Hl Hc. unfold trimEnd.
  destruct (reverse s) as [|d r] eqn:E.
  - apply (f_equal reverse) in E. rewrite reverse_involutive in E.
    by subst s.
  - assert (d = c).
    { rewrite <- (reverse_involutive s), E, last_reverse in Hl.
      simpl in Hl. congruence. }
    subst d. rewrite trimStart_fixed by done.
    by rewrite <- E, reverse_involutive.
Qed.

(** [trimEnd] keeps the first character of what it leaves. *)
Lemma trimEnd_head s c r :
  trimEnd s = c :: r -> exists r', s = c :: r'.
Proof.
  intros H. destruct (trimEnd_split s) as (post & Hs & _).
  rewrite H in Hs. by exists (r ++ post).
Qed.

(** [trim]: the string is white space, what [trim] returns, and white
    space; what [trim] returns neither starts nor ends with white space. *)
Lemma trim_split s :
  exists pre post,
    s = pre ++ trim s ++ post
    /\ Forall (fun c => is_white_space c = true) pre
    /\ Forall (fun c => is_white_space c = true) post
    /\ (forall c, head (trim s) = Some c -> is_white_space c = false)
    /\ (forall c, last (trim s) = Some c -> is_white_space c = false).
Proof.
  destruct (trimStart_split s) as (pre & Hs & Hpre).
  destruct (trimEnd_split (trimStart s)) as (post & Ht & Hpost).
  exists pre, post. unfold trim. repeat split; try done.
  - by rewrite <- Ht.
  - intros c Hc.
    destruct (trimEnd (trimStart s)) as [|d r] eqn:E; [done|].
    simpl in Hc. injection Hc as ->.
    destruct (trimEnd_head _ _ _ E) as [r' Hr']. by eapply trimStart_head.
  - apply trimEnd_last.
Qed.

Lemma trim_nil s :
  trim s = [] <-> Forall (fun c => is_white_space c = true) s.
Proof.
  unfold trim. rewrite trimEnd_nil. split.
  - intros H. apply trimStart_nil.
    destruct (trimStart s) as [|c r] eqn:E; [done|].
    apply trimStart_head in E. inversion H; congruence.
  - intros H. apply trimStart_nil in H. rewrite H. constructor.
Qed.

(** A string that neither starts nor ends with white space is its own
    [trim]. *)
Lemma trim_fixed s :
  (forall c, head s = Some c -> is_white_space c = false) ->
  (forall c, last s = Some c -> is_white_space c = false) ->
  trim s = s.
Proof.
  intros Hh Hl. unfold trim.
  destruct s as [|c r]; [done|].
  rewrite trimStart_fixed by (by apply Hh).
  destruct (last (c :: r)) as [d|] eqn:E.
  - by apply (trimEnd_fixed _ d), Hl.
  - by apply last_None in E.
Qed.

Lemma trim_idemp s : trim (trim s) = trim s.
Proof.
  destruct (trim_split s) as (_ & _ & _ & _ & _ & Hh & Hl).
  by apply trim_fixed.
Qed.

Lemma isEmptyString_Forall (value : jsstring) :
  isEmptyString value = true <->
  Forall (fun c => is_white_space c = true) value.
Proof.
  unfold isEmptyString. rewrite orb_true_iff, Nat.eqb_eq.
  rewrite length_zero_iff_nil, trim_nil. split.
  - intros [He|Ht]; [|done]. destruct value; [constructor | done].
  - by right.
Qed.

Lemma isEmptyString_trim (value : jsstring) :
  isEmptyString (trim value) = isEmptyString value.
Proof.
  apply eq_true_iff_eq. rewrite !isEmptyString_Forall, <- !trim_nil.
  by rewrite trim_idemp.
Qed.

(** [isEmptyString] holds of the strings made of white space only, the
    empty string among them; trimming first changes nothing to it. *)
Theorem isEmptyString_white_space (value : jsstring) :
  (isEmptyString value = true <->
   Forall (fun c => is_white_space c = true) value)
  /\ isEmptyString (trim value) = isEmptyString value.
Proof.
  assert (H : forall s, isEmptyString s = true <->
                        Forall (fun c => is_white_space c = true) s).
  { intros s. unfold isEmptyString. rewrite orb_true_iff, Nat.eqb_eq.
    rewrite length_zero_iff_nil, trim_nil. split.
    - intros [He|Ht]; [|done]. destruct s; [constructor | done].
    - by right. }
  split; [apply H|].
  apply eq_true_iff_eq. rewrite !H, <- !trim_nil. by rewrite trim_idemp.
Qed.

Lemma String_slice_prefix (s : jsstring) (n : nat) :
  String_slice s 0 (Z.of_nat n) = take n s.
Proof.
  unfold String_slice.
  replace (actualStart (length s) 0) with 0 by (unfold actualStart; simpl; lia).
  rewrite drop_0, Nat.sub_0_r.
  destruct (decide (n <= length s)).
  - by rewrite actualStart_valid.
  - rewrite actualStart_beyond by lia. by rewrite !take_ge by lia.
Qed.

Lemma String_slice_negative_end (s : jsstring) (m : Z) :
  (m < 0)%Z ->
  String_slice s 0 m = take (length s - Z.to_nat (- m)) s.
Proof.
  intros Hm. unfold String_slice.
  replace (actualStart (length s) 0) with 0 by (unfold actualStart; simpl; lia).
  rewrite drop_0, Nat.sub_0_r. f_equal.
  unfold actualStart. destruct (Z.ltb_spec m 0); lia.
Qed.

(** [truncateText]: a text no longer than [maxLength] is returned as it
    is; a longer one is cut to its first [maxLength] code units, followed
    by three dots, and is then [maxLength + 3] long; truncating again
    changes nothing.  A negative [maxLength] cuts that many code units
    off the end, before the dots, whatever the text. *)
Theorem truncateText_cases (text : jsstring) (maxLength : Z) :
  ((Z.of_nat (length text) <= maxLength)%Z ->
   truncateText text maxLength = text)
  /\ ((0 <= maxLength < Z.of_nat (length text))%Z ->
      truncateText text maxLength
      = take (Z.to_nat maxLength) text ++ js "..."
      /\ Z.of_nat (length (truncateText text maxLength))
         = (maxLength + 3)%Z)
  /\ ((maxLength < 0)%Z ->
      truncateText text maxLength
      = take (length text - Z.to_nat (- maxLength)) text ++ js "...")
  /\ ((0 <= maxLength)%Z ->
      truncateText (truncateText text maxLength) maxLength
      = truncateText text maxLength).
Proof.
  assert (Hlong : forall (t : jsstring) (n : nat),
            n < length t ->
            truncateText t (Z.of_nat n) = take n t ++ js "...").
  { intros t n Hn. unfold truncateText.
    destruct (Z.leb_spec (Z.of_nat (length t)) (Z.of_nat n)); [lia|].
    by rewrite String_slice_prefix. }
  assert (Hshort : forall (t : jsstring) (n : Z),
            (Z.of_nat (length t) <= n)%Z -> truncateText t n = t).
  { intros t n Hn. unfold truncateText.
    by destruct (Z.leb_spec (Z.of_nat (length t)) n); [|lia]. }
  repeat split.
  - apply Hshort.
  - rewrite <- (Z2Nat.id maxLength) at 1 by lia. apply Hlong. lia.
  - rewrite <- (Z2Nat.id maxLength) at 1 by lia. rewrite Hlong by lia.
    rewrite length_app, length_take. simpl. lia.
  - intros H. unfold truncateText.
    destruct (Z.leb_spec (Z.of_nat (length text)) maxLength); [lia|].
    by rewrite String_slice_negative_end.
  - intros H. destruct (decide (Z.of_nat (length text) <= maxLength)%Z).
    + rewrite (Hshort text) by lia. apply Hshort. lia.
    + rewrite <- (Z2Nat.id maxLength) by lia.
      rewrite (Hlong text) by lia. rewrite Hlong.
      * rewrite take_app_le by (rewrite length_take; lia).
        by rewrite take_take, Nat.min_id.
      * rewrite length_app, length_take. simpl. lia.
Qed.

Lemma truncateText_cases_witness :
  truncateText (js "Kanban board") 6 = js "Kanban..."
  /\ truncateText (js "") (-1) = js "...".
Proof.
  destruct (truncateText_cases (js "Kanban board") 6) as (_ & H & _).
  destruct (truncateText_cases (js "") (-1)) as (_ & _ & H' & _).
  split; [apply H; simpl; lia | apply H'; lia].
Defined.

(** [generateId]: under one prefix, different uuids give different ids;
    and no id of a list is an id of a card or of a comment, nor an id of
    a card an id of a comment. *)
Theorem generateId_distinct :
  (forall prefix uuid uuid',
     generateId prefix uuid = generateId prefix uuid' -> uuid = uuid')
  /\ (forall uuid uuid',
        generateId (js "list") uuid <> generateId (js "card") uuid'
        /\ generateId (js "list") uuid <> generateId (js "comment") uuid'
        /\ generateId (js "card") uuid <> generateId (js "comment") uuid').
Proof.
  split.
  - intros [|c prefix] uuid uuid'; [done|]. unfold generateId.
    intros H. apply app_inv_head in H. by apply (app_inv_head (js "-")) in H.
  - intros uuid uuid'. repeat split; discriminate.
Qed.

Lemma generateId_distinct_witness :
  generateId (js "list") (js "7f3a") <> generateId (js "card") (js "7f3a").
Proof.
  exact (proj1 (proj2 generateId_distinct (js "7f3a") (js "7f3a"))).
Defined.

(** [deepClone] of a value without numbers returns the value. *)
Theorem deepClone_number_free (v : json) :
  number_free v = true -> deepClone v = Some v.
Proof. apply JSON_parse_stringify. Qed.

Lemma deepClone_number_free_witness :
  deepClone (json_of_Board todo_done) = Some (json_of_Board todo_done).
Proof.
  exact (deepClone_number_free (json_of_Board todo_done) eq_refl).
Defined.

(* ===================================================================== *)
(** ** Components *)
(* ===================================================================== *)

Local Open Scope Z_scope.

(** [findIndex] gives [-1] when no element passes the test, and the first
    position of one that does otherwise. *)
Lemma findIndex_spec {T} (p : T -> bool) (arr : list T) :
  (findIndex p arr = -1 /\ Forall (fun x => p x = false) arr)
  \/ exists (n : nat) (x : T),
       findIndex p arr = Z.of_nat n /\ arr !! n = Some x /\ p x = true
       /\ Forall (fun y => p y = false) (take n arr).
Proof.
  induction arr as [|a arr IH]; [by left|]. cbn [findIndex].
  destruct (p a) eqn:Ha.
  - right. exists 0%nat, a. by repeat split.
  - destruct IH as [[-> Hall] | (n & x & -> & Hx & Hp & Hall)].
    + left. split; [done|]. by constructor.
    + right. exists (S n), x.
      destruct (Z.eqb_spec (Z.of_nat n) (-1)); [lia|].
      repeat split; [lia | done | done |].
      rewrite firstn_cons. by constructor.
Qed.

Lemma findIndex_Some {T} (p : T -> bool) (arr : list T) :
  findIndex p arr <> -1 ->
  exists (n : nat) (x : T),
    findIndex p arr = Z.of_nat n /\ arr !! n = Some x /\ p x = true.
Proof.
  destruct (findIndex_spec p arr) as [[E _] | (n & x & E & Hx & Hp & _)];
    [done | by exists n, x].
Qed.

Lemma Forall_white_space_dec (value : jsstring) :
  Decision (Forall (fun c => is_white_space c = true) value).
Proof. apply Forall_dec. intros c. apply _. Qed.

(** AddForm: a submit does something exactly when the input holds a
    code unit that is not white space; it then hands the trimmed input,
    which is not empty, to [onAdd], once, and empties the input.  The
    button is disabled exactly when a submit does nothing.  Enter
    without Shift is a submit; Enter with Shift, and any key but Escape,
    change nothing. *)
Theorem AddForm_handleSubmit (value : jsstring) :
  (Forall (fun c => is_white_space c = true) value ->
     AddForm.handleSubmit value = (value, [])
     /\ AddForm.disabled value = true)
  /\ (~ Forall (fun c => is_white_space c = true) value ->
      AddForm.handleSubmit value = ([], [OnAdd (trim value)])
      /\ AddForm.disabled value = false
      /\ trim value <> []
      /\ trim (trim value) = trim value)
  /\ (forall onCancel e,
        AddForm.handleKeyDown onCancel e value
        = if str_eqb (key e) (js "Enter")
          then if shiftKey e then (value, [])
               else prevent_default (AddForm.handleSubmit value)
          else if str_eqb (key e) (js "Escape")
               then ([], PreventDefault :: if onCancel then [OnCancel] else [])
               else (value, [])).
Proof.
  pose proof (isEmptyString_Forall value) as Hiff.
  pose proof (isEmptyString_trim value) as Htrim.
  assert (Hn : ~ Forall (fun c => is_white_space c = true) value ->
               isEmptyString value = false).
  { intros H. apply not_true_is_false. intros E. by apply H, Hiff. }
  unfold AddForm.handleSubmit, AddForm.disabled. rewrite Htrim.
  repeat split.
  - apply Hiff in H. by rewrite H.
  - by apply Hiff.
  - by rewrite Hn.
  - by apply Hn.
  - intros Hnil. apply H, Hiff.
    rewrite <- Htrim, Hnil. done.
  - apply trim_idemp.
  - intros onCancel e. unfold AddForm.handleKeyDown, AddForm.handleSubmit.
    rewrite Htrim.
    destruct (str_eqb (key e) (js "Enter")) eqn:E1, (shiftKey e);
      cbn [andb negb]; try done.
    apply str_eqb_true in E1. by rewrite E1.
Qed.

Lemma AddForm_handleSubmit_witness :
  AddForm.handleSubmit (js "  Buy milk ") = ([], [OnAdd (js "Buy milk")]).
Proof.
  destruct (AddForm_handleSubmit (js "  Buy milk ")) as (_ & H & _).
  refine (proj1 (H _)).
  intros HF. apply (Forall_lookup_1 _ _ 2 66%N) in HF; [|reflexivity].
  discriminate HF.
Defined.

Lemma not_white_space_isEmptyString (value : jsstring) :
  ~ Forall (fun c => is_white_space c = true) value ->
  isEmptyString (trim value) = false.
Proof.
  intros H. rewrite isEmptyString_trim.
  apply not_true_is_false. intros E. by apply H, isEmptyString_Forall.
Qed.

(** EditableTitle: saving ends the editing; it calls [onSave] at most
    once, and only with the trimmed text when that is neither empty nor
    the title the parent has; otherwise the text of the input goes back
    to the parent's title.  Leaving the input and the Enter key save;
    Escape never calls [onSave]. *)
Theorem EditableTitle_handleSave (value : jsstring)
    (st : EditableTitle.state) :
  let r := EditableTitle.handleSave value st in
  let edited := EditableTitle.editValue st in
  EditableTitle.isEditing r.1 = false
  /\ ((r.2 = [] /\ EditableTitle.editValue r.1 = value
       /\ (Forall (fun c => is_white_space c = true) edited
           \/ trim edited = value))
      \/ (r.2 = [OnSave (trim edited)]
          /\ EditableTitle.editValue r.1 = edited
          /\ trim edited <> value /\ trim edited <> []))
  /\ EditableTitle.handleBlur value st = r
  /\ (forall e, key e = js "Enter" ->
        EditableTitle.handleKeyDown value e st = prevent_default r)
  /\ (forall e, key e = js "Escape" ->
        EditableTitle.handleKeyDown value e st
        = (EditableTitle.mkState false value, [PreventDefault])).
Proof.
  intros r edited. subst r. unfold EditableTitle.handleSave. fold edited.
  pose proof (isEmptyString_Forall edited) as Hiff.
  pose proof (isEmptyString_trim edited) as Htrim.
  rewrite Htrim.
  split; [|split; [|split; [|split]]].
  - by destruct (negb (isEmptyString edited) && negb (str_eqb (trim edited) value)).
  - destruct (isEmptyString edited) eqn:E; cbn [negb andb].
    + left. repeat split; try done. left. by apply Hiff.
    + destruct (str_eqb (trim edited) value) eqn:E'; cbn [negb].
      * left. repeat split; try done. right. by apply str_eqb_true.
      * right. repeat split; try done; [by apply str_eqb_false|].
        intros Hnil. rewrite Hnil in Htrim. discriminate Htrim.
  - unfold EditableTitle.handleBlur, EditableTitle.handleSave.
    fold edited. by rewrite Htrim.
  - intros e He. unfold EditableTitle.handleKeyDown, EditableTitle.handleSave.
    fold edited. by rewrite He, str_eqb_refl, Htrim.
  - intros e He. unfold EditableTitle.handleKeyDown. by rewrite He.
Qed.

(** A card that is found is found again, changed, after a change of the
    cards of its list that keeps their ids. *)
Lemma getCard_fmap_card (b : Board) (i t ca ua : jsstring)
    (listId cardId : jsstring) (h : Card -> Card) (card : Card) :
  (forall c, card_id (h c) = card_id c) ->
  getCard b listId cardId = Some card ->
  getCard (mkBoard i t
             ((fun list : List =>
                 if str_eqb (list_id list) listId
                 then mkList (list_id list) (list_title list)
                             (h <$> list_cards list)
                 else list) <$> board_lists b) ca ua) listId cardId
  = Some (h card).
Proof.
  intros Hh. rewrite (getCard_map_cards _ _ _ _ _ listId (fmap h)).
  rewrite getCard_find.
  destruct (find_list (board_lists b) listId) as [l|]; [|done].
  rewrite str_eqb_refl, find_card_fmap by done. by intros ->.
Qed.

(** CardModal: a comment that is not blank, submitted in the modal of
    the card [cur] that the board shows for [modalCard], goes through
    [onAddComment] and [Board.handleAddComment] to [addComment]; on the
    board that results, the modal's card is [cur] with the trimmed text
    as its last comment, and the input is empty.  A blank comment calls
    nothing. *)
Theorem CardModal_comment_reaches_card (b : Board) (card cur : Card)
    (listId newComment uuid created now : jsstring) :
  let modalCard := Some (card, listId) in
  let text := trim newComment in
  BoardView.currentModalCard b modalCard = Some cur ->
  (Forall (fun c => is_white_space c = true) newComment ->
     CardModal.handleAddComment cur newComment = (newComment, []))
  /\ (~ Forall (fun c => is_white_space c = true) newComment ->
      CardModal.handleAddComment cur newComment
      = ([], [OnAddComment (card_id cur) text])
      /\ exists (op : Op) (b' : Board),
           BoardView.handleAddComment modalCard (card_id cur) text uuid created
           = Some op
           /\ run op now b = raw b'
           /\ BoardView.currentModalCard b' modalCard
              = Some (mkCard (card_id cur) (card_title cur)
                             (card_description cur)
                             (card_comments cur
                              ++ [mkComment (generateId (js "comment") uuid)
                                            text created])
                             (card_createdAt cur))).
Proof.
  intros modalCard text Hcur.
  pose proof (isEmptyString_Forall newComment) as Hiff.
  pose proof (isEmptyString_trim newComment) as Htrim.
  unfold CardModal.handleAddComment. rewrite Htrim. split.
  - intros H. apply Hiff in H. by rewrite H.
  - intros H. assert (E : isEmptyString newComment = false).
    { apply not_true_is_false. intros E. by apply H, Hiff. }
    rewrite E. split; [done|].
    exists (AddComment listId (card_id cur) text uuid created),
           (addComment b listId (card_id cur) text uuid created now).
    split; [done|]. split; [done|].
    assert (Hid : card_id cur = card_id card).
    { unfold BoardView.currentModalCard, modalCard in Hcur.
      destruct (find_list (board_lists b) listId); [|done].
      by apply find_Some_id in Hcur. }
    assert (Hget : getCard b listId (card_id cur) = Some cur).
    { rewrite Hid. exact Hcur. }
    change (BoardView.currentModalCard ?x modalCard)
      with (getCard x listId (card_id card)).
    rewrite <- Hid. unfold addComment.
    rewrite (getCard_fmap_card b _ _ _ _ listId (card_id cur)
               (fun c : Card =>
                  if str_eqb (card_id c) (card_id cur)
                  then mkCard (card_id c) (card_title c) (card_description c)
                         (card_comments c
                          ++ [mkComment (generateId (js "comment") uuid)
                                        text created])
                         (card_createdAt c)
                  else c) cur); [by rewrite str_eqb_refl | | done].
    intros c. by destruct (str_eqb (card_id c) (card_id cur)).
Qed.

(** The comment " hi ", submitted in the modal of the card C1 of the
    scenario's board, is the comment "hi" of that card afterwards. *)
Lemma CardModal_comment_reaches_card_witness :
  CardModal.handleAddComment (card_of "C1") (js " hi ")
  = ([], [OnAddComment (js "C1") (js "hi")])
  /\ exists (op : Op) (b' : Board),
       BoardView.handleAddComment (Some (card_of "C1", js "todo"))
                                  (js "C1") (js "hi") (js "u") (js "t0")
       = Some op
       /\ run op (js "t") todo_done = raw b'
       /\ BoardView.currentModalCard b' (Some (card_of "C1", js "todo"))
          = Some (mkCard (js "C1") (js "C1") None
                         [mkComment (js "comment-u") (js "hi") (js "t0")]
                         (js "2024-01-01T00:00:00.000Z")).
Proof.
  destruct (CardModal_comment_reaches_card todo_done (card_of "C1")
              (card_of "C1") (js "todo") (js " hi ") (js "u") (js "t0")
              (js "t") eq_refl) as [_ H].
  apply H.
  intros HF. apply (Forall_lookup_1 _ _ 1%nat 104%N) in HF; [|reflexivity].
  discriminate HF.
Defined.

(** CardModal: a title saved in the modal of the card [cur] goes through
    [handleTitleSave] and [Board.handleUpdateCardTitle] to
    [updateCardTitle]; on the board that results the modal's card is
    [cur] with that title, and no other card of the board has changed. *)
Theorem CardModal_title_reaches_card (b : Board) (card cur : Card)
    (listId edited newComment now : jsstring) :
  let modalCard := Some (card, listId) in
  let st := EditableTitle.mkState true edited in
  BoardView.currentModalCard b modalCard = Some cur ->
  (EditableTitle.handleSave (card_title cur) st).2 = [OnSave (trim edited)] ->
  exists (op : Op) (b' : Board),
    (CardModal.handleTitleSave cur (trim edited) newComment).2
    = [OnUpdateTitle (card_id cur) (trim edited)]
    /\ BoardView.handleUpdateCardTitle modalCard (card_id cur) (trim edited)
       = Some op
    /\ run op now b = raw b'
    /\ BoardView.currentModalCard b' modalCard
       = Some (mkCard (card_id cur) (trim edited) (card_description cur)
                      (card_comments cur) (card_createdAt cur))
    /\ trim edited <> card_title cur.
Proof.
  intros modalCard st Hcur Hsave.
  exists (UpdateCardTitle listId (card_id cur) (trim edited)),
         (updateCardTitle b listId (card_id cur) (trim edited) now).
  assert (Hid : card_id cur = card_id card).
  { unfold BoardView.currentModalCard, modalCard in Hcur.
    destruct (find_list (board_lists b) listId); [|done].
    by apply find_Some_id in Hcur. }
  assert (Hget : getCard b listId (card_id cur) = Some cur).
  { rewrite Hid. exact Hcur. }
  repeat split; try done.
  - change (BoardView.currentModalCard ?x modalCard)
      with (getCard x listId (card_id card)).
    rewrite <- Hid. unfold updateCardTitle.
    rewrite (getCard_fmap_card b _ _ _ _ listId (card_id cur)
               (fun c : Card =>
                  if str_eqb (card_id c) (card_id cur)
                  then mkCard (card_id c) (trim edited) (card_description c)
                         (card_comments c) (card_createdAt c)
                  else c) cur); [by rewrite str_eqb_refl | | done].
    intros c. by destruct (str_eqb (card_id c) (card_id cur)).
  - unfold EditableTitle.handleSave, st in Hsave.
    cbn [EditableTitle.editValue] in Hsave.
    destruct (negb (isEmptyString (trim edited))); [|discriminate Hsave].
    destruct (str_eqb (trim edited) (card_title cur)) eqn:E;
      [discriminate Hsave|]. by apply str_eqb_false.
Qed.

Lemma CardModal_title_reaches_card_witness :
  exists (op : Op) (b' : Board),
    run op (js "t") todo_done = raw b'
    /\ getCard b' (js "todo") (js "C1")
       = Some (mkCard (js "C1") (js "Write tests") None [] (js "2024-01-01T00:00:00.000Z")).
Proof.
  destruct (CardModal_title_reaches_card todo_done (card_of "C1")
              (card_of "C1") (js "todo") (js " Write tests ") (js "draft")
              (js "t") eq_refl eq_refl)
    as (op & b' & _ & _ & Hrun & Hcard & _).
  exists op, b'. split; [exact Hrun | exact Hcard].
Defined.

Lemma EditableTitle_handleSave_witness :
  EditableTitle.handleKeyDown (js "Todo")
    (mkKeyboardEvent (js "Enter") false)
    (EditableTitle.mkState true (js " Doing "))
  = (EditableTitle.mkState false (js " Doing "),
     [PreventDefault; OnSave (js "Doing")]).
Proof.
  destruct (EditableTitle_handleSave (js "Todo")
              (EditableTitle.mkState true (js " Doing ")))
    as (_ & _ & _ & H & _).
  exact (H (mkKeyboardEvent (js "Enter") false) eq_refl).
Defined.

(** ** Drag and drop: the operations the board's handlers call *)

Lemma Board_fields {L} (r : BoardOf L) :
  r = mkBoard (board_id r) (board_title r) (board_lists r)
              (board_createdAt r) (board_updatedAt r).
Proof. by destruct r. Qed.

(** [ReorderLists] between two positions of the lists. *)
Lemma run_ReorderLists_valid (b : Board) (i j : nat) (l : List)
    (now : jsstring) :
  board_lists b !! i = Some l -> (j < length (board_lists b))%nat ->
  run (ReorderLists (Z.of_nat i) (Z.of_nat j)) now b
  = raw (mkBoard (board_id b) (board_title b)
                 (insert_at j l (remove_at i (board_lists b)))
                 (board_createdAt b) now).
Proof.
  intros Hl Hj. cbn [run]. unfold of_lists, reorderLists, raw, raw_board.
  cbn [board_id board_title board_lists board_createdAt board_updatedAt].
  f_equal. rewrite (reorderArray_valid _ i j l) by done.
  by rewrite <- list_fmap_compose.
Qed.

(** [ReorderCards] between two positions of a list. *)
Lemma run_ReorderCards_valid (b : Board) (k : nat) (l : List) (i j : nat)
    (c : Card) (now : jsstring) :
  unique_list_ids b -> board_lists b !! k = Some l ->
  list_cards l !! i = Some c -> (j < length (list_cards l))%nat ->
  run (ReorderCards (list_id l) (Z.of_nat i) (Z.of_nat j)) now b
  = raw (mkBoard (board_id b) (board_title b)
           (<[k := mkList (list_id l) (list_title l)
                     (insert_at j c (remove_at i (list_cards l)))]>
              (board_lists b))
           (board_createdAt b) now).
Proof.
  intros Hu Hk Hc Hj. cbn [run].
  pose proof (reorderCards_at b k l (Z.of_nat i) (Z.of_nat j) now Hu Hk) as H.
  rewrite (reorderArray_valid _ i j c) in H by done.
  rewrite (Board_fields (reorderCards _ _ _ _ _)), H.
  unfold of_cards, raw, raw_board, reorderCards.
  cbn [board_id board_title board_lists board_createdAt board_updatedAt].
  f_equal. rewrite (list_fmap_compose raw_list Some). f_equal.
  by rewrite list_fmap_insert.
Qed.

(** [MoveCard] from a position of one list to a position of another, or
    to its end. *)
Lemma run_MoveCard_valid (b : Board) (ks kd : nat) (src dst : List)
    (i j : nat) (c : Card) (now : jsstring) :
  unique_list_ids b ->
  board_lists b !! ks = Some src -> board_lists b !! kd = Some dst ->
  list_id src <> list_id dst ->
  list_cards src !! i = Some c -> (j <= length (list_cards dst))%nat ->
  run (MoveCard (list_id src) (list_id dst) (Z.of_nat i) (Z.of_nat j)) now b
  = raw (mkBoard (board_id b) (board_title b)
           (<[ks := mkList (list_id src) (list_title src)
                      (remove_at i (list_cards src))]>
              (<[kd := mkList (list_id dst) (list_title dst)
                         (insert_at j c (list_cards dst))]>
                 (board_lists b)))
           (board_createdAt b) now).
Proof.
  intros Hu Hs Hd Hne Hc Hj. cbn [run].
  pose proof (moveCard_across b ks kd src dst i c (Z.of_nat j) now
                Hu Hs Hd Hne Hc) as H.
  rewrite actualStart_valid in H by done.
  rewrite (Board_fields (moveCard _ _ _ _ _ _)), H.
  unfold of_cards, raw, raw_board.
  cbn [board_id board_title board_lists board_createdAt board_updatedAt].
  assert (Hf : forall r : BoardOf RawList,
             r = moveCard b (list_id src) (list_id dst) (Z.of_nat i)
                          (Z.of_nat j) now ->
             board_id r = board_id b /\ board_title r = board_title b
             /\ board_createdAt r = board_createdAt b
             /\ board_updatedAt r = now).
  { intros r ->. unfold moveCard.
    rewrite (find_list_unique _ ks src Hu Hs),
            (find_list_unique _ kd dst Hu Hd).
    destruct (splice (Some <$> list_cards src) (Z.of_nat i) 1 []) as [dl r].
    by destruct (str_eqb (list_id src) (list_id dst)). }
  destruct (Hf _ eq_refl) as (-> & -> & -> & ->).
  f_equal. rewrite (list_fmap_compose raw_list Some). f_equal.
  by rewrite !list_fmap_insert.
Qed.

(** Replacing a list by one of the same id keeps the ids. *)
Lemma list_id_insert (ls : list List) k l l' :
  ls !! k = Some l -> list_id l' = list_id l ->
  list_id <$> <[k := l']> ls = list_id <$> ls.
Proof.
  intros Hk Hid. rewrite list_fmap_insert, Hid.
  apply list_insert_id. by rewrite list_lookup_fmap, Hk.
Qed.

Lemma find_list_lookup (ls : list List) listId l :
  find_list ls listId = Some l ->
  exists k, ls !! k = Some l /\ list_id l = listId.
Proof.
  intros [Hin Hid]%find_list_Some.
  apply list_elem_of_lookup in Hin as [k Hk]. by exists k.
Qed.

(** The operations the drag handlers of the board call have positions
    of the arrays as their indices: on a board with unique list ids the
    operation gives a board of the declared type, with the same list
    ids up to order, as many cards, unique list ids and the time of the
    call as [updatedAt]. *)
Theorem drag_handlers_valid (b : Board) (event : BoardView.drag_event)
    (op : Op) (now : jsstring) :
  unique_list_ids b ->
  BoardView.handleDragEnd b event = Some op
  \/ BoardView.handleDragOver b event = Some op ->
  exists b' : Board,
    run op now b = raw b'
    /\ unique_list_ids b'
    /\ total_cards b' = total_cards b
    /\ list_id <$> board_lists b' ≡ₚ list_id <$> board_lists b
    /\ board_updatedAt b' = now.
Proof.
  intros Hu Hop.
  assert (Hcases :
    (exists i j l, board_lists b !! i = Some l
                   /\ (j < length (board_lists b))%nat
                   /\ op = ReorderLists (Z.of_nat i) (Z.of_nat j))
    \/ (exists k l i j c, board_lists b !! k = Some l
                          /\ list_cards l !! i = Some c
                          /\ (j < length (list_cards l))%nat
                          /\ op = ReorderCards (list_id l) (Z.of_nat i)
                                               (Z.of_nat j))
    \/ (exists ks kd src dst i j c,
          board_lists b !! ks = Some src /\ board_lists b !! kd = Some dst
          /\ list_id src <> list_id dst
          /\ list_cards src !! i = Some c
          /\ (j <= length (list_cards dst))%nat
          /\ op = MoveCard (list_id src) (list_id dst) (Z.of_nat i)
                           (Z.of_nat j))).
  { destruct event as [[aid adata] [[oid odata]|]];
      destruct Hop as [Hop|Hop];
      unfold BoardView.handleDragEnd, BoardView.handleDragOver in Hop;
      cbn [BoardView.over BoardView.active BoardView.data BoardView.id] in Hop;
      try discriminate Hop.
    - (* handleDragEnd *)
      destruct adata as [[al | acard activeListId]|]; [| |discriminate Hop].
      + destruct odata as [[ol | ocard olid]|]; try discriminate Hop.
        destruct (negb (str_eqb aid oid)); [|discriminate Hop].
        destruct (Z.eqb_spec (findIndex (fun l : List => str_eqb (list_id l) aid)
                                        (board_lists b)) (-1)) as [|Ho];
          [discriminate Hop|].
        destruct (Z.eqb_spec (findIndex (fun l : List => str_eqb (list_id l) oid)
                                        (board_lists b)) (-1)) as [|Hn];
          [discriminate Hop|].
        cbn [negb andb] in Hop. injection Hop as <-.
        apply findIndex_Some in Ho as (i & l & -> & Hl & _).
        apply findIndex_Some in Hn as (j & l' & -> & Hl' & _).
        left. exists i, j, l. repeat split; [done|].
        by eapply lookup_lt_Some.
      + destruct (bool_decide _); [|discriminate Hop].
        destruct (find_list (board_lists b) activeListId) as [l|] eqn:Hfind;
          [|discriminate Hop].
        apply find_list_lookup in Hfind as (k & Hk & <-).
        destruct (Z.eqb_spec (findIndex (fun c => str_eqb (card_id c) aid)
                                        (list_cards l)) (-1)) as [|Ho];
          [discriminate Hop|].
        destruct (Z.eqb_spec (findIndex (fun c => str_eqb (card_id c) oid)
                                        (list_cards l)) (-1)) as [|Hn];
          [discriminate Hop|].
        cbn [negb andb] in Hop.
        destruct (negb _); [|discriminate Hop]. injection Hop as <-.
        apply findIndex_Some in Ho as (i & c & -> & Hc & _).
        apply findIndex_Some in Hn as (j & c' & -> & Hc' & _).
        right. left. exists k, l, i, j, c. repeat split; try done.
        by eapply lookup_lt_Some.
    - (* handleDragOver *)
      destruct adata as [[al | acard activeListId]|]; try discriminate Hop.
      set (overListId := match odata with
                         | Some (BoardView.ListData list) => Some (list_id list)
                         | _ => BoardView.overListId_of odata
                         end) in Hop.
      destruct overListId as [overListId|]; [|discriminate Hop].
      destruct (is_empty overListId); [discriminate Hop|].
      destruct (str_eqb activeListId overListId) eqn:Hne;
        [discriminate Hop|]. apply str_eqb_false in Hne.
      cbn [orb] in Hop.
      destruct (find_list (board_lists b) activeListId) as [src|] eqn:Hsrc;
        [|discriminate Hop].
      destruct (find_list (board_lists b) overListId) as [dst|] eqn:Hdst;
        [|discriminate Hop].
      apply find_list_lookup in Hsrc as (ks & Hs & <-).
      apply find_list_lookup in Hdst as (kd & Hd & <-).
      destruct (Z.eqb_spec (findIndex (fun c => str_eqb (card_id c) aid)
                                      (list_cards src)) (-1)) as [|Ha];
        [discriminate Hop|].
      apply findIndex_Some in Ha as (i & c & Ei & Hc & _).
      rewrite Ei in Hop. injection Hop as <-.
      right. right.
      assert (Hj : exists j : nat,
                 (j <= length (list_cards dst))%nat
                 /\ match odata with
                    | Some (BoardView.CardData _ _) =>
                        if negb (findIndex (fun c => str_eqb (card_id c) oid)
                                           (list_cards dst) =? -1)
                        then findIndex (fun c => str_eqb (card_id c) oid)
                                       (list_cards dst)
                        else Z.of_nat (length (list_cards dst))
                    | _ => Z.of_nat (length (list_cards dst))
                    end = Z.of_nat j).
      { destruct odata as [[ol | ocard olid]|];
          try (by exists (length (list_cards dst))).
        destruct (Z.eqb_spec (findIndex (fun c => str_eqb (card_id c) oid)
                                        (list_cards dst)) (-1)) as [|Hn];
          cbn [negb]; [by exists (length (list_cards dst))|].
        apply findIndex_Some in Hn as (j & c' & -> & Hc' & _).
        exists j. split; [|done]. apply Nat.lt_le_incl.
        by eapply lookup_lt_Some. }
      destruct Hj as (j & Hj & ->).
      exists ks, kd, src, dst, i, j, c. by repeat split. }
  destruct Hcases as [(i & j & l & Hl & Hj & ->)
    | [(k & l & i & j & c & Hk & Hc & Hj & ->)
      | (ks & kd & src & dst & i & j & c & Hs & Hd & Hne & Hc & Hj & ->)]].
  - pose proof (lookup_lt_Some _ _ _ Hl) as Hi.
    assert (Hp : insert_at j l (remove_at i (board_lists b)) ≡ₚ board_lists b).
    { rewrite insert_at_Permutation. symmetry. by apply remove_at_Permutation. }
    eexists. split; [by apply (run_ReorderLists_valid b i j l)|].
    unfold unique_list_ids, total_cards. cbn [board_lists board_updatedAt].
    repeat split; by rewrite Hp.
  - pose proof (lookup_lt_Some _ _ _ Hc) as Hi.
    eexists. split; [by apply (run_ReorderCards_valid b k l i j c)|].
    assert (Hids : list_id <$> <[k := mkList (list_id l) (list_title l)
                     (insert_at j c (remove_at i (list_cards l)))]>
                     (board_lists b) = list_id <$> board_lists b)
      by (by apply (list_id_insert _ k l)).
    unfold unique_list_ids, total_cards. cbn [board_lists board_updatedAt].
    repeat split; try by rewrite Hids.
    pose proof (sum_list_with_insert (fun l : List => length (list_cards l))
                  (board_lists b) k l
                  (mkList (list_id l) (list_title l)
                     (insert_at j c (remove_at i (list_cards l)))) Hk) as E.
    cbn [list_cards] in E.
    rewrite length_insert_at, length_remove_at in E by done. lia.
  - pose proof (lookup_lt_Some _ _ _ Hc) as Hi.
    assert (Hk : ks <> kd) by (intros ->; congruence).
    eexists. split; [by apply (run_MoveCard_valid b ks kd src dst i j c)|].
    set (dst' := mkList (list_id dst) (list_title dst)
                        (insert_at j c (list_cards dst))).
    set (src' := mkList (list_id src) (list_title src)
                        (remove_at i (list_cards src))).
    assert (Hs' : <[kd := dst']> (board_lists b) !! ks = Some src)
      by (by rewrite list_lookup_insert_ne).
    assert (Hids : list_id <$> <[ks := src']> (<[kd := dst']> (board_lists b))
                   = list_id <$> board_lists b).
    { rewrite (list_id_insert _ ks src) by done.
      by apply (list_id_insert _ kd dst). }
    unfold unique_list_ids, total_cards. cbn [board_lists board_updatedAt].
    repeat split; try by rewrite Hids.
    pose proof (sum_list_with_insert (fun l : List => length (list_cards l))
                  (board_lists b) kd dst dst' Hd) as E1.
    pose proof (sum_list_with_insert (fun l : List => length (list_cards l))
                  _ ks src src' Hs') as E2.
    cbn [list_cards dst' src'] in E1, E2.
    rewrite length_insert_at in E1. rewrite length_remove_at in E2 by done.
    lia.
Qed.

Lemma drag_handlers_valid_witness :
  exists b' : Board,
    run (MoveCard (js "todo") (js "done") 0 0) (js "t") todo_done = raw b'
    /\ total_cards b' = total_cards todo_done.
Proof.
  destruct (drag_handlers_valid todo_done
              (BoardView.mkDragEvent
                 (BoardView.mkItem (js "C1")
                    (Some (BoardView.CardData (card_of "C1") (js "todo"))))
                 (Some (BoardView.mkItem (js "done")
                    (Some (BoardView.ListData
                             (mkList (js "done") (js "Done") []))))))
              (MoveCard (js "todo") (js "done") 0 0) (js "t")
              todo_done_unique (or_intror eq_refl))
    as (b' & Hrun & _ & Hcards & _).
  by exists b'.
Defined.

(* ===================================================================== *)
(** ** The hook: its callbacks on a mounted instance *)
(* ===================================================================== *)

Section hook_callbacks.
Context {T : Type}.
Variable key : jsstring.
Variable initialValue : ref T.
Variable serializer : T -> option jsstring.
Variable deserializer : jsstring -> option T.

(** What the write effect leaves, run for the value [v]. *)
Lemma setValue_new_synced (st : St) (value : setter) (v : T) :
  synced initialValue st ->
  value = SetNew v
  \/ (exists f, value = Update f /\ f (content (storedValue st.1)) = Some v) ->
  exists h' w',
    step key initialValue serializer deserializer (SetValue value) st
    = (Ok tt, (h', w'))
    /\ content (storedValue h') = v
    /\ log w' = log st.2 ++
         match serializer v with
         | Some s => SetItem key s ::
                     (if accessible st.2 && quota_ok st.2 then []
                      else [ConsoleError])
         | None => [ConsoleError]
         end
    /\ localStorage w' =
         match serializer v with
         | Some s => if accessible st.2 && quota_ok st.2
                     then <[key := s]> (localStorage st.2)
                     else localStorage st.2
         | None => localStorage st.2
         end.
Proof.
  intros Hsynced Hvalue.
  assert (Hstep :
    step key initialValue serializer deserializer (SetValue value) st
    = step key initialValue serializer deserializer (SetValue (SetNew v)) st).
  { destruct Hvalue as [-> | (f & -> & Hfv)]; [done|].
    destruct st as [h w]. unfold step, setValue. hook_unfold.
    simpl in *. by rewrite Hfv. }
  rewrite Hstep. clear Hstep Hvalue. revert Hsynced.
  destruct st as [[sv hyd fr [rr rb] lis] w].
  intros (Hf & Hh & Hl & Hr & Hsame & Hheap & Hreads & Hrbw).
  unfold heap_ok in Hheap. simpl in *. injection Hr as -> ->. subst.
  unfold step, rerender, write_effect. hook_unfold. simpl.
  rewrite bool_decide_eq_false_2 by lia. simpl.
  destruct (serializer v) as [s|]; simpl.
  - destruct (accessible w), (quota_ok w); simpl; eexists _, _;
      (split; [reflexivity|]); simpl; rewrite <- ?app_assoc; done.
  - eexists _, _. (split; [reflexivity|]); simpl. done.
Qed.

(** Setting the state to the object it is changes nothing. *)
Lemma setValue_same_synced (st : St) (value : setter) :
  synced initialValue st ->
  (exists f, value = Update f /\ f (content (storedValue st.1)) = None)
  \/ (value = SetInitial /\ storedValue st.1 = initialValue) ->
  step key initialValue serializer deserializer (SetValue value) st
  = (Ok tt, st).
Proof.
  destruct st as [[sv hyd fr [rr rb] lis] w].
  intros (Hf & Hh & Hl & Hr & Hsame & Hheap & Hreads & Hrbw) Hvalue.
  simpl in *. injection Hr as -> ->. subst.
  destruct Hvalue as [(f & -> & Hfv) | [-> ->]];
    unfold step, setValue, rerender; hook_unfold; simpl; rewrite ?Hfv; simpl;
    by rewrite (bool_decide_eq_true_2 _ eq_refl).
Qed.

Lemma removeValue_step_synced (st : St) :
  synced initialValue st ->
  accessible st.2 = true ->
  exists h' w',
    step key initialValue serializer deserializer RemoveValue st
    = (Ok tt, (h', w'))
    /\ storedValue h' = initialValue
    /\ (storedValue st.1 = initialValue ->
        log w' = log st.2 ++ [RemoveItem key]
        /\ localStorage w' = delete key (localStorage st.2))
    /\ (storedValue st.1 <> initialValue ->
        log w' = log st.2 ++ RemoveItem key ::
          match serializer (content initialValue) with
          | Some s => SetItem key s ::
                      (if quota_ok st.2 then [] else [ConsoleError])
          | None => [ConsoleError]
          end
        /\ localStorage w' =
           match serializer (content initialValue) with
           | Some s => if quota_ok st.2
                       then <[key := s]> (delete key (localStorage st.2))
                       else delete key (localStorage st.2)
           | None => delete key (localStorage st.2)
           end).
Proof.
  destruct st as [[sv hyd fr [rr rb] lis] w].
  intros (Hf & Hh & Hl & Hr & Hsame & Hheap & Hreads & Hrbw) Hacc.
  unfold heap_ok in Hheap. simpl in *. injection Hr as -> ->. subst.
  destruct Hheap as (Hi & Hs & Hinit).
  unfold step, removeValue, rerender, write_effect. hook_unfold. simpl.
  rewrite Hacc. simpl.
  case_bool_decide as Haddr; simpl.
  - symmetry in Haddr. specialize (Hinit Haddr). subst sv.
    eexists _, _. split; [reflexivity|]. simpl. repeat split; try done.
  - assert (Hne : sv <> initialValue) by (intros ->; done).
    destruct (serializer (content initialValue)) as [s|]; simpl.
    + destruct (quota_ok w); simpl; eexists _, _;
        (split; [reflexivity|]); simpl; rewrite <- ?app_assoc;
        repeat split; try done.
    + eexists _, _. (split; [reflexivity|]); simpl. rewrite <- ?app_assoc.
      repeat split; try done.
Qed.

Lemma storage_event_ignored_synced (st : St) (k v : option jsstring) :
  synced initialValue st ->
  (k <> Some key \/ v = None ->
   step key initialValue serializer deserializer (StorageEvent k v) st
   = (Ok tt, st))
  /\ (forall newValue,
        k = Some key -> v = Some newValue -> deserializer newValue = None ->
        exists w',
          step key initialValue serializer deserializer (StorageEvent k v) st
          = (Ok tt, (st.1, w'))
          /\ log w' = log st.2 ++ [ConsoleError]
          /\ localStorage w' = localStorage st.2).
Proof.
  destruct st as [[sv hyd fr [rr rb] lis] w].
  intros (Hf & Hh & Hl & Hr & Hsame & Hheap & Hreads & Hrbw).
  simpl in *. injection Hr as -> ->. subst. split.
  - intros Hkv. unfold step, handleStorageChange, rerender. hook_unfold.
    simpl. destruct k as [k|], v as [v|]; simpl;
      try by rewrite (bool_decide_eq_true_2 _ eq_refl).
    + destruct (str_eqb k key) eqn:E; simpl;
        [|by rewrite (bool_decide_eq_true_2 _ eq_refl)].
      apply str_eqb_true in E. subst k. by destruct Hkv.
  - intros newValue -> -> Hfail.
    unfold step, handleStorageChange, rerender. hook_unfold. simpl.
    rewrite str_eqb_refl, Hfail. simpl.
    rewrite (bool_decide_eq_true_2 _ eq_refl). simpl.
    eexists. split; [reflexivity|]. done.
Qed.

(** *** The instance keeps to its key *)

Ltac key_goal :=
  unfold keeps_to_key in *; simpl in *;
  repeat match goal with H : _ /\ _ |- _ => destruct H end;
  split;
  [ repeat (apply Forall_app; split; [|repeat constructor; by auto]);
    assumption
  | intros;
    repeat (first [ rewrite lookup_insert_ne by done
                  | rewrite lookup_delete_ne by done ]);
    by auto ].

Lemma act_keeps_to_key items a :
  hoare (keeps_to_key key items)
        (act key initialValue serializer deserializer a)
        (fun _ => keeps_to_key key items) (fun _ => False).
Proof.
  intros [[sv hyd fr [rr rb] lis] w] H. simpl in *.
  destruct a as [| | | |value| |k v]; unfold act, write_effect; hook_unfold;
    simpl.
  - destruct fr; simpl; [|key_goal].
    destruct (accessible w); simpl; [|key_goal].
    destruct (truthy _) as [item|]; simpl; [|key_goal].
    destruct (deserializer item); simpl; key_goal.
  - destruct rb; simpl; [|key_goal].
    destruct (serializer (content rr)); simpl;
      [destruct (accessible w), (quota_ok w); simpl|]; key_goal.
  - key_goal.
  - key_goal.
  - destruct value as [|x|f]; simpl; [| |destruct (f _); simpl]; key_goal.
  - destruct (accessible w); simpl; key_goal.
  - destruct lis; simpl; [|key_goal].
    destruct k as [k|], v as [v|]; simpl; try key_goal.
    destruct (str_eqb k key); simpl; [|key_goal].
    destruct (deserializer v); simpl; key_goal.
Qed.

Lemma rerender_keeps_to_key items :
  hoare (keeps_to_key key items) (rerender key serializer)
        (fun _ => keeps_to_key key items) (fun _ => False).
Proof.
  intros [h w] H. unfold rerender, bind at 1, get_hook.
  destruct (_ && _); [exact H|].
  apply (hoare_bind _ _ _ _ _ _
           (act_keeps_to_key items Render)
           (fun _ => act_keeps_to_key items RunWrite) (h, w) H).
Qed.

Lemma step_keeps_to_key items ev :
  hoare (keeps_to_key key items)
        (step key initialValue serializer deserializer ev)
        (fun _ => keeps_to_key key items) (fun _ => False).
Proof.
  destruct ev as [| |value| |k v]; cbn [step].
  - eapply hoare_bind; [apply (act_keeps_to_key items RunHydration)|].
    intros ?. apply rerender_keeps_to_key.
  - eapply hoare_bind; [apply (act_keeps_to_key items RunWrite)|].
    intros ?. apply rerender_keeps_to_key.
  - eapply hoare_bind; [apply (act_keeps_to_key items (CallSetValue value))|].
    intros ?. apply rerender_keeps_to_key.
  - eapply hoare_bind; [apply (act_keeps_to_key items CallRemoveValue)|].
    intros ?. apply rerender_keeps_to_key.
  - intros [h w] H. unfold bind at 1, get_hook.
    destruct (listening h) eqn:El; [|exact H].
    pose proof (act_keeps_to_key items (Deliver k v) (h, w) H) as Ha.
    unfold act, bind at 1, get_hook in Ha. rewrite El in Ha.
    exact (hoare_bind _ _ (fun st => st = (h, w)) _ _ _
             (fun st E => eq_ind_r (fun st => match handleStorageChange key deserializer k v st with
                                              | (Ok a, st') => keeps_to_key key items st'
                                              | (Throw, _) => False end) Ha E)
             (fun _ => rerender_keeps_to_key items) (h, w) eq_refl).
Qed.

Lemma steps_keeps_to_key items evs :
  hoare (keeps_to_key key items)
        (steps key initialValue serializer deserializer evs)
        (fun _ => keeps_to_key key items) (fun _ => False).
Proof.
  induction evs as [|ev evs IH]; simpl.
  - by apply hoare_ret.
  - eapply hoare_bind; [apply step_keeps_to_key | intros ?; apply IH].
Qed.

Lemma acts_keeps_to_key items l :
  hoare (keeps_to_key key items)
        (acts key initialValue serializer deserializer l)
        (fun _ => keeps_to_key key items) (fun _ => False).
Proof.
  induction l as [|a l IH]; simpl.
  - by apply hoare_ret.
  - eapply hoare_bind; [apply act_keeps_to_key | intros ?; apply IH].
Qed.

Lemma mount_keeps_to_key items :
  hoare (keeps_to_key key items) (mount key serializer deserializer)
        (fun _ => keeps_to_key key items) (fun _ => False).
Proof.
  unfold mount.
  eapply hoare_bind; [apply (act_keeps_to_key items RunHydration)|]. intros ?.
  eapply hoare_bind; [apply (act_keeps_to_key items RunWrite)|]. intros ?.
  eapply hoare_bind; [apply (act_keeps_to_key items RunListen)|]. intros ?.
  apply rerender_keeps_to_key.
Qed.

Lemma initial_keeps_to_key items acc quota :
  keeps_to_key key items
    (initial_hook initialValue, initial_world initialValue items acc quota).
Proof. split; [constructor | done]. Qed.

End hook_callbacks.

Section hook_mounted.
Context {T : Type}.
Variable key : jsstring.
Variable initialValue : ref T.
Variable serializer : T -> option jsstring.
Variable deserializer : jsstring -> option T.

(** [setValue] on a mounted instance, after any events: a new value, or
    an updater that returns one, becomes the state, and the write effect
    then writes it, serialized, under the key; when serializing or
    writing fails the failure is logged and the state stays the new
    value.  An updater that returns the state it is given, or the
    initial object when the state is that object, changes nothing:
    nothing is written. *)
Theorem setValue_on_mounted
    (evs : list (event (T:=T))) (items : gmap jsstring jsstring)
    (acc quota : bool) (value : setter (T:=T)) :
  let st := (life key initialValue serializer deserializer evs
               (initial_hook initialValue,
                initial_world initialValue items acc quota)).2 in
  (forall v,
     value = SetNew v
     \/ (exists f, value = Update f
                   /\ f (content (storedValue st.1)) = Some v) ->
     exists h' w',
       step key initialValue serializer deserializer (SetValue value) st
       = (Ok tt, (h', w'))
       /\ content (storedValue h') = v
       /\ log w' = log st.2 ++
            match serializer v with
            | Some s => SetItem key s ::
                        (if accessible st.2 && quota_ok st.2 then []
                         else [ConsoleError])
            | None => [ConsoleError]
            end
       /\ localStorage w' =
            match serializer v with
            | Some s => if accessible st.2 && quota_ok st.2
                        then <[key := s]> (localStorage st.2)
                        else localStorage st.2
            | None => localStorage st.2
            end)
  /\ ((exists f, value = Update f
                 /\ f (content (storedValue st.1)) = None)
      \/ (value = SetInitial /\ storedValue st.1 = initialValue) ->
      step key initialValue serializer deserializer (SetValue value) st
      = (Ok tt, st)).
Proof.
  intros st. subst st.
  pose proof (life_synced key initialValue serializer deserializer
                evs items acc quota) as H.
  destruct (life _ _ _ _ _ _) as [[[]|] st]; [|done]. cbn [snd]. split.
  - intros v Hv. by apply setValue_new_synced.
  - intros Hv. by apply setValue_same_synced.
Qed.

(** [removeValue] on a mounted instance whose storage is accessible:
    the state becomes the initial object and the item is removed.  When
    the state was another object, the write effect runs for the new
    state and writes the serialized initial value under the key again. *)
Theorem removeValue_on_mounted
    (evs : list (event (T:=T))) (items : gmap jsstring jsstring)
    (acc quota : bool) :
  let st := (life key initialValue serializer deserializer evs
               (initial_hook initialValue,
                initial_world initialValue items acc quota)).2 in
  accessible st.2 = true ->
  exists h' w',
    step key initialValue serializer deserializer RemoveValue st
    = (Ok tt, (h', w'))
    /\ storedValue h' = initialValue
    /\ (storedValue st.1 = initialValue ->
        log w' = log st.2 ++ [RemoveItem key]
        /\ localStorage w' = delete key (localStorage st.2))
    /\ (storedValue st.1 <> initialValue ->
        log w' = log st.2 ++ RemoveItem key ::
          match serializer (content initialValue) with
          | Some s => SetItem key s ::
                      (if quota_ok st.2 then [] else [ConsoleError])
          | None => [ConsoleError]
          end
        /\ localStorage w' =
           match serializer (content initialValue) with
           | Some s => if quota_ok st.2
                       then <[key := s]> (delete key (localStorage st.2))
                       else delete key (localStorage st.2)
           | None => delete key (localStorage st.2)
           end).
Proof.
  intros st. subst st.
  pose proof (life_synced key initialValue serializer deserializer
                evs items acc quota) as H.
  destruct (life _ _ _ _ _ _) as [[[]|] st]; [|done]. cbn [snd].
  by apply removeValue_step_synced.
Qed.

(** A mounted instance ignores the storage events for another key, for
    no key, and those without a new value: nothing changes, nothing is
    written or logged.  When the new value for its key does not
    deserialize, the failure is logged and nothing else changes. *)
Theorem storage_event_ignored
    (evs : list (event (T:=T))) (items : gmap jsstring jsstring)
    (acc quota : bool) (k v : option jsstring) :
  let st := (life key initialValue serializer deserializer evs
               (initial_hook initialValue,
                initial_world initialValue items acc quota)).2 in
  (k <> Some key \/ v = None ->
   step key initialValue serializer deserializer (StorageEvent k v) st
   = (Ok tt, st))
  /\ (forall newValue,
        k = Some key -> v = Some newValue -> deserializer newValue = None ->
        exists w',
          step key initialValue serializer deserializer (StorageEvent k v) st
          = (Ok tt, (st.1, w'))
          /\ log w' = log st.2 ++ [ConsoleError]
          /\ localStorage w' = localStorage st.2).
Proof.
  intros st. subst st.
  pose proof (life_synced key initialValue serializer deserializer
                evs items acc quota) as H.
  destruct (life _ _ _ _ _ _) as [[[]|] st]; [|done]. cbn [snd].
  by apply storage_event_ignored_synced.
Qed.

(** An instance keeps to its key: whatever events reach it, and in
    whatever order its effects and callbacks run, every call of the
    storage it makes is for its key, and the items under the other keys
    stay as they were. *)
Theorem hook_keeps_to_key
    (items : gmap jsstring jsstring) (acc quota : bool) :
  (forall evs : list (event (T:=T)),
     keeps_to_key key items
       (life key initialValue serializer deserializer evs
          (initial_hook initialValue,
           initial_world initialValue items acc quota)).2)
  /\ (forall l : list (action (T:=T)),
        keeps_to_key key items
          (acts key initialValue serializer deserializer l
             (initial_hook initialValue,
              initial_world initialValue items acc quota)).2).
Proof.
  split.
  - intros evs.
    pose proof (hoare_bind _ _ _ _ _ _
                  (mount_keeps_to_key key initialValue serializer deserializer
                                      items)
                  (fun _ => steps_keeps_to_key key initialValue serializer
                              deserializer items evs)
                  _ (initial_keeps_to_key key initialValue items acc quota))
      as H.
    unfold life. by destruct (bind _ _ _) as [[[]|] st].
  - intros l.
    pose proof (acts_keeps_to_key key initialValue serializer deserializer
                  items l _
                  (initial_keeps_to_key key initialValue items acc quota))
      as H.
    by destruct (acts _ _ _ _ _ _) as [[[]|] st].
Qed.

End hook_mounted.

Lemma setValue_on_mounted_witness :
  exists h' w',
    step board_key default_value default_serializer JSON_parse
         (SetValue (SetNew board_X))
         (life board_key default_value default_serializer JSON_parse []
               (board_instance ∅)).2
    = (Ok tt, (h', w'))
    /\ content (storedValue h') = board_X
    /\ localStorage w' !! board_key = Some (JSON_stringify board_X).
Proof.
  destruct (setValue_on_mounted board_key default_value default_serializer
              JSON_parse [] ∅ true true (SetNew board_X)) as [H _].
  destruct (H board_X (or_introl eq_refl)) as (h' & w' & Hs & Hc & _ & Hl).
  exists h', w'. split; [exact Hs|]. split; [exact Hc|].
  rewrite Hl. apply lookup_insert_eq.
Defined.

Lemma removeValue_on_mounted_witness :
  exists h' w',
    step board_key default_value default_serializer JSON_parse RemoveValue
         (life board_key default_value default_serializer JSON_parse
               [SetValue (SetNew board_X)] (board_instance ∅)).2
    = (Ok tt, (h', w'))
    /\ storedValue h' = default_value
    /\ localStorage w' !! board_key
       = Some (JSON_stringify (json_of_Board default_board)).
Proof.
  assert (Hacc : accessible
            (life board_key default_value default_serializer JSON_parse
                  [SetValue (SetNew board_X)] (board_instance ∅)).2.2 = true)
    by (vm_compute; reflexivity).
  destruct (removeValue_on_mounted board_key default_value default_serializer
              JSON_parse [SetValue (SetNew board_X)] ∅ true true Hacc)
    as (h' & w' & Hs & Hv & _ & H).
  exists h', w'. split; [exact Hs|]. split; [exact Hv|].
  destruct H as [_ Hl]; [intros E; vm_compute in E; discriminate E|].
  rewrite Hl. apply lookup_insert_eq.
Defined.

Lemma storage_event_ignored_witness :
  step board_key default_value default_serializer JSON_parse
       (StorageEvent (Some (js "theme")) (Some (js "dark")))
       (life board_key default_value default_serializer JSON_parse []
             (board_instance ∅)).2
  = (Ok tt,
     (life board_key default_value default_serializer JSON_parse []
           (board_instance ∅)).2).
Proof.
  destruct (storage_event_ignored board_key default_value default_serializer
              JSON_parse [] ∅ true true (Some (js "theme"))
              (Some (js "dark"))) as [H _].
  apply H. left. discriminate.
Defined.

(* ===================================================================== *)
(** ** The storage service *)
(* ===================================================================== *)

Lemma JSON_stringify_nonempty (data : json) :
  number_free data = true -> JSON_stringify data <> [].
Proof.
  intros Hnf Hnil. pose proof (JSON_parse_stringify data Hnf) as H.
  rewrite Hnil in H. discriminate H.
Qed.

Lemma truthy_Some (s : jsstring) : s <> [] -> truthy (Some s) = Some s.
Proof. by destruct s. Qed.

Ltac service_unfold :=
  unfold StorageService.getOrDefault, StorageService.reset,
    StorageService.get, StorageService.set, StorageService.clear,
    StorageService.call_JSON_parse;
  hook_unfold.

Ltac service_done :=
  simpl; repeat split; try done; intros;
  repeat match goal with
         | H : _ \/ _ |- _ => destruct H
         | H : exists _, _ |- _ => destruct H
         | H : _ /\ _ |- _ => destruct H
         end;
  try congruence.

Section storage_service.
Context {T : Type}.
Variable key : jsstring.

(** The service in the browser, on a storage that can be written: what
    [set] stores, [get] returns, for every value without numbers. *)
Theorem StorageService_set_get (data : json) (st : Hook T * World) :
  accessible st.2 = true -> quota_ok st.2 = true ->
  number_free data = true ->
  exists w',
    bind (StorageService.set true key data)
         (fun _ => StorageService.get true key) st
    = (Ok data, (st.1, w'))
    /\ localStorage w' = <[key := JSON_stringify data]> (localStorage st.2)
    /\ log w' = log st.2 ++ [SetItem key (JSON_stringify data); GetItem key].
Proof.
  destruct st as [h w]. simpl. intros Hacc Hquota Hnf.
  service_unfold. simpl. rewrite Hacc, Hquota. simpl. rewrite ?Hacc.
  rewrite lookup_insert_eq, truthy_Some by (by apply JSON_stringify_nonempty).
  rewrite (JSON_parse_stringify data Hnf).
  eexists. split; [reflexivity|]. simpl. by rewrite <- app_assoc.
Qed.

Lemma StorageService_get_returns (isBrowser : bool) (st : Hook T * World) :
  exists v w', StorageService.get isBrowser key st = (Ok v, (st.1, w')).
Proof.
  destruct st as [h w]. service_unfold. destruct isBrowser; simpl.
  - destruct (accessible w); simpl.
    + destruct (truthy (localStorage w !! key)) as [item|]; simpl.
      * destruct (JSON_parse item) as [j|]; simpl; by eexists _, _.
      * by eexists _, _.
    + by eexists _, _.
  - by eexists _, _.
Qed.

(** No operation of the service throws or touches anything but the
    storage: [get] returns a value and leaves the items as they are,
    [set] and [clear] return.  Outside the browser none of them reaches
    the storage.  [get] returns null when the storage cannot be read,
    when there is no item or an empty one, and when the item does not
    parse; otherwise it returns what the item parses to. *)
Theorem StorageService_total (isBrowser : bool) (data : json)
    (st : Hook T * World) :
  (exists v w',
     StorageService.get isBrowser key st = (Ok v, (st.1, w'))
     /\ localStorage w' = localStorage st.2
     /\ (isBrowser = false -> v = JNull /\ w' = st.2)
     /\ (accessible st.2 = false
         \/ truthy (localStorage st.2 !! key) = None
         \/ (exists item, truthy (localStorage st.2 !! key) = Some item
                          /\ JSON_parse item = None) ->
         v = JNull)
     /\ (forall item j,
           isBrowser = true -> accessible st.2 = true ->
           truthy (localStorage st.2 !! key) = Some item ->
           JSON_parse item = Some j -> v = j))
  /\ (exists w',
        StorageService.set isBrowser key data st = (Ok tt, (st.1, w'))
        /\ localStorage w'
           = (if isBrowser && accessible st.2 && quota_ok st.2
              then <[key := JSON_stringify data]> (localStorage st.2)
              else localStorage st.2)
        /\ (isBrowser = false -> w' = st.2))
  /\ (exists w',
        StorageService.clear isBrowser key st = (Ok tt, (st.1, w'))
        /\ localStorage w'
           = (if isBrowser && accessible st.2
              then delete key (localStorage st.2)
              else localStorage st.2)
        /\ (isBrowser = false -> w' = st.2)).
Proof.
  destruct st as [h w]. simpl. repeat split.
  - service_unfold. destruct isBrowser; simpl.
    + destruct (accessible w) eqn:Hacc; simpl.
      * destruct (truthy (localStorage w !! key)) as [item|] eqn:Hitem; simpl.
        -- destruct (JSON_parse item) as [j|] eqn:Hj; simpl;
             eexists _, _; (split; [reflexivity|]); service_done.
        -- eexists _, _; (split; [reflexivity|]); service_done.
      * eexists _, _; (split; [reflexivity|]); service_done.
    + eexists _, _; (split; [reflexivity|]); service_done.
  - service_unfold. destruct isBrowser; simpl.
    + destruct (accessible w), (quota_ok w); simpl;
        eexists; (split; [reflexivity|]); service_done.
    + eexists; (split; [reflexivity|]); service_done.
  - service_unfold. destruct isBrowser; simpl.
    + destruct (accessible w); simpl;
        eexists; (split; [reflexivity|]); service_done.
    + eexists; (split; [reflexivity|]); service_done.
Qed.

(** [boardStorage]: [reset] returns the default board, whether or not
    it could be written; where the storage can be written,
    [getOrDefault] then returns it.  After [clear], and over an item
    that does not parse, [getOrDefault] returns the default board; it
    never returns a falsy value when the default board is none. *)
Theorem boardStorage_default (isBrowser : bool) (is_zero : jsstring -> bool)
    (DEFAULT_BOARD : json) (st : Hook T * World) :
  (StorageService.reset isBrowser key DEFAULT_BOARD st).1 = Ok DEFAULT_BOARD
  /\ (isBrowser = true -> accessible st.2 = true -> quota_ok st.2 = true ->
      number_free DEFAULT_BOARD = true ->
      (bind (StorageService.reset isBrowser key DEFAULT_BOARD)
            (fun _ => StorageService.getOrDefault isBrowser key is_zero
                        DEFAULT_BOARD) st).1
      = Ok DEFAULT_BOARD)
  /\ (bind (StorageService.clear isBrowser key)
           (fun _ => StorageService.getOrDefault isBrowser key is_zero
                       DEFAULT_BOARD) st).1
     = Ok DEFAULT_BOARD
  /\ (forall item,
        localStorage st.2 !! key = Some item -> JSON_parse item = None ->
        (StorageService.getOrDefault isBrowser key is_zero DEFAULT_BOARD st).1
        = Ok DEFAULT_BOARD)
  /\ (StorageService.falsy is_zero DEFAULT_BOARD = false ->
      exists v,
        (StorageService.getOrDefault isBrowser key is_zero DEFAULT_BOARD st).1
        = Ok v
        /\ StorageService.falsy is_zero v = false).
Proof.
  destruct st as [h w]. simpl. repeat split.
  - service_unfold. destruct isBrowser; simpl; [|done].
    by destruct (accessible w), (quota_ok w).
  - intros -> Hacc Hquota Hnf. service_unfold. simpl.
    rewrite Hacc, Hquota. simpl. rewrite ?Hacc.
    rewrite lookup_insert_eq, truthy_Some
      by (by apply JSON_stringify_nonempty).
    rewrite (JSON_parse_stringify _ Hnf). simpl.
    by destruct (StorageService.falsy is_zero DEFAULT_BOARD).
  - service_unfold. destruct isBrowser; simpl.
    + destruct (accessible w) eqn:Hacc; simpl; rewrite ?Hacc; simpl; [|done].
      by rewrite lookup_delete_eq.
    + done.
  - intros item Hitem Hfail. service_unfold. destruct isBrowser; simpl; [|done].
    destruct (accessible w); simpl; [|done]. rewrite Hitem.
    destruct item as [|c item]; simpl; [done|]. by rewrite Hfail.
  - intros Hdef.
    destruct (StorageService_get_returns isBrowser (h, w))
      as (v & w' & Hget).
    unfold StorageService.getOrDefault, bind. rewrite Hget. simpl.
    destruct (StorageService.falsy is_zero v) eqn:E; eexists; split; done.
Qed.

End storage_service.

Lemma setValue_then_get_synced (key : jsstring) (initialValue : ref json)
    (st : Hook json * World) (v : json) :
  synced initialValue st ->
  accessible st.2 = true -> quota_ok st.2 = true -> number_free v = true ->
  (StorageService.get true key
     (step key initialValue default_serializer JSON_parse
           (SetValue (SetNew v)) st).2).1
  = Ok v.
Proof.
  destruct st as [[sv hyd fr [rr rb] lis] w].
  intros (Hf & Hh & Hl & Hr & Hsame & Hheap & Hreads & Hrbw) Hacc Hquota Hnf.
  unfold heap_ok in Hheap. simpl in *. injection Hr as -> ->. subst.
  pose proof (JSON_stringify_nonempty _ Hnf) as Hne.
  pose proof (JSON_parse_stringify _ Hnf) as Hparse.
  remember (JSON_stringify v) as s eqn:Hs.
  unfold step, rerender, write_effect, default_serializer.
  service_unfold. simpl.
  rewrite bool_decide_eq_false_2 by lia. simpl. rewrite <- Hs.
  rewrite Hacc, Hquota. simpl. rewrite ?Hacc.
  rewrite lookup_insert_eq, truthy_Some by done. by rewrite Hparse.
Qed.

(** The service and the hook of the board agree on the key's format:
    the hook, with the default serializer and deserializer, mounts on
    the board the service has stored and holds it as its state; and the
    service reads the value a mounted hook has been set to. *)
Theorem service_and_hook_agree (key : jsstring) (initialValue : ref json) :
  (forall (b : Board) (w : World),
     accessible w = true -> quota_ok w = true ->
     let st1 := (StorageService.set true key (json_of_Board b)
                   (initial_hook initialValue, w)).2 in
     exists h' w',
       mount key default_serializer JSON_parse st1 = (Ok tt, (h', w'))
       /\ content (storedValue h') = json_of_Board b
       /\ isHydrated h' = true
       /\ localStorage w' !! key = Some (JSON_stringify (json_of_Board b)))
  /\ (forall (evs : list (event (T:=json))) (items : gmap jsstring jsstring)
             (acc quota : bool) (v : json),
        let st := (life key initialValue default_serializer JSON_parse evs
                     (initial_hook initialValue,
                      initial_world initialValue items acc quota)).2 in
        accessible st.2 = true -> quota_ok st.2 = true ->
        number_free v = true ->
        (StorageService.get true key
           (step key initialValue default_serializer JSON_parse
                 (SetValue (SetNew v)) st).2).1
        = Ok v).
Proof.
  split.
  - intros b w Hacc Hquota st1. subst st1.
    pose proof (number_free_Board b) as Hnf.
    pose proof (JSON_stringify_nonempty _ Hnf) as Hne.
    pose proof (JSON_parse_stringify _ Hnf) as Hparse.
    remember (json_of_Board b) as j eqn:Hj.
    remember (JSON_stringify j) as s eqn:Hs.
    unfold mount, rerender, write_effect, initial_hook, default_serializer.
    service_unfold. simpl. rewrite <- ?Hs. rewrite Hacc, Hquota. simpl.
    rewrite ?Hacc.
    rewrite lookup_insert_eq, truthy_Some by done. rewrite Hparse. simpl.
    rewrite andb_false_r. simpl.
    rewrite <- ?Hs. rewrite ?Hacc, ?Hquota. simpl.
    eexists _, _. split; [reflexivity|]. simpl.
    repeat split. apply lookup_insert_eq.
  - intros evs items acc quota v st. subst st.
    pose proof (life_synced key initialValue default_serializer JSON_parse
                  evs items acc quota) as H.
    destruct (life _ _ _ _ _ _) as [[[]|] st]; [|done]. cbn [snd].
    by apply setValue_then_get_synced.
Qed.

Lemma StorageService_set_get_witness :
  exists w',
    bind (StorageService.set true board_key board_X)
         (fun _ => StorageService.get true board_key) (board_instance ∅)
    = (Ok board_X, ((board_instance ∅).1, w')).
Proof.
  destruct (StorageService_set_get board_key board_X (board_instance ∅)
              eq_refl eq_refl eq_refl) as (w' & H & _).
  by exists w'.
Defined.

Lemma StorageService_total_witness :
  exists v w',
    StorageService.get true board_key
      (board_instance {[ board_key := js "{bad" ]})
    = (Ok v, ((board_instance {[ board_key := js "{bad" ]}).1, w'))
    /\ v = JNull.
Proof.
  destruct (StorageService_total board_key true JNull
              (board_instance {[ board_key := js "{bad" ]}))
    as ((v & w' & Hget & _ & _ & Hnull & _) & _).
  exists v, w'. split; [exact Hget|]. apply Hnull. right. right.
  exists (js "{bad"). split; [|reflexivity].
  cbn [board_instance snd initial_world localStorage].
  by rewrite lookup_singleton_eq.
Defined.

Lemma boardStorage_default_witness :
  (bind (StorageService.reset true board_key (json_of_Board default_board))
        (fun _ => StorageService.getOrDefault true board_key (fun _ => false)
                    (json_of_Board default_board))
        (board_instance ∅)).1
  = Ok (json_of_Board default_board).
Proof.
  destruct (boardStorage_default (T:=json) board_key true (fun _ => false)
              (json_of_Board default_board) (board_instance ∅))
    as (_ & H & _).
  exact (H eq_refl eq_refl eq_refl eq_refl).
Defined.

Lemma service_and_hook_agree_witness :
  exists h' w',
    mount board_key default_serializer JSON_parse
      (StorageService.set true board_key (json_of_Board todo_done)
         (board_instance ∅)).2
    = (Ok tt, (h', w'))
    /\ content (storedValue h') = json_of_Board todo_done.
Proof.
  destruct (service_and_hook_agree board_key default_value) as [H _].
  destruct (H todo_done (initial_world default_value ∅ true true)
              eq_refl eq_refl) as (h' & w' & Hm & Hc & _).
  exists h', w'. split; [exact Hm | exact Hc].
Defined.
